(** * RouteBoxer: a shallow embedding of the Go route boxer

    The development follows the two source files of the package:
    [rhumb.go] (rhumb-line geodesy) and the [RouteBoxer] type with its
    grid construction, cell tracing and box merging.

    Numbers.  A Go [float64] is modelled by a real number: arithmetic is
    exact, [math.Cos], [math.Sin], [math.Tan], [math.Log] are the real
    functions, and NaN, infinities, signed zeros and rounding are not
    represented.  Comparisons are the decidable comparisons of [R].
    A Go [int] is modelled by [Z] (the indices met here are far from the
    64-bit bounds).

    Faults.  A slice index outside [0, len) panics in Go; the embedding
    returns [Panic].  Loops whose trip count is not bounded by the data
    take a fuel argument and return [OutOfFuel] when it is exhausted. *)

From Stdlib Require Import String.
From Stdlib Require Import Reals Lra Lia ZArith List Bool Psatz Wf_nat.
Import ListNotations.

Local Open Scope R_scope.

(** ** Outcomes of a computation *)

Inductive outcome (A : Type) : Type :=
| Ok (a : A)
| Panic
| OutOfFuel.

Arguments Ok {A} a.
Arguments Panic {A}.
Arguments OutOfFuel {A}.

Definition bind {A B : Type} (m : outcome A) (k : A -> outcome B) : outcome B :=
  match m with
  | Ok a => k a
  | Panic => Panic
  | OutOfFuel => OutOfFuel
  end.

Notation "x <- m ;; k" := (bind m (fun x => k))
  (at level 61, m at next level, right associativity).

(** ** Slices indexed by a Go int *)

Definition idx {A : Type} (l : list A) (i : Z) : option A :=
  if (i <? 0)%Z then None else nth_error l (Z.to_nat i).

Definition at_ {A : Type} (l : list A) (i : Z) : outcome A :=
  match idx l i with
  | Some a => Ok a
  | None => Panic
  end.

Fixpoint upd_nat {A : Type} (l : list A) (n : nat) (a : A) : list A :=
  match l, n with
  | [], _ => []
  | _ :: t, O => a :: t
  | h :: t, S n' => h :: upd_nat t n' a
  end.

Definition upd {A : Type} (l : list A) (i : Z) (a : A) : list A :=
  if (i <? 0)%Z then l else upd_nat l (Z.to_nat i) a.

Definition len {A : Type} (l : list A) : Z := Z.of_nat (length l).

(** ** Decidable comparisons on float64 values *)

Definition Rltb (a b : R) : bool := if Rlt_dec a b then true else false.
Definition Rleb (a b : R) : bool := if Rle_dec a b then true else false.
Definition Reqb (a b : R) : bool := if Req_dec_T a b then true else false.

(** ** The part of go.geo the package uses

    [geo.Point] is a pair (longitude, latitude); [geo.Bound] holds its
    south-west and north-east corners; [geo.EarthRadius] is the WGS84
    radius in metres. *)

Record Point : Type := mkPoint { Lng : R; Lat : R }.

Definition NewPointFromLatLng (lat lng : R) : Point := mkPoint lng lat.

Record Bound : Type := mkBound { SouthWest : Point; NorthEast : Point }.

Definition EarthRadius : R := 6378137.

(** [Bound.Extend]: grow the bound so that it includes the point. *)
Definition Extend (b : Bound) (p : Point) : Bound :=
  mkBound
    (mkPoint (Rmin (Lng (SouthWest b)) (Lng p)) (Rmin (Lat (SouthWest b)) (Lat p)))
    (mkPoint (Rmax (Lng (NorthEast b)) (Lng p)) (Rmax (Lat (NorthEast b)) (Lat p))).

(** [geo.NewBoundFromPoints]: both corners start at the first point, then
    the bound is extended by the second one. *)
Definition NewBoundFromPoints (corner opposite : Point) : Bound :=
  Extend (mkBound corner corner) opposite.

(** [geo.NewBound west east south north]. *)
Definition NewBound (west east south north : R) : Bound :=
  mkBound (mkPoint (Rmin east west) (Rmin north south))
          (mkPoint (Rmax east west) (Rmax north south)).

(** [PointSet.Bound]: the zero bound for the empty set, otherwise the
    running minimum and maximum of the coordinates.  (The library starts
    the fold at plus and minus infinity; starting at the first point gives
    the same extrema.) *)
Definition PointSet_Bound (ps : list Point) : Bound :=
  match ps with
  | [] => NewBound 0 0 0 0
  | p :: rest =>
      let minX := fold_left (fun m v => Rmin m (Lng v)) rest (Lng p) in
      let minY := fold_left (fun m v => Rmin m (Lat v)) rest (Lat p) in
      let maxX := fold_left (fun m v => Rmax m (Lng v)) rest (Lng p) in
      let maxY := fold_left (fun m v => Rmax m (Lat v)) rest (Lat p) in
      NewBound maxX minX maxY minY
  end.

(** [Bound.Center]. *)
Definition Center (b : Bound) : Point :=
  mkPoint ((Lng (NorthEast b) + Lng (SouthWest b)) / 2)
          ((Lat (NorthEast b) + Lat (SouthWest b)) / 2).

(** ** rhumb.go *)

Definition deg2rad (d : R) : R := d * PI / 180.
Definition rad2deg (r : R) : R := 180 * r / PI.

(** [math.Remainder x y]: [x - n*y] where [n] is the integer nearest to
    [x/y], the even one when [x/y] is half-way between two integers. *)
Definition nearestInt (q : R) : Z :=
  let f := Int_part q in
  if Rlt_dec (q - IZR f) (1 / 2) then f
  else if Rlt_dec (1 / 2) (q - IZR f) then (f + 1)%Z
  else if Z.even f then f else (f + 1)%Z.

Definition Remainder (x y : R) : R := x - IZR (nearestInt (x / y)) * y.

(** [math.Atan2 y x] (signed zeros apart). *)
Definition Atan2 (y x : R) : R :=
  if Rlt_dec 0 x then atan (y / x)
  else if Rlt_dec x 0 then
    (if Rle_dec 0 y then atan (y / x) + PI else atan (y / x) - PI)
  else if Rlt_dec 0 y then PI / 2
  else if Rlt_dec y 0 then - (PI / 2)
  else 0.

Definition RhumbDestinationPoint (currentPoint : Point) (brng dist : R) : Point :=
  let d := dist / EarthRadius in
  let lat1 := deg2rad (Lat currentPoint) in
  let lon1 := deg2rad (Lng currentPoint) in
  let brng := deg2rad brng in
  let dLat := d * cos brng in
  let dLat := if Rlt_dec (Rabs dLat) (1 / 10 ^ 10) then 0 else dLat in
  let lat2 := lat1 + dLat in
  let dPhi := ln (tan (lat2 / 2 + PI / 4) / tan (lat1 / 2 + PI / 4)) in
  let q := if Req_dec_T dPhi 0 then cos lat1 else dLat / dPhi in
  let dLon := d * sin brng / q in
  let lat2 :=
    if Rlt_dec (PI / 2) (Rabs lat2)
    then (if Rlt_dec 0 lat2 then PI - lat2 else - PI - lat2)
    else lat2 in
  let lon2 := Remainder (lon1 + dLon + 3 * PI) (2 * PI - PI) in
  NewPointFromLatLng (rad2deg lat2) (rad2deg lon2).

Definition RhumBearingTo (point dest : Point) : R :=
  let dLon := deg2rad (Lng dest - Lng point) in
  let dPhi := ln (tan (deg2rad (Lat dest) / 2 + PI / 4)
                  / tan (deg2rad (Lat point) / 2 + PI / 4)) in
  let dLon :=
    if Rlt_dec PI (Rabs dLon)
    then (if Rlt_dec 0 dLon then - (2 * PI - dLon) else 2 * PI + dLon)
    else dLon in
  Remainder (rad2deg (Atan2 dLon dPhi) + 360) 360.

(** ** The RouteBoxer type *)

Definition cell : Type := (Z * Z)%type.

Record RouteBoxer : Type := mkRouteBoxer {
  distanceRange : R;
  vertices : list Point;
  latGrid : list R;
  lngGrid : list R;
  grid : list (list Z);
  boxesX : list Bound;
  boxesY : list Bound
}.

Definition set_latGrid (r : RouteBoxer) (l : list R) : RouteBoxer :=
  mkRouteBoxer (distanceRange r) (vertices r) l (lngGrid r) (grid r) (boxesX r) (boxesY r).
Definition set_lngGrid (r : RouteBoxer) (l : list R) : RouteBoxer :=
  mkRouteBoxer (distanceRange r) (vertices r) (latGrid r) l (grid r) (boxesX r) (boxesY r).
Definition set_grid (r : RouteBoxer) (g : list (list Z)) : RouteBoxer :=
  mkRouteBoxer (distanceRange r) (vertices r) (latGrid r) (lngGrid r) g (boxesX r) (boxesY r).
Definition set_boxesX (r : RouteBoxer) (b : list Bound) : RouteBoxer :=
  mkRouteBoxer (distanceRange r) (vertices r) (latGrid r) (lngGrid r) (grid r) b (boxesY r).
Definition set_boxesY (r : RouteBoxer) (b : list Bound) : RouteBoxer :=
  mkRouteBoxer (distanceRange r) (vertices r) (latGrid r) (lngGrid r) (grid r) (boxesX r) b.

Definition NewRouteBoxer (distanceRange : R) (vertices : list Point) : RouteBoxer :=
  mkRouteBoxer distanceRange vertices [] [] [] [] [].

(** ** buildGrid *)

(** [for i := i0; g[i-2] < edge; i++ { g = append(g, line i) }] *)
Fixpoint growAppend (fuel : nat) (line : Z -> R) (edge : R) (i : Z) (g : list R)
  : outcome (list R) :=
  match fuel with
  | O => OutOfFuel
  | S fuel' =>
      v <- at_ g (i - 2) ;;
      if Rlt_dec v edge
      then growAppend fuel' line edge (i + 1) (g ++ [line i])
      else Ok g
  end.

(** [for i := i0; g[1] > edge; i++ { g = append([]float64{line i}, g...) }] *)
Fixpoint growPrepend (fuel : nat) (line : Z -> R) (edge : R) (i : Z) (g : list R)
  : outcome (list R) :=
  match fuel with
  | O => OutOfFuel
  | S fuel' =>
      v <- at_ g 1 ;;
      if Rlt_dec edge v
      then growPrepend fuel' line edge (i + 1) (line i :: g)
      else Ok g
  end.

Definition buildGrid (fuel : nat) (r : RouteBoxer) : outcome RouteBoxer :=
  let routeBounds := PointSet_Bound (vertices r) in
  let boundCenter := Center routeBounds in
  let d := distanceRange r in
  let lat0 := latGrid r ++ [Lat boundCenter] in
  let lat1 := lat0 ++ [Lat (RhumbDestinationPoint boundCenter 0 d)] in
  lat2 <- growAppend fuel
            (fun i => Lat (RhumbDestinationPoint boundCenter 0 (d * IZR i)))
            (Lat (NorthEast routeBounds)) 2 lat1 ;;
  lat3 <- growPrepend fuel
            (fun i => Lat (RhumbDestinationPoint boundCenter 180 (d * IZR i)))
            (Lat (SouthWest routeBounds)) 1 lat2 ;;
  let lng0 := lngGrid r ++ [Lng boundCenter] in
  let lng1 := lng0 ++ [Lng (RhumbDestinationPoint boundCenter 90 d)] in
  lng2 <- growAppend fuel
            (fun i => Lng (RhumbDestinationPoint boundCenter 90 (d * IZR i)))
            (Lng (NorthEast routeBounds)) 2 lng1 ;;
  lng3 <- growPrepend fuel
            (fun i => Lng (RhumbDestinationPoint boundCenter 270 (d * IZR i)))
            (Lng (SouthWest routeBounds)) 1 lng2 ;;
  Ok (set_grid (set_lngGrid (set_latGrid r lat3) lng3)
        (repeat (repeat 0%Z (length lat3)) (length lng3))).

(** ** Locating a vertex in the grid *)

(** [for x = x0; g[x] < v; x++ {}]; the scan faults past the last line,
    so [S (length g)] steps always suffice. *)
Fixpoint scanFirst (fuel : nat) (g : list R) (v : R) (x : Z) : outcome Z :=
  match fuel with
  | O => OutOfFuel
  | S fuel' =>
      a <- at_ g x ;;
      if Rlt_dec a v then scanFirst fuel' g v (x + 1) else Ok x
  end.

(** [for x = hint; g[x+1] < v; x++ {}] *)
Fixpoint scanUp (fuel : nat) (g : list R) (v : R) (x : Z) : outcome Z :=
  match fuel with
  | O => OutOfFuel
  | S fuel' =>
      a <- at_ g (x + 1) ;;
      if Rlt_dec a v then scanUp fuel' g v (x + 1) else Ok x
  end.

(** [for x = hint; g[x] > v; x-- {}] *)
Fixpoint scanDown (fuel : nat) (g : list R) (v : R) (x : Z) : outcome Z :=
  match fuel with
  | O => OutOfFuel
  | S fuel' =>
      a <- at_ g x ;;
      if Rlt_dec v a then scanDown fuel' g v (x - 1) else Ok x
  end.

Definition getGridCoordsFromHint (r : RouteBoxer) (latlng hintlatlng : Point)
  (hint : cell) : outcome cell :=
  x <- (if Rlt_dec (Lng hintlatlng) (Lng latlng)
        then scanUp (S (length (lngGrid r))) (lngGrid r) (Lng latlng) (fst hint)
        else scanDown (S (length (lngGrid r))) (lngGrid r) (Lng latlng) (fst hint)) ;;
  y <- (if Rlt_dec (Lat hintlatlng) (Lat latlng)
        then scanUp (S (length (latGrid r))) (latGrid r) (Lat latlng) (snd hint)
        else scanDown (S (length (latGrid r))) (latGrid r) (Lat latlng) (snd hint)) ;;
  Ok (x, y).

Definition getCellCoords (r : RouteBoxer) (latlng : Point) : outcome cell :=
  x <- scanFirst (S (length (lngGrid r))) (lngGrid r) (Lng latlng) 0 ;;
  y <- scanFirst (S (length (latGrid r))) (latGrid r) (Lat latlng) 0 ;;
  Ok ((x - 1)%Z, (y - 1)%Z).

(** ** Marking cells *)

(** [g[x][y] = 1] *)
Definition setCell (g : list (list Z)) (x y : Z) : outcome (list (list Z)) :=
  col <- at_ g x ;;
  _ <- at_ col y ;;
  Ok (upd g x (upd col y 1%Z)).

Definition markCell (r : RouteBoxer) (c : cell) : outcome RouteBoxer :=
  let x := fst c in
  let y := snd c in
  g <- setCell (grid r) (x - 1) (y - 1) ;;
  g <- setCell g x (y - 1) ;;
  g <- setCell g (x + 1) (y - 1) ;;
  g <- setCell g (x - 1) y ;;
  g <- setCell g x y ;;
  g <- setCell g (x + 1) y ;;
  g <- setCell g (x - 1) (y + 1) ;;
  g <- setCell g x (y + 1) ;;
  g <- setCell g (x + 1) (y + 1) ;;
  Ok (set_grid r g).

(** [for x = startx; x <= endx; x++ { markCell {x, y} }], [n] iterations *)
Fixpoint fillUp (n : nat) (r : RouteBoxer) (x y : Z) : outcome RouteBoxer :=
  match n with
  | O => Ok r
  | S n' => r' <- markCell r (x, y) ;; fillUp n' r' (x + 1) y
  end.

(** [for x = startx; x >= endx; x-- { markCell {x, y} }], [n] iterations *)
Fixpoint fillDown (n : nat) (r : RouteBoxer) (x y : Z) : outcome RouteBoxer :=
  match n with
  | O => Ok r
  | S n' => r' <- markCell r (x, y) ;; fillDown n' r' (x - 1) y
  end.

Definition fillInGridSquares (r : RouteBoxer) (startx endx y : Z) : outcome RouteBoxer :=
  if (startx <? endx)%Z
  then fillUp (Z.to_nat (endx - startx + 1)) r startx y
  else fillDown (Z.to_nat (startx - endx + 1)) r startx y.

(** ** Tracing a segment across grid rows *)

Definition getGridIntersect (start : Point) (brng gridLineLat : R) : Point :=
  let d := (EarthRadius / 1000)
           * ((deg2rad gridLineLat - deg2rad (Lat start)) / cos (deg2rad brng)) in
  RhumbDestinationPoint start brng d.

(** The northward loop [for i = startY+1; i <= endY; i++], [n] iterations;
    it returns the state, the last crossing's cell and the final [i]. *)
Fixpoint intersectsNorth (n : nat) (r : RouteBoxer) (start : Point) (brng : R)
  (hint : Point) (hintXY : cell) (i : Z) : outcome (RouteBoxer * cell * Z) :=
  match n with
  | O => Ok (r, hintXY, i)
  | S n' =>
      gl <- at_ (latGrid r) i ;;
      let edgePoint := getGridIntersect start brng gl in
      edgeXY <- getGridCoordsFromHint r edgePoint hint hintXY ;;
      r' <- fillInGridSquares r (fst hintXY) (fst edgeXY) (i - 1) ;;
      intersectsNorth n' r' start brng edgePoint edgeXY (i + 1)
  end.

(** The southward loop [for i = startY; i > endY; i--], [n] iterations. *)
Fixpoint intersectsSouth (n : nat) (r : RouteBoxer) (start : Point) (brng : R)
  (hint : Point) (hintXY : cell) (i : Z) : outcome (RouteBoxer * cell * Z) :=
  match n with
  | O => Ok (r, hintXY, i)
  | S n' =>
      gl <- at_ (latGrid r) i ;;
      let edgePoint := getGridIntersect start brng gl in
      edgeXY <- getGridCoordsFromHint r edgePoint hint hintXY ;;
      r' <- fillInGridSquares r (fst hintXY) (fst edgeXY) i ;;
      intersectsSouth n' r' start brng edgePoint edgeXY (i - 1)
  end.

Definition getGridIntersects (r : RouteBoxer) (start end_ : Point)
  (startXY endXY : cell) : outcome RouteBoxer :=
  let brng := RhumBearingTo start end_ in
  if Rlt_dec (Lat start) (Lat end_)
  then
    res <- intersectsNorth (Z.to_nat (snd endXY - snd startXY)) r start brng
             start startXY (snd startXY + 1) ;;
    let '(r', hintXY, i) := res in
    fillInGridSquares r' (fst hintXY) (fst endXY) (i - 1)
  else
    res <- intersectsSouth (Z.to_nat (snd startXY - snd endXY)) r start brng
             start startXY (snd startXY) ;;
    let '(r', hintXY, i) := res in
    fillInGridSquares r' (fst hintXY) (fst endXY) i.

(** ** FindIntersectingCells *)

(** The loop over the vertices after the first; [prev] is [vertices[i-1]]. *)
Fixpoint traceVertices (r : RouteBoxer) (prev : Point) (hintXY : cell)
  (vs : list Point) : outcome RouteBoxer :=
  match vs with
  | [] => Ok r
  | v :: rest =>
      gridXY <- getGridCoordsFromHint r v prev hintXY ;;
      r' <- (if ((fst gridXY =? fst hintXY) && (snd gridXY =? snd hintXY))%Z%bool
             then Ok r
             else if (((fst hintXY - fst gridXY =? 1) && (snd hintXY =? snd gridXY))
                      || ((fst hintXY =? fst gridXY) && (snd hintXY - snd gridXY =? 1)))%Z%bool
             then markCell r gridXY
             else getGridIntersects r prev v hintXY gridXY) ;;
      traceVertices r' v gridXY rest
  end.

Definition FindIntersectingCells (r : RouteBoxer) : outcome RouteBoxer :=
  match vertices r with
  | [] => Panic
  | v0 :: rest =>
      hintXY <- getCellCoords r v0 ;;
      r1 <- markCell r hintXY ;;
      traceVertices r1 v0 hintXY rest
  end.

(** ** Merging marked cells into boxes *)

Definition getCellBounds (r : RouteBoxer) (c : cell) : outcome Bound :=
  la0 <- at_ (latGrid r) (snd c) ;;
  lo0 <- at_ (lngGrid r) (fst c) ;;
  la1 <- at_ (latGrid r) (snd c + 1) ;;
  lo1 <- at_ (lngGrid r) (fst c + 1) ;;
  Ok (NewBoundFromPoints (NewPointFromLatLng la0 lo0) (NewPointFromLatLng la1 lo1)).

(** [math.Abs(a-b) < 0.001] *)
Definition near (a b : R) : bool := Rltb (Rabs (a - b)) (1 / 1000).

(** The test of [mergeBoxesX]: the accumulated box ends where the new one
    starts in longitude and spans the same latitudes. *)
Definition matchX (b box : Bound) : bool :=
  near (Lng (NorthEast b)) (Lng (SouthWest box))
  && near (Lat (SouthWest b)) (Lat (SouthWest box))
  && near (Lat (NorthEast b)) (Lat (NorthEast box)).

(** The test of [mergeBoxesY]: the accumulated box ends where the new one
    starts in latitude and spans the same longitudes. *)
Definition matchY (b box : Bound) : bool :=
  near (Lat (NorthEast b)) (Lat (SouthWest box))
  && near (Lng (SouthWest b)) (Lng (SouthWest box))
  && near (Lng (NorthEast b)) (Lng (NorthEast box)).

(** The search loop shared by [mergeBoxesX] and [mergeBoxesY]: the first
    accumulated box that passes the test is extended in place, and
    the new box is appended when none does. *)
Fixpoint mergeInto (test : Bound -> Bound -> bool) (acc : list Bound) (box : Bound)
  : list Bound :=
  match acc with
  | [] => [box]
  | b :: rest =>
      if test b box then Extend b (NorthEast box) :: rest
      else b :: mergeInto test rest box
  end.

Definition mergeBoxesX (r : RouteBoxer) (box : option Bound) : RouteBoxer :=
  match box with
  | None => r
  | Some b => set_boxesX r (mergeInto matchX (boxesX r) b)
  end.

Definition mergeBoxesY (r : RouteBoxer) (box : option Bound) : RouteBoxer :=
  match box with
  | None => r
  | Some b => set_boxesY r (mergeInto matchY (boxesY r) b)
  end.

(** The body shared by the two inner loops, for the cell [(x, y)]:
    a marked cell starts or extends the current box, an unmarked one hands
    the current box to [merge]. *)
Definition cellStep (merge : RouteBoxer -> option Bound -> RouteBoxer)
  (r : RouteBoxer) (currentBox : option Bound) (x y : Z)
  : outcome (RouteBoxer * option Bound) :=
  col <- at_ (grid r) x ;;
  c <- at_ col y ;;
  if (c =? 1)%Z then
    box <- getCellBounds r (x, y) ;;
    match currentBox with
    | Some cb => Ok (r, Some (Extend cb (NorthEast box)))
    | None => Ok (r, Some box)
    end
  else Ok (merge r currentBox, None).

(** First pass, inner loop: [for x = x0; x < len(r.grid); x++]. *)
Fixpoint rowInner (n : nat) (r : RouteBoxer) (currentBox : option Bound) (x y : Z)
  : outcome (RouteBoxer * option Bound) :=
  match n with
  | O => Ok (r, currentBox)
  | S n' =>
      st <- cellStep mergeBoxesY r currentBox x y ;;
      rowInner n' (fst st) (snd st) (x + 1) y
  end.

(** First pass, outer loop: [for y = y0; y < len(r.grid[0]); y++]. *)
Fixpoint rowOuter (n : nat) (r : RouteBoxer) (y : Z) : outcome RouteBoxer :=
  match n with
  | O => Ok r
  | S n' =>
      st <- rowInner (length (grid r)) r None 0 y ;;
      rowOuter n' (mergeBoxesY (fst st) (snd st)) (y + 1)
  end.

(** Second pass, inner loop: [for y = y0; y < len(r.grid[0]); y++]. *)
Fixpoint colInner (n : nat) (r : RouteBoxer) (currentBox : option Bound) (x y : Z)
  : outcome (RouteBoxer * option Bound) :=
  match n with
  | O => Ok (r, currentBox)
  | S n' =>
      st <- cellStep mergeBoxesX r currentBox x y ;;
      colInner n' (fst st) (snd st) x (y + 1)
  end.

(** Second pass, outer loop: [for x = x0; x < len(r.grid); x++]. *)
Fixpoint colOuter (n : nat) (height : nat) (r : RouteBoxer) (x : Z) : outcome RouteBoxer :=
  match n with
  | O => Ok r
  | S n' =>
      st <- colInner height r None x 0 ;;
      colOuter n' height (mergeBoxesX (fst st) (snd st)) (x + 1)
  end.

Definition mergeIntersectingCells (r : RouteBoxer) : outcome RouteBoxer :=
  g0 <- at_ (grid r) 0 ;;
  r1 <- rowOuter (length g0) r 0 ;;
  colOuter (length (grid r1)) (length g0) r1 0.

(** ** Boxes

    The result is returned together with the receiver's final state. *)
Definition Boxes (fuel : nat) (r : RouteBoxer) : outcome (list Bound * RouteBoxer) :=
  r1 <- buildGrid fuel r ;;
  r2 <- FindIntersectingCells r1 ;;
  r3 <- mergeIntersectingCells r2 ;;
  if (len (boxesX r3) <=? len (boxesY r3))%Z
  then Ok (boxesX r3, r3)
  else Ok (boxesY r3, r3).

(** * Vocabulary of the properties *)

(** ** Grid lines *)

(** Strictly increasing lines. *)
Definition increasing (g : list R) : Prop :=
  forall i j a b, (i < j)%Z -> idx g i = Some a -> idx g j = Some b -> a < b.

(** Consecutive lines at least the merge tolerance (0.001 degree) apart. *)
Definition gapped (g : list R) : Prop :=
  forall i a b, idx g i = Some a -> idx g (i + 1) = Some b -> a + 1 / 1000 <= b.

Fixpoint gappedList (g : list R) : Prop :=
  match g with
  | a :: (b :: _) as t => a + 1 / 1000 <= b /\ gappedList t
  | _ => True
  end.

Definition line (g : list R) (i : Z) : R := nth (Z.to_nat i) g 0.

Definition inLine (g : list R) (i : Z) : Prop := (0 <= i < len g)%Z.

(** ** Boxes and cells *)

Definition box (w s e n : R) : Bound := mkBound (mkPoint w s) (mkPoint e n).

(** [b] contains the cell bounds [cb]. *)
Definition covers (b cb : Bound) : Prop :=
  Lng (SouthWest b) <= Lng (SouthWest cb) /\ Lng (NorthEast cb) <= Lng (NorthEast b)
  /\ Lat (SouthWest b) <= Lat (SouthWest cb) /\ Lat (NorthEast cb) <= Lat (NorthEast b).

(** The interiors of [b1] and [b2] meet. *)
Definition overlap (b1 b2 : Bound) : Prop :=
  Lng (SouthWest b1) < Lng (NorthEast b2) /\ Lng (SouthWest b2) < Lng (NorthEast b1)
  /\ Lat (SouthWest b1) < Lat (NorthEast b2) /\ Lat (SouthWest b2) < Lat (NorthEast b1).

(** The coverage grid holds 1 at the cell. *)
Definition marked (r : RouteBoxer) (c : cell) : bool :=
  match idx (grid r) (fst c) with
  | Some col => match idx col (snd c) with
                | Some v => (v =? 1)%Z
                | None => false
                end
  | None => false
  end.

(** The boxes [bs] tile the marked cells of [r]: no two boxes overlap,
    every marked cell has bounds and lies in exactly one box, and no
    unmarked cell lies in a box. *)
Definition exactTiling (r : RouteBoxer) (bs : list Bound) : Prop :=
  (forall i j b1 b2, idx bs i = Some b1 -> idx bs j = Some b2 -> i <> j -> ~ overlap b1 b2)
  /\ (forall c, marked r c = true ->
        exists cb i b, getCellBounds r c = Ok cb /\ idx bs i = Some b /\ covers b cb
                       /\ forall j b', idx bs j = Some b' -> covers b' cb -> j = i)
  /\ (forall c cb b, marked r c = false -> getCellBounds r c = Ok cb -> In b bs -> ~ covers b cb).

Definition rectangular (g : list (list Z)) (h : nat) : Prop :=
  forall col, In col g -> length col = h.

(** ** Frames *)

Definition sameShape (g g' : list (list Z)) : Prop :=
  map (@length Z) g' = map (@length Z) g.

(** Only the coverage grid changed, and it kept its dimensions. *)
Definition gridOnly (r r' : RouteBoxer) : Prop :=
  r' = set_grid r (grid r') /\ sameShape (grid r) (grid r').

(** Every accumulated box is still at its index, possibly grown. *)
Definition extendsAcc (acc acc' : list Bound) : Prop :=
  (length acc <= length acc')%nat
  /\ forall i b, idx acc i = Some b -> exists b', idx acc' i = Some b' /\ covers b' b.

Definition onlyBoxesY (r r' : RouteBoxer) : Prop :=
  r' = set_boxesY r (boxesY r') /\ extendsAcc (boxesY r) (boxesY r').

Definition onlyBoxesX (r r' : RouteBoxer) : Prop :=
  r' = set_boxesX r (boxesX r') /\ extendsAcc (boxesX r) (boxesX r').

(** The old lines are kept as a block, with at least two lines added after. *)
Definition linesGrown (g g' : list R) : Prop :=
  exists pre post, g' = pre ++ g ++ post /\ (2 <= length post)%nat.


(** The cell is inside the coverage grid and not marked. *)
Definition blank (g : list (list Z)) (x y : Z) : bool :=
  match idx g x with
  | Some col => match idx col y with
                | Some v => negb (v =? 1)%Z
                | None => false
                end
  | None => false
  end.

(** * The merge on index rectangles

    A box of an accumulator is the rectangle between two grid lines of
    each axis.  [rect] names it by the indices of its lines: [i1], [i2] on
    the axis of the inner loop and [o1], [o2] on the axis of the outer
    loop.  The functions below are the merge loops with indices in place
    of coordinates and index equality in place of the tolerance test. *)

Record rect : Type := mkRect { i1 : Z; i2 : Z; o1 : Z; o2 : Z }.

Definition inR (r : rect) (i o : Z) : Prop :=
  (i1 r <= i < i2 r /\ o1 r <= o < o2 r)%Z.

Definition wfR (r : rect) : Prop := (i1 r < i2 r /\ o1 r < o2 r)%Z.

Definition matchI (r run : rect) : bool :=
  ((o2 r =? o1 run) && (i1 r =? i1 run) && (i2 r =? i2 run))%Z.

Definition extendI (r run : rect) : rect :=
  mkRect (Z.min (i1 r) (i2 run)) (Z.max (i2 r) (i2 run))
         (Z.min (o1 r) (o2 run)) (Z.max (o2 r) (o2 run)).

Fixpoint mergeI (rs : list rect) (run : rect) : list rect :=
  match rs with
  | [] => [run]
  | r :: t => if matchI r run then extendI r run :: t else r :: mergeI t run
  end.

Definition flushI (rs : list rect) (cur : option rect) : list rect :=
  match cur with
  | None => rs
  | Some c => mergeI rs c
  end.

Definition cellI (i o : Z) : rect := mkRect i (i + 1) o (o + 1).

Definition stepI (mk : Z -> Z -> bool) (st : list rect * option rect) (i o : Z)
  : list rect * option rect :=
  if mk i o
  then (fst st, Some (match snd st with
                      | Some c => extendI c (cellI i o)
                      | None => cellI i o
                      end))
  else (flushI (fst st) (snd st), None).

Fixpoint innerI (mk : Z -> Z -> bool) (n : nat) (st : list rect * option rect) (i o : Z)
  : list rect * option rect :=
  match n with
  | O => st
  | S n' => innerI mk n' (stepI mk st i o) (i + 1) o
  end.

Fixpoint outerI (mk : Z -> Z -> bool) (n w : nat) (rs : list rect) (o : Z) : list rect :=
  match n with
  | O => rs
  | S n' =>
      let st := innerI mk w (rs, None) 0 o in
      outerI mk n' w (flushI (fst st) (snd st)) (o + 1)
  end.

Definition apart (r1 r2 : rect) : Prop := forall i o, ~ (inR r1 i o /\ inR r2 i o).

Fixpoint pairwise {A : Type} (P : A -> A -> Prop) (l : list A) : Prop :=
  match l with
  | [] => True
  | a :: t => (forall b, In b t -> P a b) /\ pairwise P t
  end.

Definition cov (rs : list rect) (i o : Z) : Prop := exists r, In r rs /\ inR r i o.

(** The marked cells already handed to the accumulator when the scan is in
    outer position [o] and has flushed everything before inner position [f]. *)
Definition processed (mk : Z -> Z -> bool) (W : Z) (o f i j : Z) : Prop :=
  (0 <= i < W /\ 0 <= j /\ mk i j = true /\ (j < o \/ (j = o /\ i < f)))%Z.

Definition Inv (mk : Z -> Z -> bool) (W : Z) (rs : list rect) (o f : Z) : Prop :=
  Forall wfR rs /\ pairwise apart rs /\ forall i j, cov rs i j <-> processed mk W o f i j.

Definition CurOK (mk : Z -> Z -> bool) (cur : option rect) (x o : Z) : Prop :=
  match cur with
  | None => True
  | Some c =>
      c = mkRect (i1 c) x o (o + 1) /\ (0 <= i1 c < x)%Z
      /\ forall i, (i1 c <= i < x)%Z -> mk i o = true
  end.

Definition front (cur : option rect) (x : Z) : Z :=
  match cur with
  | Some c => i1 c
  | None => x
  end.

Definition J (mk : Z -> Z -> bool) (W : Z) (st : list rect * option rect) (x o : Z) : Prop :=
  Inv mk W (fst st) o (front (snd st) x) /\ CurOK mk (snd st) x o.

(** ** From index rectangles to bounds

    The first pass scans longitude in its inner loop, the second latitude. *)

Definition rowBox (ilo olo ihi ohi : R) : Bound := box ilo olo ihi ohi.
Definition colBox (ilo olo ihi ohi : R) : Bound := box olo ilo ohi ihi.

Definition rowXY (i o : Z) : cell := (i, o).
Definition colXY (i o : Z) : cell := (o, i).

Definition vb (il ol : list R) (mkB : R -> R -> R -> R -> Bound) (r : rect) : Bound :=
  mkB (line il (i1 r)) (line ol (o1 r)) (line il (i2 r)) (line ol (o2 r)).

Definition inRange (il ol : list R) (r : rect) : Prop :=
  inLine il (i1 r) /\ inLine il (i2 r) /\ inLine ol (o1 r) /\ inLine ol (o2 r).

Definition optRange (il ol : list R) (cur : option rect) : Prop :=
  match cur with
  | None => True
  | Some c => inRange il ol c
  end.

(** The state [r] with current box [cur] is the image of the index state [st]. *)
Definition related (il ol : list R) (mkB : R -> R -> R -> R -> Bound) (r0 : RouteBoxer)
  (setAcc : RouteBoxer -> list Bound -> RouteBoxer)
  (r : RouteBoxer) (cur : option Bound) (st : list rect * option rect) : Prop :=
  r = setAcc r0 (map (vb il ol mkB) (fst st))
  /\ cur = option_map (vb il ol mkB) (snd st)
  /\ Forall (inRange il ol) (fst st) /\ optRange il ol (snd st).

Definition rowRel (r0 : RouteBoxer) := related (lngGrid r0) (latGrid r0) rowBox r0 set_boxesY.
Definition colRel (r0 : RouteBoxer) := related (latGrid r0) (lngGrid r0) colBox r0 set_boxesX.
Definition rowMk (r0 : RouteBoxer) (i o : Z) : bool := marked r0 (rowXY i o).
Definition colMk (r0 : RouteBoxer) (i o : Z) : bool := marked r0 (colXY i o).

(** * Routes used as examples *)

(** The nine writes of [markCell] as a function of the grid alone. *)
Definition markGrid (g : list (list Z)) (c : cell) : outcome (list (list Z)) :=
  let x := fst c in
  let y := snd c in
  g <- setCell g (x - 1) (y - 1) ;;
  g <- setCell g x (y - 1) ;;
  g <- setCell g (x + 1) (y - 1) ;;
  g <- setCell g (x - 1) y ;;
  g <- setCell g x y ;;
  g <- setCell g (x + 1) y ;;
  g <- setCell g (x - 1) (y + 1) ;;
  g <- setCell g x (y + 1) ;;
  g <- setCell g (x + 1) (y + 1) ;;
  Ok g.

(** An L-shaped route: from the north-east corner west, then south. *)
Definition routeL (aW aE bS bN : R) : list Point :=
  [mkPoint aE bN; mkPoint aW bN; mkPoint aW bS].

Definition zeros5 : list (list Z) := repeat (repeat 0%Z 5) 5.

(** The cells marked by [routeL] on a grid of five lines per axis
    ([marksL] is indexed by column, then row). *)
Definition marksL : list (list Z) :=
  [ [1; 1; 1; 1; 0]; [1; 1; 1; 1; 0]; [1; 1; 1; 1; 0]; [0; 1; 1; 1; 0]; [0; 0; 0; 0; 0] ]%Z.

(** The state built for [routeL] around the centre [(cx, cy)], with line
    spacing [dx] in longitude and [dy] in latitude. *)
Definition gridStateL (cx cy dx dy e d : R) (g : list (list Z)) (bx by_ : list Bound)
  : RouteBoxer :=
  mkRouteBoxer d (routeL (cx - e) (cx + e) (cy - e) (cy + e))
    [cy - 2 * dy; cy - 1 * dy; cy; cy + 1 * dy; cy + 2 * dy]
    [cx - 2 * dx; cx - 1 * dx; cx; cx + 1 * dx; cx + 2 * dx]
    g bx by_.

Definition colBoxesL (cx cy dx dy : R) : list Bound :=
  [box (cx - 2 * dx) (cy - 2 * dy) (cx + 1 * dx) (cy + 2 * dy);
   box (cx + 1 * dx) (cy - 1 * dy) (cx + 2 * dx) (cy + 2 * dy)].

Definition rowBoxesL (cx cy dx dy : R) : list Bound :=
  [box (cx - 2 * dx) (cy - 2 * dy) (cx + 1 * dx) (cy - 1 * dy);
   box (cx - 2 * dx) (cy - 1 * dy) (cx + 2 * dx) (cy + 2 * dy)].

Definition allBoxL (cx cy dx dy : R) : Bound :=
  box (cx - 2 * dx) (cy - 2 * dy) (cx + 2 * dx) (cy + 2 * dy).




(** Cells of about 0.45 degree: distance 50000, route of half-width 0.1. *)
Definition routeWide : list Point :=
  routeL (10 - 1 / 10) (10 + 1 / 10) (0 - 1 / 10) (0 + 1 / 10).
Definition dyWide : R := rad2deg (50000 / EarthRadius).
Definition dxWide : R := rad2deg (50000 / EarthRadius / cos (deg2rad 0)).
Definition stateWide : RouteBoxer :=
  gridStateL 10 0 dxWide dyWide (1 / 10) 50000 marksL
    (colBoxesL 10 0 dxWide dyWide) (rowBoxesL 10 0 dxWide dyWide).


(** Cells of about 0.00045 degree: distance 50, route of half-width 0.0001. *)
Definition routeNarrow : list Point :=
  routeL (10 - 1 / 10000) (10 + 1 / 10000) (0 - 1 / 10000) (0 + 1 / 10000).
Definition dyNarrow : R := rad2deg (50 / EarthRadius).
Definition dxNarrow : R := rad2deg (50 / EarthRadius / cos (deg2rad 0)).
Definition stateNarrow : RouteBoxer :=
  gridStateL 10 0 dxNarrow dyNarrow (1 / 10000) 50 marksL
    [allBoxL 10 0 dxNarrow dyNarrow] [allBoxL 10 0 dxNarrow dyNarrow].



(** Grid spacing for distance 50 around the single point (10, 45) and
    around the origin. *)
Definition dyPoint : R := rad2deg (50 / EarthRadius).
Definition dxPoint : R := rad2deg (50 / EarthRadius / cos (deg2rad 45)).
Definition dEmpty : R := rad2deg (50 / EarthRadius).
Definition dxEmpty : R := rad2deg (50 / EarthRadius / cos (deg2rad 0)).

(** * Vocabulary of the further properties *)

(** ** Cells of the coverage grid *)

(** The value stored for the cell, when the cell is inside the grid. *)
Definition cellVal (g : list (list Z)) (x y : Z) : option Z :=
  match idx g x with
  | Some col => idx col y
  | None => None
  end.

Definition hasCell (g : list (list Z)) (c : cell) : bool :=
  match cellVal g (fst c) (snd c) with
  | Some _ => true
  | None => false
  end.

(** The cells written by [markCell], in the order of the writes. *)
Definition nine (c : cell) : list cell :=
  let x := fst c in
  let y := snd c in
  [ (x - 1, y - 1); (x, y - 1); (x + 1, y - 1);
    (x - 1, y); (x, y); (x + 1, y);
    (x - 1, y + 1); (x, y + 1); (x + 1, y + 1) ]%Z.

(** The cell and its eight neighbours are inside the grid. *)
Definition interior (g : list (list Z)) (c : cell) : bool := forallb (hasCell g) (nine c).

(** [c'] is [c] or one of its eight neighbours. *)
Definition neighbour (c c' : cell) : bool :=
  ((Z.abs (fst c' - fst c) <=? 1) && (Z.abs (snd c' - snd c) <=? 1))%Z.

(** [c'] is in row [y] between the columns [sx] and [ex], or next to such
    a cell. *)
Definition inBand (sx ex y : Z) (c' : cell) : bool :=
  ((Z.min sx ex - 1 <=? fst c') && (fst c' <=? Z.max sx ex + 1)
   && (Z.abs (snd c' - y) <=? 1))%Z.

(** The point lies in the closed cell [c] of the grid lines. *)
Definition inCell (r : RouteBoxer) (c : cell) (p : Point) : Prop :=
  exists w e s n,
    idx (lngGrid r) (fst c) = Some w /\ idx (lngGrid r) (fst c + 1) = Some e
    /\ idx (latGrid r) (snd c) = Some s /\ idx (latGrid r) (snd c + 1) = Some n
    /\ w <= Lng p <= e /\ s <= Lat p <= n.

(** The point lies in the closed rectangle [b]. *)
Definition contains (b : Bound) (p : Point) : Prop :=
  Lng (SouthWest b) <= Lng p <= Lng (NorthEast b)
  /\ Lat (SouthWest b) <= Lat p <= Lat (NorthEast b).

Fixpoint setCells (g : list (list Z)) (cs : list cell) : outcome (list (list Z)) :=
  match cs with
  | [] => Ok g
  | c :: rest => g' <- setCell g (fst c) (snd c) ;; setCells g' rest
  end.

(** A state with the given coverage grid and nothing else, and a state
    with grid lines at 0, 1, 2, 3, 4 on both axes. *)
Definition gridState (g : list (list Z)) : RouteBoxer := mkRouteBoxer 1 [] [] [] g [] [].

Definition fiveLines (vs : list Point) (g : list (list Z)) : RouteBoxer :=
  mkRouteBoxer 1 vs [0; 1; 2; 3; 4] [0; 1; 2; 3; 4] g [] [].

Definition rows123 : list (list Z) := repeat [0; 1; 1; 1; 0]%Z 5.

(** Every cell marked in [r] is marked in [r']. *)
Definition marksKept (r r' : RouteBoxer) : Prop :=
  forall c, marked r c = true -> marked r' c = true.

(** [n] lines spaced by [step], the first one at [c + lo * step]. *)
Definition linesFrom (c step : R) (lo : Z) (n : nat) : list R :=
  map (fun j => c + IZR (lo + Z.of_nat j) * step) (seq 0 n).

(** The state that [buildGrid] returns for the single point (10, 45) and
    distance 50. *)
Definition statePoint : RouteBoxer :=
  mkRouteBoxer 50 [mkPoint 10 45]
    [45 - 1 * dyPoint; 45; 45 + 1 * dyPoint] [10 - 1 * dxPoint; 10; 10 + 1 * dxPoint]
    (repeat (repeat 0%Z 3) 3) [] [].

(** [Bound.NorthWest] and [Bound.SouthEast] of go.geo. *)
Definition NorthWest (b : Bound) : Point := mkPoint (Lng (SouthWest b)) (Lat (NorthEast b)).
Definition SouthEast (b : Bound) : Point := mkPoint (Lng (NorthEast b)) (Lat (SouthWest b)).

(** ** ToGeoJson *)

Record GeoJsonResult : Type := mkGeoJsonResult {
  Type_ : string;
  Coordinates : list (list (list Point))
}.

(** The polygon of one box: a single ring through the corners north-west,
    north-east, south-east, south-west and north-west again. *)
Definition polygonOf (b : Bound) : list (list Point) :=
  [ [ mkPoint (Lng (NorthWest b)) (Lat (NorthWest b));
      mkPoint (Lng (NorthEast b)) (Lat (NorthEast b));
      mkPoint (Lng (SouthEast b)) (Lat (SouthEast b));
      mkPoint (Lng (SouthWest b)) (Lat (SouthWest b));
      mkPoint (Lng (NorthWest b)) (Lat (NorthWest b)) ] ].

Definition ToGeoJson (r : list Bound) : GeoJsonResult :=
  let polygons := fold_left (fun polygons b => polygons ++ [polygonOf b]) r [] in
  mkGeoJsonResult "MultiPolygon" polygons.

(** The south-west corner is south-west of the north-east corner. *)
Definition ordered (b : Bound) : Prop :=
  Lng (SouthWest b) <= Lng (NorthEast b) /\ Lat (SouthWest b) <= Lat (NorthEast b).

(** The bounding box of each polygon of a result. *)
Definition polygonBounds (g : GeoJsonResult) : list Bound :=
  map (fun polygon => PointSet_Bound (concat polygon)) (Coordinates g).

(** * Proofs *)

(** ** Slices *)

Lemma idx_Some_range {A : Type} (l : list A) (i : Z) (a : A) :
  idx l i = Some a -> (0 <= i < len l)%Z.
Proof.
  unfold idx, len. destruct (i <? 0)%Z eqn:E; [discriminate|].
  intros H. apply Z.ltb_ge in E.
  assert (Z.to_nat i < length l)%nat by (apply nth_error_Some; congruence). lia.
Qed.

Lemma idx_in_range {A : Type} (l : list A) (i : Z) :
  (0 <= i < len l)%Z -> exists a, idx l i = Some a.
Proof.
  unfold idx, len. intros H. destruct (i <? 0)%Z eqn:E; [apply Z.ltb_lt in E; lia|].
  destruct (nth_error l (Z.to_nat i)) eqn:N; [eauto|].
  apply nth_error_None in N. lia.
Qed.

Lemma at_Some {A : Type} (l : list A) (i : Z) (a : A) : idx l i = Some a -> at_ l i = Ok a.
Proof. unfold at_. now intros ->. Qed.

Lemma at_Ok {A : Type} (l : list A) (i : Z) (a : A) : at_ l i = Ok a -> idx l i = Some a.
Proof. unfold at_. destruct (idx l i); [intros [= ->]; reflexivity | discriminate]. Qed.

Lemma idx_cons_0 {A : Type} (h : A) (t : list A) : idx (h :: t) 0 = Some h.
Proof. reflexivity. Qed.

Lemma idx_cons_pos {A : Type} (h : A) (t : list A) (i : Z) :
  (0 < i)%Z -> idx (h :: t) i = idx t (i - 1).
Proof.
  intros H. unfold idx.
  destruct (i <? 0)%Z eqn:E1; [apply Z.ltb_lt in E1; lia|].
  destruct (i - 1 <? 0)%Z eqn:E2; [apply Z.ltb_lt in E2; lia|].
  replace (Z.to_nat i) with (S (Z.to_nat (i - 1))) by lia. reflexivity.
Qed.

Lemma idx_map {A B : Type} (f : A -> B) (l : list A) (i : Z) :
  idx (map f l) i = option_map f (idx l i).
Proof.
  unfold idx. destruct (i <? 0)%Z; [reflexivity|]. apply nth_error_map.
Qed.

Lemma idx_In {A : Type} (l : list A) (i : Z) (a : A) : idx l i = Some a -> In a l.
Proof. unfold idx. destruct (i <? 0)%Z; [discriminate|]. apply nth_error_In. Qed.

Lemma In_idx {A : Type} (l : list A) (a : A) : In a l -> exists i, idx l i = Some a.
Proof.
  intros H. apply In_nth_error in H. destruct H as [n Hn].
  exists (Z.of_nat n). unfold idx.
  destruct (Z.of_nat n <? 0)%Z eqn:E; [apply Z.ltb_lt in E; lia|].
  now rewrite Nat2Z.id.
Qed.

Lemma length_upd_nat {A : Type} (l : list A) (n : nat) (a : A) :
  length (upd_nat l n a) = length l.
Proof.
  revert n. induction l as [|h t IH]; intros [|n]; cbn; auto.
Qed.

Lemma map_upd_nat {A B : Type} (f : A -> B) (l : list A) (n : nat) (a a0 : A) :
  nth_error l n = Some a0 -> f a = f a0 -> map f (upd_nat l n a) = map f l.
Proof.
  revert n. induction l as [|h t IH]; intros [|n]; cbn; try discriminate.
  - intros [= ->] E. now rewrite E.
  - intros H E. now rewrite (IH n H E).
Qed.

(** ** Real-number facts *)

Lemma PI_gt_3 : 3 < PI.
Proof. pose proof PI2_3_2. lra. Qed.

Lemma tiny_pos : 0 < 1 / 10 ^ 10.
Proof. apply Rdiv_lt_0_compat; [lra | apply pow_lt; lra]. Qed.

Lemma Rabs_le_bounds (a b : R) : Rabs a <= b -> - b <= a <= b.
Proof. unfold Rabs. destruct (Rcase_abs a); lra. Qed.

Lemma Rlt_dec_T {A : Type} (a b : R) (x y : A) : a < b -> (if Rlt_dec a b then x else y) = x.
Proof. intros H. destruct (Rlt_dec a b); [reflexivity | contradiction]. Qed.

Lemma Rlt_dec_F {A : Type} (a b : R) (x y : A) : ~ a < b -> (if Rlt_dec a b then x else y) = y.
Proof. intros H. destruct (Rlt_dec a b); [contradiction | reflexivity]. Qed.

Lemma near_T (a b : R) : Rabs (a - b) < 1 / 1000 -> near a b = true.
Proof. intros H. unfold near, Rltb. now rewrite Rlt_dec_T. Qed.

Lemma near_F (a b : R) : 1 / 1000 <= Rabs (a - b) -> near a b = false.
Proof. intros H. unfold near, Rltb. rewrite Rlt_dec_F; [reflexivity | lra]. Qed.

Lemma rad2deg_deg2rad (x : R) : rad2deg (deg2rad x) = x.
Proof. unfold rad2deg, deg2rad. pose proof PI_gt_3. field. lra. Qed.

Lemma rad2deg_plus (a b : R) : rad2deg (a + b) = rad2deg a + rad2deg b.
Proof. unfold rad2deg. pose proof PI_gt_3. field. lra. Qed.

Lemma rad2deg_opp (a : R) : rad2deg (- a) = - rad2deg a.
Proof. unfold rad2deg. pose proof PI_gt_3. field. lra. Qed.

Lemma rad2deg_scale (k x : R) : rad2deg (k * x) = k * rad2deg x.
Proof. unfold rad2deg. pose proof PI_gt_3. field. lra. Qed.

Lemma rad2deg_bounds (x : R) : 0 <= x -> 45 * x <= rad2deg x <= 60 * x.
Proof.
  intros Hx. pose proof PI_gt_3. pose proof PI_4.
  assert (E : rad2deg x * PI = 180 * x) by (unfold rad2deg; field; lra).
  split; (apply Rmult_le_reg_r with PI; [lra|]); rewrite E; nra.
Qed.

Lemma deg2rad_0 : deg2rad 0 = 0.
Proof. unfold deg2rad. field. Qed.

Lemma deg2rad_180 : deg2rad 180 = PI.
Proof. unfold deg2rad. field. Qed.

Lemma deg2rad_90 : deg2rad 90 = PI / 2.
Proof. unfold deg2rad. field. Qed.

Lemma deg2rad_270 : deg2rad 270 = 3 * (PI / 2).
Proof. unfold deg2rad. field. Qed.

Lemma cos_deg_0 : cos (deg2rad 0) = 1.
Proof. rewrite deg2rad_0. apply cos_0. Qed.

Lemma cos_deg_45 : 1 / 2 <= cos (deg2rad 45).
Proof.
  replace (deg2rad 45) with (PI / 4) by (unfold deg2rad; field).
  rewrite cos_PI4.
  assert (H : 0 < sqrt 2) by (apply sqrt_lt_R0; lra).
  assert (S : sqrt 2 * sqrt 2 = 2) by (apply sqrt_sqrt; lra).
  apply Rmult_le_reg_r with (sqrt 2); [assumption|].
  replace (1 / sqrt 2 * sqrt 2) with 1 by (field; lra). nra.
Qed.

Lemma ln_self_ratio (t : R) : ln (t / t) = 0.
Proof.
  destruct (Req_dec_T t 0) as [->|H].
  - unfold Rdiv. rewrite Rmult_0_l. unfold ln.
    destruct (Rlt_dec 0 0) as [r|_]; [exfalso; lra | reflexivity].
  - replace (t / t) with 1 by (field; assumption). apply ln_1.
Qed.

(** ** math.Remainder *)

Lemma nearestInt_eq (q : R) (n : Z) :
  Rabs (q - IZR n) < 1 / 2 -> nearestInt q = n.
Proof.
  intros H. apply Rabs_def2 in H. destruct H as [H1 H2].
  unfold nearestInt.
  destruct (base_Int_part q) as [F1 F2].
  set (f := Int_part q) in *.
  assert (Hf : (f = n \/ f = n - 1)%Z).
  { assert (IZR f < IZR (n + 1)) by (rewrite plus_IZR; simpl; lra).
    assert (IZR (n - 2) < IZR f) by (rewrite minus_IZR; simpl; lra).
    apply lt_IZR in H, H0. lia. }
  destruct Hf as [-> | ->].
  - destruct (Rlt_dec (q - IZR n) (1 / 2)); [reflexivity | lra].
  - rewrite minus_IZR in *. simpl in *.
    destruct (Rlt_dec (q - (IZR n - 1)) (1 / 2)); [lra|].
    destruct (Rlt_dec (1 / 2) (q - (IZR n - 1))); [f_equal; lia | lra].
Qed.

Lemma nearestInt_close (q : R) : Rabs (q - IZR (nearestInt q)) <= 1 / 2.
Proof.
  unfold nearestInt. destruct (base_Int_part q) as [F1 F2].
  set (f := Int_part q) in *.
  destruct (Rlt_dec (q - IZR f) (1 / 2)).
  - apply Rabs_le. lra.
  - destruct (Rlt_dec (1 / 2) (q - IZR f)).
    + rewrite plus_IZR. apply Rabs_le. simpl. lra.
    + destruct (Z.even f); [|rewrite plus_IZR; simpl]; apply Rabs_le; lra.
Qed.

Lemma Remainder_eq (x y : R) (n : Z) :
  0 < y -> Rabs (x - IZR n * y) < y / 2 -> Remainder x y = x - IZR n * y.
Proof.
  intros Hy H. unfold Remainder.
  rewrite (nearestInt_eq (x / y) n); [reflexivity|].
  apply Rabs_def2 in H. destruct H as [H1 H2].
  apply Rabs_def1.
  - apply Rmult_lt_reg_r with y; [lra|]. field_simplify; lra.
  - apply Rmult_lt_reg_r with y; [lra|]. field_simplify; lra.
Qed.

Lemma Remainder_range (x y : R) : 0 < y -> Rabs (Remainder x y) <= y / 2.
Proof.
  intros Hy. unfold Remainder.
  pose proof (nearestInt_close (x / y)) as H.
  set (n := IZR (nearestInt (x / y))) in *.
  replace (x - n * y) with ((x / y - n) * y) by (field; lra).
  rewrite Rabs_mult, (Rabs_right y) by lra.
  apply Rle_trans with (1 / 2 * y); [|lra].
  apply Rmult_le_compat_r; lra.
Qed.

(** ** RhumbDestinationPoint *)

(** The latitude reached when the latitude step is not snapped to zero and
    no pole is crossed. *)
Lemma RDP_lat (c : Point) (brng x : R) :
  let dl := x / EarthRadius * cos (deg2rad brng) in
  1 / 10 ^ 10 <= Rabs dl ->
  Rabs (deg2rad (Lat c) + dl) <= PI / 2 ->
  Lat (RhumbDestinationPoint c brng x) = Lat c + rad2deg dl.
Proof.
  intros dl H1 H2. unfold RhumbDestinationPoint, NewPointFromLatLng. cbn [Lat].
  fold dl.
  destruct (Rlt_dec (Rabs dl) (1 / 10 ^ 10)) as [H|H]; [lra|].
  destruct (Rlt_dec (PI / 2) (Rabs (deg2rad (Lat c) + dl))) as [H'|H']; [lra|].
  rewrite rad2deg_plus, rad2deg_deg2rad. reflexivity.
Qed.

Lemma RDP_north (c : Point) (x : R) :
  1 / 10 ^ 10 <= x / EarthRadius ->
  Rabs (deg2rad (Lat c) + x / EarthRadius) <= PI / 2 ->
  Lat (RhumbDestinationPoint c 0 x) = Lat c + rad2deg (x / EarthRadius).
Proof.
  intros H1 H2. pose proof tiny_pos.
  rewrite RDP_lat; rewrite deg2rad_0, cos_0, Rmult_1_r; auto.
  rewrite Rabs_right; lra.
Qed.

Lemma RDP_south (c : Point) (x : R) :
  1 / 10 ^ 10 <= x / EarthRadius ->
  Rabs (deg2rad (Lat c) - x / EarthRadius) <= PI / 2 ->
  Lat (RhumbDestinationPoint c 180 x) = Lat c - rad2deg (x / EarthRadius).
Proof.
  intros H1 H2. pose proof tiny_pos.
  rewrite RDP_lat; rewrite deg2rad_180, cos_PI.
  - replace (x / EarthRadius * -1) with (- (x / EarthRadius)) by ring.
    rewrite rad2deg_opp. ring.
  - replace (x / EarthRadius * -1) with (- (x / EarthRadius)) by ring.
    rewrite Rabs_Ropp, Rabs_right; lra.
  - replace (deg2rad (Lat c) + x / EarthRadius * -1)
      with (deg2rad (Lat c) - x / EarthRadius) by ring.
    exact H2.
Qed.

(** The longitude reached along a parallel, away from the wrap at 90 degrees. *)
Lemma RDP_parallel (c : Point) (brng x : R) :
  cos (deg2rad brng) = 0 ->
  let dLon := x / EarthRadius * sin (deg2rad brng) / cos (deg2rad (Lat c)) in
  Rabs (deg2rad (Lng c) + dLon) < PI / 2 ->
  Lng (RhumbDestinationPoint c brng x) = Lng c + rad2deg dLon.
Proof.
  intros Hc dLon H. pose proof tiny_pos. pose proof PI_gt_3.
  unfold RhumbDestinationPoint, NewPointFromLatLng. cbn [Lng].
  rewrite Hc, Rmult_0_r.
  destruct (Rlt_dec (Rabs 0) (1 / 10 ^ 10)) as [_|H']; [|rewrite Rabs_R0 in H'; lra].
  rewrite Rplus_0_r, ln_self_ratio.
  destruct (Req_dec_T 0 0) as [_|H']; [|congruence].
  fold dLon.
  rewrite (Remainder_eq _ _ 3).
  - replace (deg2rad (Lng c) + dLon + 3 * PI - 3 * (2 * PI - PI))
      with (deg2rad (Lng c) + dLon) by ring.
    rewrite rad2deg_plus, rad2deg_deg2rad. reflexivity.
  - lra.
  - replace (deg2rad (Lng c) + dLon + 3 * PI - 3 * (2 * PI - PI))
      with (deg2rad (Lng c) + dLon) by ring.
    replace ((2 * PI - PI) / 2) with (PI / 2) by field. exact H.
Qed.

Lemma RDP_east (c : Point) (x : R) :
  let dLon := x / EarthRadius / cos (deg2rad (Lat c)) in
  Rabs (deg2rad (Lng c) + dLon) < PI / 2 ->
  Lng (RhumbDestinationPoint c 90 x) = Lng c + rad2deg dLon.
Proof.
  intros dLon H.
  rewrite RDP_parallel; rewrite deg2rad_90; rewrite ?cos_PI2, ?sin_PI2, ?Rmult_1_r; auto.
Qed.

Lemma RDP_west (c : Point) (x : R) :
  let dLon := x / EarthRadius / cos (deg2rad (Lat c)) in
  Rabs (deg2rad (Lng c) - dLon) < PI / 2 ->
  Lng (RhumbDestinationPoint c 270 x) = Lng c - rad2deg dLon.
Proof.
  intros dLon H.
  assert (E : x / EarthRadius * -1 / cos (deg2rad (Lat c)) = - dLon)
    by (unfold dLon, Rdiv; ring).
  rewrite RDP_parallel; rewrite deg2rad_270; rewrite ?cos_3PI2, ?sin_3PI2; auto.
  - rewrite E, rad2deg_opp. ring.
  - rewrite E. exact H.
Qed.


(** Whatever the inputs, the returned longitude lies within 90 degrees of
    the meridian 0: the remainder is taken modulo [2*PI - PI]. *)
Lemma RhumbDestinationPoint_lng_range (c : Point) (brng x : R) :
  -90 <= Lng (RhumbDestinationPoint c brng x) <= 90.
Proof.
  unfold RhumbDestinationPoint, NewPointFromLatLng. cbn [Lng].
  pose proof PI_gt_3.
  match goal with |- context [Remainder ?a ?b] =>
    pose proof (Remainder_range a b ltac:(lra)) as Hr; set (m := Remainder a b) in * end.
  apply Rabs_le_bounds in Hr.
  unfold rad2deg. split.
  - apply Rmult_le_reg_r with PI; [lra|]. field_simplify; lra.
  - apply Rmult_le_reg_r with PI; [lra|]. field_simplify; lra.
Qed.

(** C5: from longitude 100 with distance 0 the function returns
    longitude -80.  The result is not the same angle as 100 modulo 360, so
    the longitude was not normalised into (-180, 180] but wrapped modulo
    180 degrees. *)
Theorem RhumbDestinationPoint_lng_wraps :
  Lng (RhumbDestinationPoint (mkPoint 100 0) 0 0) = -80
  /\ ~ (exists k : Z, Lng (RhumbDestinationPoint (mkPoint 100 0) 0 0) = 100 + 360 * IZR k).
Proof.
  assert (E : Lng (RhumbDestinationPoint (mkPoint 100 0) 0 0) = -80).
  { pose proof PI_gt_3. pose proof tiny_pos.
    unfold RhumbDestinationPoint, NewPointFromLatLng. cbn [Lng Lat].
    replace (0 / EarthRadius) with 0 by (unfold Rdiv; ring).
    rewrite !Rmult_0_l.
    destruct (Rlt_dec (Rabs 0) (1 / 10 ^ 10)) as [_|H']; [|rewrite Rabs_R0 in H'; lra].
    rewrite Rplus_0_r, ln_self_ratio.
    destruct (Req_dec_T 0 0) as [_|H']; [|congruence].
    replace (0 / cos (deg2rad 0)) with 0 by (unfold Rdiv; ring).
    rewrite (Remainder_eq _ _ 4).
    - unfold rad2deg, deg2rad. field. lra.
    - lra.
    - unfold deg2rad. apply Rabs_def1; lra. }
  split; [exact E|].
  rewrite E. intros [k Hk].
  assert (H1 : IZR (-1) < IZR k) by (simpl; lra).
  assert (H2 : IZR k < IZR 0) by (simpl; lra).
  apply lt_IZR in H1, H2. lia.
Qed.

(** C6: the distance handed to [RhumbDestinationPoint] is
    computed with [EarthRadius / 1000] while the callee divides by
    [EarthRadius]; the crossing point therefore moves only a thousandth of
    the way from the start latitude to the grid line. *)
Theorem getGridIntersect_lat (start : Point) (brng gridLineLat : R) :
  cos (deg2rad brng) <> 0 ->
  1 / 10 ^ 10 <= Rabs (deg2rad (gridLineLat - Lat start) / 1000) ->
  Rabs (deg2rad (Lat start) + deg2rad (gridLineLat - Lat start) / 1000) <= PI / 2 ->
  Lat (getGridIntersect start brng gridLineLat)
  = Lat start + (gridLineLat - Lat start) / 1000.
Proof.
  intros Hc H1 H2. unfold getGridIntersect.
  assert (E : EarthRadius / 1000
       * ((deg2rad gridLineLat - deg2rad (Lat start)) / cos (deg2rad brng)) /
       EarthRadius * cos (deg2rad brng) = deg2rad (gridLineLat - Lat start) / 1000).
  { unfold deg2rad, EarthRadius. field. exact Hc. }
  rewrite RDP_lat; rewrite E; auto.
  unfold rad2deg, deg2rad. pose proof PI_gt_3. field. lra.
Qed.

Lemma tiny_le : 1 / 10 ^ 10 <= 1 / 100000.
Proof. simpl. lra. Qed.

Lemma getGridIntersect_lat_witness :
  Lat (getGridIntersect (mkPoint 0 0) 0 1) = 0 + (1 - 0) / 1000.
Proof.
  pose proof PI_gt_3. pose proof PI_4. pose proof tiny_le.
  apply (getGridIntersect_lat (mkPoint 0 0) 0 1); cbn [Lat].
  - rewrite deg2rad_0, cos_0. lra.
  - unfold deg2rad. rewrite Rabs_right; lra.
  - unfold deg2rad. apply Rabs_le. lra.
Defined.

(** ** Grid lines *)

Lemma idx_line (g : list R) (i : Z) (a : R) : idx g i = Some a -> line g i = a.
Proof.
  unfold idx, line. destruct (i <? 0)%Z; [discriminate|].
  intros H. now apply nth_error_nth.
Qed.

Lemma line_idx (g : list R) (i : Z) : inLine g i -> idx g i = Some (line g i).
Proof.
  intros H. destruct (idx_in_range g i H) as [a Ha]. now rewrite (idx_line _ _ _ Ha).
Qed.

Lemma gapped_lt (g : list R) (i j : Z) :
  gapped g -> (0 <= i)%Z -> (i < j)%Z -> (j < len g)%Z ->
  line g i + 1 / 1000 <= line g j.
Proof.
  intros G Hi Hij Hj.
  assert (H : forall n : nat, (i + 1 + Z.of_nat n < len g)%Z ->
                              line g i + 1 / 1000 <= line g (i + 1 + Z.of_nat n)).
  { induction n as [|n IH]; intros Hn.
    - replace (i + 1 + Z.of_nat 0)%Z with (i + 1)%Z by lia.
      apply (G i); apply line_idx; unfold inLine; lia.
    - assert (Hs : line g (i + 1 + Z.of_nat n) + 1 / 1000 <= line g (i + 1 + Z.of_nat n + 1)).
      { apply (G (i + 1 + Z.of_nat n)%Z); apply line_idx; unfold inLine; lia. }
      replace (i + 1 + Z.of_nat (S n))%Z with (i + 1 + Z.of_nat n + 1)%Z by lia.
      specialize (IH ltac:(lia)). lra. }
  specialize (H (Z.to_nat (j - i - 1))).
  replace (i + 1 + Z.of_nat (Z.to_nat (j - i - 1)))%Z with j in H by lia.
  apply H. lia.
Qed.


Lemma gappedList_gapped (g : list R) : gappedList g -> gapped g.
Proof.
  induction g as [|a t IH]; intros H i x y Hx Hy.
  - apply idx_Some_range in Hx. unfold len in Hx. cbn in Hx. lia.
  - pose proof (idx_Some_range _ _ _ Hx) as Rx.
    destruct t as [|b t']; [apply idx_Some_range in Hy; unfold len in *; cbn in *; lia|].
    destruct H as [Hab Ht].
    destruct (Z.eq_dec i 0) as [->|Hne].
    + rewrite idx_cons_0 in Hx. rewrite idx_cons_pos in Hy by lia. cbn in Hy.
      injection Hx as <-. injection Hy as <-. exact Hab.
    + rewrite idx_cons_pos in Hx, Hy by lia.
      apply (IH Ht (i - 1)%Z); [exact Hx|].
      now replace (i - 1 + 1)%Z with (i + 1 - 1)%Z by lia.
Qed.

Section Lines.
Variable g : list R.
Hypothesis g_gapped : gapped g.

Lemma line_lt (i j : Z) : inLine g i -> inLine g j -> (i < j)%Z -> line g i < line g j.
Proof.
  unfold inLine. intros Hi Hj Hij.
  pose proof (gapped_lt g i j g_gapped ltac:(lia) Hij ltac:(lia)). lra.
Qed.

Lemma line_le_iff (i j : Z) :
  inLine g i -> inLine g j -> (line g i <= line g j <-> (i <= j)%Z).
Proof.
  intros Hi Hj. split.
  - intros H. destruct (Z_le_gt_dec i j) as [|Hgt]; [assumption|].
    pose proof (line_lt j i Hj Hi ltac:(lia)). lra.
  - intros H. destruct (Z.eq_dec i j) as [->|]; [lra|].
    pose proof (line_lt i j Hi Hj ltac:(lia)). lra.
Qed.

Lemma line_lt_iff (i j : Z) :
  inLine g i -> inLine g j -> (line g i < line g j <-> (i < j)%Z).
Proof.
  intros Hi Hj. split.
  - intros H. destruct (Z_lt_ge_dec i j) as [|Hge]; [assumption|].
    assert (line g j <= line g i) by (apply line_le_iff; auto; lia). lra.
  - now apply line_lt.
Qed.

(** On gapped lines the tolerance test is index equality. *)
Lemma near_line (i j : Z) :
  inLine g i -> inLine g j -> near (line g i) (line g j) = (i =? j)%Z.
Proof.
  unfold inLine. intros Hi Hj. destruct (Z.eqb_spec i j) as [->|Hne].
  - apply near_T. replace (line g j - line g j) with 0 by ring. rewrite Rabs_R0. lra.
  - apply near_F. destruct (Z_lt_ge_dec i j).
    + pose proof (gapped_lt g i j g_gapped ltac:(lia) ltac:(lia) ltac:(lia)).
      rewrite Rabs_left; lra.
    + pose proof (gapped_lt g j i g_gapped ltac:(lia) ltac:(lia) ltac:(lia)).
      rewrite Rabs_right; lra.
Qed.

Lemma Rmin_line (i j : Z) :
  inLine g i -> inLine g j -> Rmin (line g i) (line g j) = line g (Z.min i j).
Proof.
  intros Hi Hj. destruct (Z_le_gt_dec i j).
  - rewrite Z.min_l by lia. apply Rmin_left. apply line_le_iff; auto.
  - rewrite Z.min_r by lia. apply Rmin_right. apply line_le_iff; auto. lia.
Qed.

Lemma Rmax_line (i j : Z) :
  inLine g i -> inLine g j -> Rmax (line g i) (line g j) = line g (Z.max i j).
Proof.
  intros Hi Hj. destruct (Z_le_gt_dec i j).
  - rewrite Z.max_r by lia. apply Rmax_right. apply line_le_iff; auto.
  - rewrite Z.max_l by lia. apply Rmax_left. apply line_le_iff; auto. lia.
Qed.
End Lines.

(** ** Locating a vertex that lies on a grid line *)

Section Scans.
Variable g : list R.
Variable k : Z.
Variable v : R.
Hypothesis g_incr : increasing g.
Hypothesis g_k : idx g k = Some v.



End Scans.






(** ** Running the code on given routes *)

Ltac rabs := unfold Rabs; destruct (Rcase_abs _); lra.

(** Decide one real comparison of the goal from the hypotheses. *)
Ltac rstep :=
  match goal with
  | |- context [Rlt_dec ?a ?b] =>
      first [ rewrite (Rlt_dec_T a b) by lra | rewrite (Rlt_dec_F a b) by lra ]
  | |- context [near ?a ?b] =>
      first [ rewrite (near_T a b) by rabs | rewrite (near_F a b) by rabs ]
  | |- context [Rmin ?a ?b] =>
      first [ rewrite (Rmin_left a b) by lra | rewrite (Rmin_right a b) by lra ]
  | |- context [Rmax ?a ?b] =>
      first [ rewrite (Rmax_left a b) by lra | rewrite (Rmax_right a b) by lra ]
  end.

(** Evaluate one integer operation on closed arguments. *)
Ltac zstep :=
  match goal with
  | |- context [Z.add ?a ?b] =>
      let v := eval vm_compute in (Z.add a b) in progress change (Z.add a b) with v
  | |- context [Z.sub ?a ?b] =>
      let v := eval vm_compute in (Z.sub a b) in progress change (Z.sub a b) with v
  | |- context [Z.eqb ?a ?b] =>
      let v := eval vm_compute in (Z.eqb a b) in progress change (Z.eqb a b) with v
  | |- context [Z.ltb ?a ?b] =>
      let v := eval vm_compute in (Z.ltb a b) in progress change (Z.ltb a b) with v
  | |- context [Z.leb ?a ?b] =>
      let v := eval vm_compute in (Z.leb a b) in progress change (Z.leb a b) with v
  | |- context [Z.to_nat ?a] =>
      let v := eval vm_compute in (Z.to_nat a) in progress change (Z.to_nat a) with v
  end.

(** Evaluate a slice access, a bind or a projection. *)
Ltac estep :=
  match goal with
  | |- context [at_ ?l ?i] =>
      let v := eval vm_compute in (at_ l i) in change (at_ l i) with v
  | |- _ => progress cbn [bind fst snd Lng Lat andb orb grid latGrid lngGrid vertices
                          boxesX boxesY NorthEast SouthWest length scanFirst scanUp scanDown]
  | |- _ => zstep
  end.

Lemma markCell_markGrid (r : RouteBoxer) (c : cell) :
  markCell r c = (g <- markGrid (grid r) c ;; Ok (set_grid r g)).
Proof.
  unfold markCell, markGrid.
  repeat (match goal with |- context [setCell ?g ?x ?y] =>
            destruct (setCell g x y); cbn [bind]; try reflexivity end).
Qed.

(** Evaluate one call of [markCell] on a closed grid. *)
Ltac mstep :=
  match goal with
  | |- context [markCell ?r ?c] =>
      rewrite (markCell_markGrid r c); cbn [grid];
      match goal with |- context [markGrid ?g c] =>
        let v := eval vm_compute in (markGrid g c) in change (markGrid g c) with v end;
      cbn [bind]; unfold set_grid;
      cbn [distanceRange vertices latGrid lngGrid grid boxesX boxesY]
  end.

Lemma Extend_grow (w s e n px py : R) :
  w <= px -> s <= py -> e <= px -> n <= py ->
  Extend (mkBound (mkPoint w s) (mkPoint e n)) (mkPoint px py)
  = mkBound (mkPoint w s) (mkPoint px py).
Proof.
  intros. unfold Extend. cbn [SouthWest NorthEast Lng Lat].
  now rewrite !Rmin_left, !Rmax_right by assumption.
Qed.

(** Unfold one step of a loop body. *)
Ltac bstep :=
  first
    [ progress cbn [mergeInto]
    | match goal with
      | |- context [Extend (mkBound (mkPoint ?w ?s) (mkPoint ?e ?n)) (mkPoint ?px ?py)] =>
          rewrite (Extend_grow w s e n px py) by lra
      end
    | progress unfold cellStep, getCellBounds, NewBoundFromPoints, NewPointFromLatLng,
               matchX, matchY, mergeBoxesX, mergeBoxesY, set_boxesX, set_boxesY
    | progress cbv beta iota
    | progress unfold Extend ].

Ltac run := repeat (first [ mstep | estep | rstep | bstep ]).

(** The merge loops are run one cell at a time, so that the goal holds a
    single state. *)
Lemma rowInner_step (n : nat) (r : RouteBoxer) (cur : option Bound) (x y : Z)
  (p : RouteBoxer * option Bound) :
  cellStep mergeBoxesY r cur x y = Ok p ->
  rowInner (S n) r cur x y = rowInner n (fst p) (snd p) (x + 1) y.
Proof. intros H. cbn [rowInner]. rewrite H. reflexivity. Qed.

Lemma colInner_step (n : nat) (r : RouteBoxer) (cur : option Bound) (x y : Z)
  (p : RouteBoxer * option Bound) :
  cellStep mergeBoxesX r cur x y = Ok p ->
  colInner (S n) r cur x y = colInner n (fst p) (snd p) x (y + 1).
Proof. intros H. cbn [colInner]. rewrite H. reflexivity. Qed.

Lemma cellStep_blank (merge : RouteBoxer -> option Bound -> RouteBoxer) (r : RouteBoxer)
  (x y : Z) :
  merge r None = r -> blank (grid r) x y = true -> cellStep merge r None x y = Ok (r, None).
Proof.
  intros Hm Hb. unfold cellStep, blank in *. unfold at_.
  destruct (idx (grid r) x) as [col|]; [|discriminate]. cbn [bind].
  destruct (idx col y) as [v|]; [|discriminate]. cbn [bind].
  destruct (v =? 1)%Z; [discriminate|]. now rewrite Hm.
Qed.

Lemma rowInner_blank (n : nat) (r : RouteBoxer) (x y : Z) :
  blank (grid r) x y = true -> rowInner (S n) r None x y = rowInner n r None (x + 1) y.
Proof.
  intros Hb. cbn [rowInner]. now rewrite (cellStep_blank mergeBoxesY r x y eq_refl Hb).
Qed.

Lemma colInner_blank (n : nat) (r : RouteBoxer) (x y : Z) :
  blank (grid r) x y = true -> colInner (S n) r None x y = colInner n r None x (y + 1).
Proof.
  intros Hb. cbn [colInner]. now rewrite (cellStep_blank mergeBoxesX r x y eq_refl Hb).
Qed.

(** One iteration of a merge loop. *)
Ltac lstep :=
  match goal with
  | |- context [rowInner (S ?n) ?r None ?x ?y] =>
      rewrite (rowInner_blank n r x y) by (cbn [grid]; vm_compute; reflexivity)
  | |- context [colInner (S ?n) ?r None ?x ?y] =>
      rewrite (colInner_blank n r x y) by (cbn [grid]; vm_compute; reflexivity)
  | |- context [rowInner (S ?n) ?r ?cur ?x ?y] =>
      let H := fresh "H" in
      eassert (H : cellStep mergeBoxesY r cur x y = Ok _) by (run; reflexivity);
      rewrite (rowInner_step n r cur x y _ H); clear H
  | |- context [colInner (S ?n) ?r ?cur ?x ?y] =>
      let H := fresh "H" in
      eassert (H : cellStep mergeBoxesX r cur x y = Ok _) by (run; reflexivity);
      rewrite (colInner_step n r cur x y _ H); clear H
  | |- context [rowInner O ?r ?cur ?x ?y] =>
      change (rowInner O r cur x y) with (Ok (r, cur))
  | |- context [colInner O ?r ?cur ?x ?y] =>
      change (colInner O r cur x y) with (Ok (r, cur))
  | |- context [rowOuter (S ?n) ?r ?y] =>
      change (rowOuter (S n) r y)
        with (st <- rowInner (length (grid r)) r None 0 y ;;
              rowOuter n (mergeBoxesY (fst st) (snd st)) (y + 1))
  | |- context [colOuter (S ?n) ?h ?r ?x] =>
      change (colOuter (S n) h r x)
        with (st <- colInner h r None x 0 ;;
              colOuter n h (mergeBoxesX (fst st) (snd st)) (x + 1))
  | |- context [rowOuter O ?r ?y] => change (rowOuter O r y) with (Ok r)
  | |- context [colOuter O ?h ?r ?x] => change (colOuter O h r x) with (Ok r)
  end.

Ltac runMerge := repeat (first [ lstep | estep | rstep | bstep ]).

Lemma growAppend_step (fuel : nat) (ln : Z -> R) (edge : R) (i : Z) (g : list R) (v : R) :
  idx g (i - 2) = Some v -> v < edge ->
  growAppend (S fuel) ln edge i g = growAppend fuel ln edge (i + 1) (g ++ [ln i]).
Proof.
  intros H1 H2. cbn [growAppend]. rewrite (at_Some _ _ _ H1). cbn [bind].
  now rewrite Rlt_dec_T.
Qed.

Lemma growAppend_stop (fuel : nat) (ln : Z -> R) (edge : R) (i : Z) (g : list R) (v : R) :
  idx g (i - 2) = Some v -> ~ v < edge ->
  growAppend (S fuel) ln edge i g = Ok g.
Proof.
  intros H1 H2. cbn [growAppend]. rewrite (at_Some _ _ _ H1). cbn [bind].
  now rewrite Rlt_dec_F.
Qed.

Lemma growPrepend_step (fuel : nat) (ln : Z -> R) (edge : R) (i : Z) (g : list R) (v : R) :
  idx g 1 = Some v -> edge < v ->
  growPrepend (S fuel) ln edge i g = growPrepend fuel ln edge (i + 1) (ln i :: g).
Proof.
  intros H1 H2. cbn [growPrepend]. rewrite (at_Some _ _ _ H1). cbn [bind].
  now rewrite Rlt_dec_T.
Qed.

Lemma growPrepend_stop (fuel : nat) (ln : Z -> R) (edge : R) (i : Z) (g : list R) (v : R) :
  idx g 1 = Some v -> ~ edge < v ->
  growPrepend (S fuel) ln edge i g = Ok g.
Proof.
  intros H1 H2. cbn [growPrepend]. rewrite (at_Some _ _ _ H1). cbn [bind].
  now rewrite Rlt_dec_F.
Qed.

(** *** The L-shaped route on a grid of five lines per axis *)

Section LShape.
Variables x0 x1 x2 x3 x4 y0 y1 y2 y3 y4 : R.
Variables aW aE bS bN : R.
Variable d : R.
Hypothesis Hx : x0 < x1 /\ x1 <= aW /\ aW < x2 /\ x2 < aE /\ aE <= x3 /\ x3 < x4.
Hypothesis Hy : y0 < y1 /\ y1 <= bS /\ bS < y2 /\ y2 < bN /\ bN <= y3 /\ y3 < y4.

Let stL (g : list (list Z)) (bx by_ : list Bound) : RouteBoxer :=
  mkRouteBoxer d (routeL aW aE bS bN) [y0; y1; y2; y3; y4] [x0; x1; x2; x3; x4] g bx by_.

(** The three vertices lie in the cells (2,2), (1,2) and (1,1); each step
    moves to the cell to the west or to the south. *)
Lemma FindIntersectingCells_L :
  FindIntersectingCells (stL zeros5 [] []) = Ok (stL marksL [] []).
Proof.
  destruct Hx as (X1 & X2 & X3 & X4 & X5 & X6).
  destruct Hy as (Y1 & Y2 & Y3 & Y4 & Y5 & Y6).
  unfold FindIntersectingCells, stL, routeL. cbn [vertices].
  unfold getCellCoords. cbn [lngGrid latGrid length scanFirst].
  run.
  cbn [traceVertices]. unfold getGridCoordsFromHint. cbn [lngGrid latGrid length scanUp scanDown].
  run.
  reflexivity.
Qed.

(** With lines at least 0.001 apart the two passes give two boxes each. *)
Lemma mergeIntersectingCells_L_wide :
  1 / 1000 <= x1 - x0 -> 1 / 1000 <= x2 - x1 -> 1 / 1000 <= x3 - x2 -> 1 / 1000 <= x4 - x3 ->
  1 / 1000 <= y1 - y0 -> 1 / 1000 <= y2 - y1 -> 1 / 1000 <= y3 - y2 -> 1 / 1000 <= y4 - y3 ->
  mergeIntersectingCells (stL marksL [] [])
  = Ok (stL marksL [box x0 y0 x3 y4; box x3 y1 x4 y4] [box x0 y0 x3 y1; box x0 y1 x4 y4]).
Proof.
  intros.
  destruct Hx as (X1 & X2 & X3 & X4 & X5 & X6).
  destruct Hy as (Y1 & Y2 & Y3 & Y4 & Y5 & Y6).
  unfold mergeIntersectingCells, stL, marksL.
  runMerge.
  reflexivity.
Qed.

(** With the last column and the first row narrower than 0.001 each pass
    merges everything into the rectangle of the whole grid. *)
Lemma mergeIntersectingCells_L_narrow :
  x4 - x3 < 1 / 1000 -> y1 - y0 < 1 / 1000 ->
  mergeIntersectingCells (stL marksL [] [])
  = Ok (stL marksL [box x0 y0 x4 y4] [box x0 y0 x4 y4]).
Proof.
  intros.
  destruct Hx as (X1 & X2 & X3 & X4 & X5 & X6).
  destruct Hy as (Y1 & Y2 & Y3 & Y4 & Y5 & Y6).
  unfold mergeIntersectingCells, stL, marksL.
  runMerge.
  reflexivity.
Qed.
End LShape.

(** *** The L-shaped route on the grid of a second call

    Ten lines per axis; the first five are those of the first call, and
    nothing is asked of the other five: the scans and the merge stop
    before them. *)

Section LShapeAgain.
Variables x0 x1 x2 x3 x4 x5 x6 x7 x8 x9 y0 y1 y2 y3 y4 y5 y6 y7 y8 y9 : R.
Variables aW aE bS bN : R.
Variable d : R.
Hypothesis Hx : x0 < x1 /\ x1 <= aW /\ aW < x2 /\ x2 < aE /\ aE <= x3 /\ x3 < x4.
Hypothesis Hy : y0 < y1 /\ y1 <= bS /\ bS < y2 /\ y2 < bN /\ bN <= y3 /\ y3 < y4.



End LShapeAgain.

(** *** buildGrid around a centre *)

Lemma getCellCoords_center (r : RouteBoxer) (w e s n cx cy : R) :
  lngGrid r = [w; cx; e] -> latGrid r = [s; cy; n] -> w < cx -> s < cy ->
  getCellCoords r (mkPoint cx cy) = Ok (0, 0)%Z.
Proof.
  intros E1 E2 Hw Hs. unfold getCellCoords. rewrite E1, E2. cbn [length scanFirst Lng Lat].
  repeat (first [ rstep | estep ]). reflexivity.
Qed.

Lemma markCell_origin (r : RouteBoxer) : markCell r (0, 0)%Z = Panic.
Proof. reflexivity. Qed.

Section GridAround.
Variables cx cy d : R.
Let c : Point := mkPoint cx cy.
Let a : R := d / EarthRadius.
Let q : R := cos (deg2rad cy).
Let dy : R := rad2deg a.
Let dx : R := rad2deg (a / q).

Hypothesis a_lo : 1 / 10 ^ 10 <= a.
Hypothesis a_hi : a <= 1 / 100.
Hypothesis cx_range : -80 <= cx <= 80.
Hypothesis cy_range : -80 <= cy <= 80.
Hypothesis q_lo : 1 / 2 <= q.

Lemma a_pos : 0 < a.
Proof. pose proof tiny_pos. lra. Qed.

Lemma dy_pos : 0 < dy.
Proof.
  unfold dy, rad2deg. pose proof a_pos. pose proof PI_gt_3.
  apply Rdiv_lt_0_compat; lra.
Qed.

Lemma aq_bounds : a <= a / q <= 2 * a.
Proof.
  pose proof a_pos. assert (q <= 1) by apply COS_bound.
  split.
  - apply Rmult_le_reg_r with q; [lra|]. unfold Rdiv. rewrite Rmult_assoc, Rinv_l by lra. nra.
  - apply Rmult_le_reg_r with q; [lra|]. unfold Rdiv. rewrite Rmult_assoc, Rinv_l by lra. nra.
Qed.

Lemma dx_ge_dy : dy <= dx.
Proof.
  unfold dx, dy, rad2deg. pose proof aq_bounds. pose proof PI_gt_3.
  apply Rmult_le_reg_r with PI; [lra|]. unfold Rdiv.
  rewrite !Rmult_assoc, !Rinv_l by lra. lra.
Qed.

Lemma scaled_a (k : R) : d * k / EarthRadius = k * a.
Proof. unfold a, EarthRadius. field. Qed.

Lemma north_line (k : R) : 1 <= k <= 4 ->
  Lat (RhumbDestinationPoint c 0 (d * k)) = cy + k * dy.
Proof.
  intros Hk. pose proof a_pos. pose proof PI_gt_3. pose proof PI_4.
  rewrite RDP_north; rewrite scaled_a.
  - cbn [Lat c]. now rewrite rad2deg_scale.
  - nra.
  - cbn [Lat c]. unfold deg2rad. apply Rabs_le. split; nra.
Qed.

Lemma south_line (k : R) : 1 <= k <= 4 ->
  Lat (RhumbDestinationPoint c 180 (d * k)) = cy - k * dy.
Proof.
  intros Hk. pose proof a_pos. pose proof PI_gt_3. pose proof PI_4.
  rewrite RDP_south; rewrite scaled_a.
  - cbn [Lat c]. now rewrite rad2deg_scale.
  - nra.
  - cbn [Lat c]. unfold deg2rad. apply Rabs_le. split; nra.
Qed.

Lemma east_line (k : R) : 1 <= k <= 4 ->
  Lng (RhumbDestinationPoint c 90 (d * k)) = cx + k * dx.
Proof.
  intros Hk. pose proof a_pos. pose proof PI_gt_3. pose proof PI_4. pose proof aq_bounds.
  assert (E : d * k / EarthRadius / cos (deg2rad (Lat c)) = k * (a / q)).
  { rewrite scaled_a. cbn [Lat c]. fold q. unfold Rdiv. ring. }
  rewrite RDP_east; rewrite E.
  - cbn [Lng c]. now rewrite rad2deg_scale.
  - cbn [Lng c]. unfold deg2rad. apply Rabs_def1; nra.
Qed.

Lemma west_line (k : R) : 1 <= k <= 4 ->
  Lng (RhumbDestinationPoint c 270 (d * k)) = cx - k * dx.
Proof.
  intros Hk. pose proof a_pos. pose proof PI_gt_3. pose proof PI_4. pose proof aq_bounds.
  assert (E : d * k / EarthRadius / cos (deg2rad (Lat c)) = k * (a / q)).
  { rewrite scaled_a. cbn [Lat c]. fold q. unfold Rdiv. ring. }
  rewrite RDP_west; rewrite E.
  - cbn [Lng c]. now rewrite rad2deg_scale.
  - cbn [Lng c]. unfold deg2rad. apply Rabs_def1; nra.
Qed.

Lemma first_lines :
  Lat (RhumbDestinationPoint c 0 d) = cy + 1 * dy
  /\ Lng (RhumbDestinationPoint c 90 d) = cx + 1 * dx.
Proof.
  split.
  - replace (RhumbDestinationPoint c 0 d) with (RhumbDestinationPoint c 0 (d * 1))
      by (f_equal; ring).
    apply north_line; lra.
  - replace (RhumbDestinationPoint c 90 d) with (RhumbDestinationPoint c 90 (d * 1))
      by (f_equal; ring).
    apply east_line; lra.
Qed.

(** A bounding box reduced to the point [c]: three lines on each axis,
    the middle one through [c]. *)
Lemma buildGrid_point (vs : list Point) (fuel : nat) :
  PointSet_Bound vs = mkBound c c ->
  buildGrid (S (S fuel)) (NewRouteBoxer d vs)
  = Ok (mkRouteBoxer d vs [cy - 1 * dy; cy; cy + 1 * dy] [cx - 1 * dx; cx; cx + 1 * dx]
          (repeat (repeat 0%Z 3) 3) [] []).
Proof.
  intros HB. pose proof dy_pos. pose proof dx_ge_dy.
  destruct first_lines as [F1 F2].
  unfold buildGrid, NewRouteBoxer. cbn [vertices distanceRange latGrid lngGrid app].
  rewrite HB.
  assert (HC : Center (mkBound c c) = c).
  { unfold Center, c. cbn [NorthEast SouthWest Lng Lat]. f_equal; field. }
  rewrite HC. cbn [NorthEast SouthWest]. rewrite F1, F2. cbn [Lat Lng c].
  rewrite (growAppend_stop _ _ _ _ _ cy) by (try reflexivity; lra).
  cbn [bind].
  rewrite (growPrepend_step _ _ _ _ _ (cy + 1 * dy)) by (try reflexivity; lra).
  cbv beta. rewrite south_line by lra.
  rewrite (growPrepend_stop _ _ _ _ _ cy) by (try reflexivity; lra).
  cbn [bind].
  rewrite (growAppend_stop _ _ _ _ _ cx) by (try reflexivity; lra).
  cbn [bind].
  rewrite (growPrepend_step _ _ _ _ _ (cx + 1 * dx)) by (try reflexivity; lra).
  cbv beta. rewrite west_line by lra.
  rewrite (growPrepend_stop _ _ _ _ _ cx) by (try reflexivity; lra).
  cbn [bind]. reflexivity.
Qed.

(** The first vertex of a route whose bounding box is the point [c] is
    located in cell (0, 0), and marking that cell faults. *)
Lemma Boxes_point (rest : list Point) (fuel : nat) :
  PointSet_Bound (c :: rest) = mkBound c c ->
  Boxes (S (S fuel)) (NewRouteBoxer d (c :: rest)) = Panic.
Proof.
  intros HB. pose proof dy_pos. pose proof dx_ge_dy.
  unfold Boxes. rewrite (buildGrid_point _ _ HB). cbn [bind].
  unfold FindIntersectingCells. cbn [vertices]. unfold c.
  rewrite (getCellCoords_center _ (cx - 1 * dx) (cx + 1 * dx) (cy - 1 * dy) (cy + 1 * dy))
    by (try reflexivity; lra).
  cbn [bind]. now rewrite markCell_origin.
Qed.

(** The L-shaped route around [c], of half-width [e] below one cell. *)
Variable e : R.
Hypothesis e_pos : 0 < e.
Hypothesis e_small : e < dy.

Lemma PointSet_Bound_L :
  PointSet_Bound (routeL (cx - e) (cx + e) (cy - e) (cy + e))
  = mkBound (mkPoint (cx - e) (cy - e)) (mkPoint (cx + e) (cy + e)).
Proof.
  unfold PointSet_Bound, routeL, NewBound. cbn [fold_left Lng Lat].
  repeat rstep. reflexivity.
Qed.

Lemma buildGrid_L (fuel : nat) :
  buildGrid (S (S (S fuel))) (NewRouteBoxer d (routeL (cx - e) (cx + e) (cy - e) (cy + e)))
  = Ok (gridStateL cx cy dx dy e d zeros5 [] []).
Proof.
  pose proof dy_pos. pose proof dx_ge_dy.
  destruct first_lines as [F1 F2].
  unfold buildGrid, NewRouteBoxer. cbn [vertices distanceRange latGrid lngGrid app].
  rewrite PointSet_Bound_L.
  assert (HC : Center (mkBound (mkPoint (cx - e) (cy - e)) (mkPoint (cx + e) (cy + e))) = c).
  { unfold Center, c. cbn [NorthEast SouthWest Lng Lat]. f_equal; field. }
  rewrite HC. cbn [NorthEast SouthWest]. rewrite F1, F2. cbn [Lat Lng c].
  rewrite (growAppend_step _ _ _ _ _ cy) by (try reflexivity; lra).
  cbv beta. rewrite north_line by lra. cbn [app].
  rewrite (growAppend_stop _ _ _ _ _ (cy + 1 * dy)) by (try reflexivity; lra).
  cbn [bind].
  rewrite (growPrepend_step _ _ _ _ _ (cy + 1 * dy)) by (try reflexivity; lra).
  cbv beta. rewrite south_line by lra.
  rewrite (growPrepend_step _ _ _ _ _ cy) by (try reflexivity; lra).
  cbv beta. change (IZR (1 + 1)) with 2. rewrite south_line by lra.
  rewrite (growPrepend_stop _ _ _ _ _ (cy - 1 * dy)) by (try reflexivity; lra).
  cbn [bind].
  rewrite (growAppend_step _ _ _ _ _ cx) by (try reflexivity; lra).
  cbv beta. rewrite east_line by lra. cbn [app].
  rewrite (growAppend_stop _ _ _ _ _ (cx + 1 * dx)) by (try reflexivity; lra).
  cbn [bind].
  rewrite (growPrepend_step _ _ _ _ _ (cx + 1 * dx)) by (try reflexivity; lra).
  cbv beta. rewrite west_line by lra.
  rewrite (growPrepend_step _ _ _ _ _ cx) by (try reflexivity; lra).
  cbv beta. change (IZR (1 + 1)) with 2. rewrite west_line by lra.
  rewrite (growPrepend_stop _ _ _ _ _ (cx - 1 * dx)) by (try reflexivity; lra).
  cbn [bind]. reflexivity.
Qed.

Lemma L_lines_x :
  cx - 2 * dx < cx - 1 * dx /\ cx - 1 * dx <= cx - e /\ cx - e < cx /\ cx < cx + e
  /\ cx + e <= cx + 1 * dx /\ cx + 1 * dx < cx + 2 * dx.
Proof. pose proof dy_pos. pose proof dx_ge_dy. lra. Qed.

Lemma L_lines_y :
  cy - 2 * dy < cy - 1 * dy /\ cy - 1 * dy <= cy - e /\ cy - e < cy /\ cy < cy + e
  /\ cy + e <= cy + 1 * dy /\ cy + 1 * dy < cy + 2 * dy.
Proof. pose proof dy_pos. lra. Qed.

Lemma Boxes_L_wide (fuel : nat) :
  1 / 1000 <= dy ->
  Boxes (S (S (S fuel))) (NewRouteBoxer d (routeL (cx - e) (cx + e) (cy - e) (cy + e)))
  = Ok (colBoxesL cx cy dx dy,
        gridStateL cx cy dx dy e d marksL (colBoxesL cx cy dx dy) (rowBoxesL cx cy dx dy)).
Proof.
  intros W. pose proof dx_ge_dy.
  unfold Boxes. rewrite buildGrid_L. cbn [bind]. unfold gridStateL.
  rewrite (FindIntersectingCells_L _ _ _ _ _ _ _ _ _ _ _ _ _ _ _ L_lines_x L_lines_y).
  cbn [bind].
  rewrite (mergeIntersectingCells_L_wide _ _ _ _ _ _ _ _ _ _ _ _ _ _ _ L_lines_x L_lines_y)
    by lra.
  reflexivity.
Qed.

Lemma Boxes_L_narrow (fuel : nat) :
  dx < 1 / 1000 ->
  Boxes (S (S (S fuel))) (NewRouteBoxer d (routeL (cx - e) (cx + e) (cy - e) (cy + e)))
  = Ok ([allBoxL cx cy dx dy],
        gridStateL cx cy dx dy e d marksL [allBoxL cx cy dx dy] [allBoxL cx cy dx dy]).
Proof.
  intros W. pose proof dx_ge_dy.
  unfold Boxes. rewrite buildGrid_L. cbn [bind]. unfold gridStateL.
  rewrite (FindIntersectingCells_L _ _ _ _ _ _ _ _ _ _ _ _ _ _ _ L_lines_x L_lines_y).
  cbn [bind].
  rewrite (mergeIntersectingCells_L_narrow _ _ _ _ _ _ _ _ _ _ _ _ _ _ _ L_lines_x L_lines_y)
    by lra.
  reflexivity.
Qed.

End GridAround.

(** *** The two instances of the L-shaped route *)

Lemma dyWide_bounds : 7 / 20 <= dyWide <= 1 / 2.
Proof.
  pose proof (rad2deg_bounds (50000 / EarthRadius)) as B. unfold dyWide, EarthRadius in *. lra.
Qed.

Lemma dxWide_eq : dxWide = dyWide.
Proof. unfold dxWide, dyWide. rewrite cos_deg_0. f_equal. unfold EarthRadius. lra. Qed.

Lemma dyNarrow_bounds : 3 / 10000 <= dyNarrow <= 1 / 2000.
Proof.
  pose proof (rad2deg_bounds (50 / EarthRadius)) as B. unfold dyNarrow, EarthRadius in *. lra.
Qed.

Lemma dxNarrow_eq : dxNarrow = dyNarrow.
Proof. unfold dxNarrow, dyNarrow. rewrite cos_deg_0. f_equal. unfold EarthRadius. lra. Qed.

Lemma Boxes_routeWide (fuel : nat) :
  Boxes (S (S (S fuel))) (NewRouteBoxer 50000 routeWide)
  = Ok (colBoxesL 10 0 dxWide dyWide, stateWide).
Proof.
  pose proof tiny_le. pose proof dyWide_bounds as B. unfold dyWide in B.
  unfold routeWide, stateWide, dxWide, dyWide.
  apply (Boxes_L_wide 10 0 50000); try (unfold EarthRadius; lra).
  - rewrite cos_deg_0. lra.
  - lra.
  - lra.
Qed.


Lemma Boxes_routeNarrow (fuel : nat) :
  Boxes (S (S (S fuel))) (NewRouteBoxer 50 routeNarrow)
  = Ok ([allBoxL 10 0 dxNarrow dyNarrow], stateNarrow).
Proof.
  pose proof tiny_le. pose proof dyNarrow_bounds as B.
  pose proof dxNarrow_eq as E. unfold dyNarrow, dxNarrow in B, E.
  unfold routeNarrow, stateNarrow, dxNarrow, dyNarrow.
  apply (Boxes_L_narrow 10 0 50); try (unfold EarthRadius; lra).
  - rewrite cos_deg_0. lra.
  - lra.
  - lra.
Qed.

Lemma stateWide_gapped : gapped (latGrid stateWide) /\ gapped (lngGrid stateWide).
Proof.
  pose proof dyWide_bounds. pose proof dxWide_eq.
  split; apply gappedList_gapped; cbn; lra.
Qed.

(** *** Distance zero *)









(** *** Routes whose bounding box is a point *)

Lemma point_bound (p : Point) : PointSet_Bound [p] = mkBound p p.
Proof.
  unfold PointSet_Bound, NewBound. cbn [fold_left].
  rewrite !Rmin_left, !Rmax_left by lra. destruct p; reflexivity.
Qed.

Lemma empty_bound : PointSet_Bound [] = mkBound (mkPoint 0 0) (mkPoint 0 0).
Proof.
  unfold PointSet_Bound, NewBound. rewrite !Rmin_left, !Rmax_left by lra. reflexivity.
Qed.

Lemma buildGrid_single_point (fuel : nat) :
  buildGrid (S (S fuel)) (NewRouteBoxer 50 [mkPoint 10 45])
  = Ok (mkRouteBoxer 50 [mkPoint 10 45]
          [45 - 1 * dyPoint; 45; 45 + 1 * dyPoint] [10 - 1 * dxPoint; 10; 10 + 1 * dxPoint]
          (repeat (repeat 0%Z 3) 3) [] []).
Proof.
  pose proof tiny_le. pose proof cos_deg_45.
  apply (buildGrid_point 10 45 50); try (unfold EarthRadius; lra); try lra.
  apply point_bound.
Qed.

Lemma dPoint_pos : 0 < dyPoint /\ 0 < dxPoint.
Proof.
  pose proof tiny_le. pose proof cos_deg_45.
  split.
  - apply (dy_pos 50). unfold EarthRadius. lra.
  - apply Rlt_le_trans with dyPoint.
    + apply (dy_pos 50). unfold EarthRadius. lra.
    + apply (dx_ge_dy 45 50); try (unfold EarthRadius; lra); lra.
Qed.

(** C2: for the single-point route [(10,45)] with distance 50
    the grid is built with three increasing lines per axis, the middle one
    through the vertex.  The vertex is located in cell (0,0), and marking
    that cell writes to index -1 of the coverage grid. *)
Theorem markCell_out_of_bounds_single_point :
  exists r1 s n w e,
    buildGrid 2 (NewRouteBoxer 50 [mkPoint 10 45]) = Ok r1
    /\ latGrid r1 = [s; 45; n] /\ lngGrid r1 = [w; 10; e]
    /\ s < 45 < n /\ w < 10 < e
    /\ getCellCoords r1 (mkPoint 10 45) = Ok (0, 0)%Z
    /\ markCell r1 (0, 0)%Z = Panic.
Proof.
  destruct dPoint_pos as [Py Px].
  eexists _, (45 - 1 * dyPoint), (45 + 1 * dyPoint), (10 - 1 * dxPoint), (10 + 1 * dxPoint).
  split; [apply buildGrid_single_point|].
  cbn [latGrid lngGrid].
  split; [reflexivity|]. split; [reflexivity|]. split; [lra|]. split; [lra|].
  split; [|apply markCell_origin].
  apply (getCellCoords_center _ (10 - 1 * dxPoint) (10 + 1 * dxPoint)
           (45 - 1 * dyPoint) (45 + 1 * dyPoint)); try reflexivity; lra.
Qed.

(** C4: for the single-point route [(10,45)] with distance 50,
    [Boxes] does not return a rectangle: it faults with an index out of
    range as soon as the grid is built. *)
Theorem Boxes_single_point_panics :
  forall fuel, Boxes (S (S fuel)) (NewRouteBoxer 50 [mkPoint 10 45]) = Panic.
Proof.
  intros fuel. pose proof tiny_le. pose proof cos_deg_45.
  apply (Boxes_point 10 45 50); try (unfold EarthRadius; lra); try lra.
  apply point_bound.
Qed.

(** The empty route *)

Lemma buildGrid_vertices (fuel : nat) (r r' : RouteBoxer) :
  buildGrid fuel r = Ok r' -> vertices r' = vertices r.
Proof.
  unfold buildGrid. cbv zeta.
  repeat (match goal with |- bind ?m _ = _ -> _ => destruct m end;
          cbn [bind]; try discriminate).
  now intros [= <-].
Qed.

Lemma Boxes_empty_route (d : R) (fuel : nat) :
  Boxes fuel (NewRouteBoxer d []) = Panic \/ Boxes fuel (NewRouteBoxer d []) = OutOfFuel.
Proof.
  unfold Boxes. destruct (buildGrid fuel (NewRouteBoxer d [])) as [r1| |] eqn:E; cbn [bind];
    auto.
  left. unfold FindIntersectingCells. rewrite (buildGrid_vertices _ _ _ E). reflexivity.
Qed.

Lemma buildGrid_empty_route (fuel : nat) :
  buildGrid (S (S fuel)) (NewRouteBoxer 50 [])
  = Ok (mkRouteBoxer 50 [] [0 - 1 * dEmpty; 0; 0 + 1 * dEmpty]
          [0 - 1 * dxEmpty; 0; 0 + 1 * dxEmpty] (repeat (repeat 0%Z 3) 3) [] []).
Proof.
  pose proof tiny_le.
  apply (buildGrid_point 0 0 50); try (unfold EarthRadius; lra); try lra.
  - rewrite cos_deg_0. lra.
  - apply empty_bound.
Qed.

(** C9: the empty route is not rejected.  [NewRouteBoxer]
    accepts it, [Boxes] never returns a result for it, and with distance 50
    it faults with an index out of range once the grid is built. *)
Theorem empty_route_never_rejected :
  (forall d fuel,
      Boxes fuel (NewRouteBoxer d []) = Panic \/ Boxes fuel (NewRouteBoxer d []) = OutOfFuel)
  /\ (forall fuel, Boxes (S (S fuel)) (NewRouteBoxer 50 []) = Panic).
Proof.
  split; [exact Boxes_empty_route|].
  intros fuel. unfold Boxes. rewrite buildGrid_empty_route. reflexivity.
Qed.

(** C9, counterexample: for the empty route and distance 50 a grid of
    three lines per axis is built around (0,0), and only then does the
    computation stop, by the index fault at [vertices[0]]. *)
Lemma empty_route_builds_grid_then_panics :
  exists r1,
    buildGrid 2 (NewRouteBoxer 50 []) = Ok r1
    /\ length (latGrid r1) = 3%nat /\ length (lngGrid r1) = 3%nat
    /\ length (grid r1) = 3%nat
    /\ FindIntersectingCells r1 = Panic.
Proof.
  eexists. split; [apply buildGrid_empty_route|]. repeat split.
Qed.

(** ** The merge on index rectangles tiles the marked cells *)

Lemma extendI_exact (r run : rect) :
  wfR r -> wfR run -> matchI r run = true ->
  wfR (extendI r run)
  /\ forall i o, inR (extendI r run) i o <-> inR r i o \/ inR run i o.
Proof.
  unfold wfR, matchI, extendI, inR. intros [A B] [C D] M.
  apply andb_prop in M. destruct M as [M M3]. apply andb_prop in M. destruct M as [M1 M2].
  apply Z.eqb_eq in M1, M2, M3. cbn [i1 i2 o1 o2]. split; [lia|]. intros i o. lia.
Qed.

(** Merging a run that meets no accumulated rectangle adds exactly the
    cells of the run and keeps the rectangles apart. *)
Lemma mergeI_spec (rs : list rect) (run : rect) :
  Forall wfR rs -> wfR run ->
  (forall r i o, In r rs -> ~ (inR r i o /\ inR run i o)) ->
  pairwise apart rs ->
  Forall wfR (mergeI rs run)
  /\ pairwise apart (mergeI rs run)
  /\ (forall i o, cov (mergeI rs run) i o <-> cov rs i o \/ inR run i o).
Proof.
  intros Hwf Hrun. induction rs as [|r t IH]; intros Hfresh Hpw.
  - cbn [mergeI]. split; [constructor; [assumption | constructor]|].
    split; [cbn; split; [intros ? [] | exact I]|].
    intros i o. unfold cov. cbn [In]. split.
    + intros (r & [<-|[]] & H). now right.
    + intros [(r & [] & _)|H]. exists run. split; [now left | assumption].
  - cbn [mergeI]. inversion Hwf as [|? ? Wr Wt]; subst.
    destruct Hpw as [Hr Ht].
    destruct (matchI r run) eqn:M.
    + destruct (extendI_exact r run Wr Hrun M) as [We Ex].
      split; [constructor; assumption|]. split.
      * cbn [pairwise]. split; [|assumption].
        intros b Hb i o [H1 H2]. apply Ex in H1. destruct H1 as [H1|H1].
        -- apply (Hr b Hb i o). auto.
        -- apply (Hfresh b i o); [now right | auto].
      * intros i o. unfold cov. split.
        -- intros (r' & [<-|Hin] & H).
           ++ apply Ex in H. destruct H; [left; exists r; split; [now left|assumption] | now right].
           ++ left. exists r'. split; [now right | assumption].
        -- intros [(r' & [<-|Hin] & H)|H].
           ++ exists (extendI r run). split; [now left|]. apply Ex. now left.
           ++ exists r'. split; [now right | assumption].
           ++ exists (extendI r run). split; [now left|]. apply Ex. now right.
    + destruct (IH Wt) as (W' & P' & C').
      { intros r' i o Hin. apply Hfresh. now right. }
      { assumption. }
      split; [constructor; assumption|]. split.
      * cbn [pairwise]. split; [|assumption].
        intros b Hb i o [H1 H2].
        assert (Hc : cov (mergeI t run) i o) by (exists b; auto).
        apply C' in Hc. destruct Hc as [(r3 & Hin & H3)|H3].
        -- apply (Hr r3 Hin i o). auto.
        -- apply (Hfresh r i o); [now left | auto].
      * intros i o. unfold cov in *. split.
        -- intros (r' & [<-|Hin] & H).
           ++ left. exists r. split; [now left | assumption].
           ++ assert (Hc : exists r0, In r0 (mergeI t run) /\ inR r0 i o) by eauto.
              apply C' in Hc. destruct Hc as [(r3 & Hin3 & H3)|H3]; [|now right].
              left. exists r3. split; [now right | assumption].
        -- intros [(r' & [<-|Hin] & H)|H].
           ++ exists r. split; [now left | assumption].
           ++ assert (Hc : exists r0, In r0 (mergeI t run) /\ inR r0 i o)
                by (apply C'; left; eauto).
              destruct Hc as (r3 & Hin3 & H3). exists r3. split; [now right | assumption].
           ++ assert (Hc : exists r0, In r0 (mergeI t run) /\ inR r0 i o)
                by (apply C'; now right).
              destruct Hc as (r3 & Hin3 & H3). exists r3. split; [now right | assumption].
Qed.

Section AbstractPass.
Variable mk : Z -> Z -> bool.
Variable w : nat.
Let W : Z := Z.of_nat w.

Lemma flush_inv (rs : list rect) (cur : option rect) (x o : Z) :
  (0 <= o)%Z -> (0 <= x <= W)%Z -> J mk W (rs, cur) x o -> Inv mk W (flushI rs cur) o x.
Proof.
  intros Ho Hx [HI HC]. cbn [fst snd] in *. destruct cur as [c|]; cbn [flushI front] in *;
    [|exact HI].
  destruct HC as (Ec & Ha & Hm). destruct HI as (Wf & Pw & Cv).
  assert (Wc : wfR c) by (rewrite Ec; unfold wfR; cbn; lia).
  assert (Hin : forall i j, inR c i j <-> (i1 c <= i < x /\ j = o)%Z).
  { intros i j. rewrite Ec. unfold inR. cbn [i1 i2 o1 o2]. lia. }
  destruct (mergeI_spec rs c Wf Wc) as (Wf' & Pw' & Cv').
  - intros r i j Hr [H1 H2].
    assert (Hp : processed mk W o (i1 c) i j) by (apply Cv; exists r; auto).
    apply Hin in H2. unfold processed in Hp. destruct Hp as (_ & _ & _ & Hp). lia.
  - exact Pw.
  - split; [exact Wf'|]. split; [exact Pw'|].
    intros i j. rewrite Cv', Cv, Hin. unfold processed. split.
    + intros [(H1 & H2 & H3 & H4)|[H ->]]; [repeat split; auto; lia|].
      repeat split; try lia. apply Hm. lia.
    + intros (H1 & H2 & H3 & H4).
      destruct (Z_lt_dec j o); [left; repeat split; auto; lia|].
      destruct (Z_lt_dec i (i1 c)); [left; repeat split; auto; lia|].
      right. lia.
Qed.

Lemma step_inv (st : list rect * option rect) (x o : Z) :
  (0 <= o)%Z -> (0 <= x < W)%Z -> J mk W st x o -> J mk W (stepI mk st x o) (x + 1) o.
Proof.
  intros Ho Hx HJ. unfold stepI. destruct (mk x o) eqn:M.
  - destruct st as [rs [c|]]; destruct HJ as [HI HC]; cbn [fst snd front] in *.
    + destruct HC as (Ec & Ha & Hm).
      assert (E : extendI c (cellI x o) = mkRect (i1 c) (x + 1) o (o + 1)).
      { rewrite Ec. unfold extendI, cellI. cbn [i1 i2 o1 o2]. f_equal; lia. }
      rewrite E. split; cbn [fst snd front i1]; [exact HI|].
      cbn [CurOK i1]. split; [reflexivity|]. split; [lia|].
      intros i Hi. destruct (Z.eq_dec i x) as [->|]; [exact M | apply Hm; lia].
    + unfold cellI. split; cbn [fst snd front i1]; [exact HI|].
      cbn [CurOK i1]. split; [reflexivity|]. split; [lia|].
      intros i Hi. replace i with x by lia. exact M.
  - destruct st as [rs cur]. cbn [fst snd].
    pose proof (flush_inv rs cur x o Ho ltac:(lia) HJ) as (Wf & Pw & Cv).
    split; cbn [fst snd front CurOK]; [|exact I].
    split; [exact Wf|]. split; [exact Pw|].
    intros i j. rewrite Cv. unfold processed. split.
    + intros (H1 & H2 & H3 & H4). repeat split; auto; lia.
    + intros (H1 & H2 & H3 & H4). repeat split; auto; try lia.
      destruct H4 as [H4|[-> H4]]; [now left|]. right. split; [reflexivity|].
      destruct (Z.eq_dec i x) as [->|]; [congruence | lia].
Qed.

Lemma inner_inv (n : nat) (st : list rect * option rect) (x o : Z) :
  (0 <= o)%Z -> (0 <= x)%Z -> (x + Z.of_nat n <= W)%Z -> J mk W st x o ->
  J mk W (innerI mk n st x o) (x + Z.of_nat n) o.
Proof.
  revert st x. induction n as [|n IH]; intros st x Ho Hx Hn HJ.
  - cbn [innerI]. now replace (x + Z.of_nat 0)%Z with x by lia.
  - cbn [innerI]. replace (x + Z.of_nat (S n))%Z with (x + 1 + Z.of_nat n)%Z by lia.
    apply IH; try lia. apply step_inv; auto; lia.
Qed.

Lemma row_inv (rs : list rect) (o : Z) :
  (0 <= o)%Z -> Inv mk W rs o 0 ->
  Inv mk W (flushI (fst (innerI mk w (rs, None) 0 o)) (snd (innerI mk w (rs, None) 0 o)))
      (o + 1) 0.
Proof.
  intros Ho HI.
  assert (HJ : J mk W (innerI mk w (rs, None) 0 o) (0 + Z.of_nat w) o).
  { apply inner_inv; try (unfold W; lia). split; cbn [fst snd front CurOK]; auto. }
  destruct (innerI mk w (rs, None) 0 o) as [rs' cur']. cbn [fst snd].
  pose proof (flush_inv rs' cur' (0 + Z.of_nat w) o Ho ltac:(unfold W; lia) HJ) as (Wf & Pw & Cv).
  split; [exact Wf|]. split; [exact Pw|].
  intros i j. rewrite Cv. unfold processed, W. intuition lia.
Qed.

Lemma outer_inv (n : nat) (rs : list rect) (o : Z) :
  (0 <= o)%Z -> Inv mk W rs o 0 -> Inv mk W (outerI mk n w rs o) (o + Z.of_nat n) 0.
Proof.
  revert rs o. induction n as [|n IH]; intros rs o Ho HI.
  - cbn [outerI]. now replace (o + Z.of_nat 0)%Z with o by lia.
  - cbn [outerI]. replace (o + Z.of_nat (S n))%Z with (o + 1 + Z.of_nat n)%Z by lia.
    apply IH; [lia|]. apply row_inv; assumption.
Qed.

Lemma Inv_nil : Inv mk W [] 0 0.
Proof.
  split; [constructor|]. split; [exact I|].
  intros i j. unfold cov, processed. split.
  - intros (r & [] & _).
  - lia.
Qed.

(** After [h] outer iterations over [w] inner positions the rectangles are
    pairwise apart and cover exactly the marked cells. *)
Lemma outerI_tiles (h : nat) :
  let rs := outerI mk h w [] 0 in
  Forall wfR rs /\ pairwise apart rs
  /\ forall i j, cov rs i j <-> ((0 <= i < W)%Z /\ (0 <= j < Z.of_nat h)%Z /\ mk i j = true).
Proof.
  intros rs. destruct (outer_inv h [] 0%Z ltac:(lia) Inv_nil) as (Wf & Pw & Cv).
  fold rs in Wf, Pw, Cv.
  split; [exact Wf|]. split; [exact Pw|].
  intros i j. rewrite Cv. unfold processed. intuition lia.
Qed.
End AbstractPass.

Lemma apart_sym (r1 r2 : rect) : apart r1 r2 -> apart r2 r1.
Proof. unfold apart. intros H i o [A B]. apply (H i o). auto. Qed.

Lemma pairwise_idx {A : Type} (P : A -> A -> Prop) (l : list A) :
  (forall a b, P a b -> P b a) -> pairwise P l ->
  forall i j a b, idx l i = Some a -> idx l j = Some b -> i <> j -> P a b.
Proof.
  intros Sym. induction l as [|h t IH]; intros Pw i j a b Hi Hj Hne.
  - pose proof (idx_Some_range _ _ _ Hi) as R. unfold len in R. cbn in R. lia.
  - destruct Pw as [Ph Pt].
    pose proof (idx_Some_range _ _ _ Hi) as Ri. pose proof (idx_Some_range _ _ _ Hj) as Rj.
    destruct (Z.eq_dec i 0) as [->|Hi0]; destruct (Z.eq_dec j 0) as [->|Hj0].
    + contradiction.
    + rewrite idx_cons_0 in Hi. injection Hi as <-. rewrite idx_cons_pos in Hj by lia.
      apply Ph. eapply idx_In; eauto.
    + rewrite idx_cons_0 in Hj. injection Hj as <-. rewrite idx_cons_pos in Hi by lia.
      apply Sym. apply Ph. eapply idx_In; eauto.
    + rewrite idx_cons_pos in Hi, Hj by lia.
      apply (IH Pt (i - 1)%Z (j - 1)%Z); auto. lia.
Qed.

(** ** The merge loops compute on index rectangles *)

Section View.
Variables il ol : list R.
Variable mkB : R -> R -> R -> R -> Bound.
Variable test : Bound -> Bound -> bool.
Hypothesis il_gapped : gapped il.
Hypothesis ol_gapped : gapped ol.
Hypothesis test_mkB : forall a b c d a' b' c' d',
  test (mkB a b c d) (mkB a' b' c' d') = near d b' && near a a' && near c c'.
Hypothesis Extend_mkB : forall a b c d a' b' c' d',
  Extend (mkB a b c d) (NorthEast (mkB a' b' c' d'))
  = mkB (Rmin a c') (Rmin b d') (Rmax c c') (Rmax d d').
Hypothesis covers_mkB : forall a b c d a' b' c' d',
  covers (mkB a b c d) (mkB a' b' c' d') <-> (a <= a' /\ c' <= c /\ b <= b' /\ d' <= d).
Hypothesis overlap_mkB : forall a b c d a' b' c' d',
  overlap (mkB a b c d) (mkB a' b' c' d') <-> (a < c' /\ a' < c /\ b < d' /\ b' < d).

Lemma test_vb (r run : rect) :
  inRange il ol r -> inRange il ol run ->
  test (vb il ol mkB r) (vb il ol mkB run) = matchI r run.
Proof.
  intros (A1 & A2 & A3 & A4) (B1 & B2 & B3 & B4). unfold vb, matchI.
  rewrite test_mkB.
  rewrite (near_line ol ol_gapped), !(near_line il il_gapped); auto.
Qed.

Lemma Extend_vb (r run : rect) :
  inRange il ol r -> inRange il ol run ->
  Extend (vb il ol mkB r) (NorthEast (vb il ol mkB run)) = vb il ol mkB (extendI r run).
Proof.
  intros (A1 & A2 & A3 & A4) (B1 & B2 & B3 & B4). unfold vb, extendI.
  rewrite Extend_mkB. cbn [i1 i2 o1 o2].
  rewrite !(Rmin_line il il_gapped), !(Rmax_line il il_gapped),
          !(Rmin_line ol ol_gapped), !(Rmax_line ol ol_gapped); auto.
Qed.

Lemma inRange_extendI (r run : rect) :
  inRange il ol r -> inRange il ol run -> inRange il ol (extendI r run).
Proof.
  unfold inRange, inLine, extendI. cbn [i1 i2 o1 o2]. lia.
Qed.

Lemma mergeInto_vb (rs : list rect) (run : rect) :
  Forall (inRange il ol) rs -> inRange il ol run ->
  mergeInto test (map (vb il ol mkB) rs) (vb il ol mkB run) = map (vb il ol mkB) (mergeI rs run)
  /\ Forall (inRange il ol) (mergeI rs run).
Proof.
  intros Hrs Hrun. induction Hrs as [|r t Hr Ht IH].
  - cbn. split; [reflexivity | constructor; [assumption | constructor]].
  - cbn [map mergeInto mergeI]. rewrite (test_vb r run Hr Hrun).
    destruct (matchI r run).
    + cbn [map]. rewrite (Extend_vb r run Hr Hrun).
      split; [reflexivity|]. constructor; [now apply inRange_extendI | assumption].
    + destruct IH as [E F]. cbn [map]. rewrite E.
      split; [reflexivity|]. constructor; assumption.
Qed.

Lemma covers_vb (r : rect) (i o : Z) :
  inRange il ol r -> inRange il ol (cellI i o) ->
  covers (vb il ol mkB r) (vb il ol mkB (cellI i o)) <-> inR r i o.
Proof.
  intros (A1 & A2 & A3 & A4) (B1 & B2 & B3 & B4). unfold vb, inR. cbn [cellI i1 i2 o1 o2] in *.
  rewrite covers_mkB.
  rewrite !(line_le_iff il il_gapped), !(line_le_iff ol ol_gapped); auto. lia.
Qed.

Lemma overlap_vb (r1 r2 : rect) :
  inRange il ol r1 -> inRange il ol r2 -> wfR r1 -> wfR r2 ->
  overlap (vb il ol mkB r1) (vb il ol mkB r2) -> exists i o, inR r1 i o /\ inR r2 i o.
Proof.
  intros (A1 & A2 & A3 & A4) (B1 & B2 & B3 & B4) [W1 W2] [W3 W4]. unfold vb.
  rewrite overlap_mkB.
  rewrite !(line_lt_iff il il_gapped), !(line_lt_iff ol ol_gapped); auto.
  intros (H1 & H2 & H3 & H4).
  exists (Z.max (i1 r1) (i1 r2)), (Z.max (o1 r1) (o1 r2)). unfold inR. lia.
Qed.

(** One pass, abstracted over the accumulator it writes and over the axis
    of its inner loop. *)
Variable r0 : RouteBoxer.
Variable setAcc : RouteBoxer -> list Bound -> RouteBoxer.
Variable merge : RouteBoxer -> option Bound -> RouteBoxer.
Variable xy : Z -> Z -> cell.
Hypothesis merge_setAcc : forall acc cur,
  merge (setAcc r0 acc) cur
  = setAcc r0 (match cur with None => acc | Some b => mergeInto test acc b end).
Hypothesis grid_setAcc : forall acc, grid (setAcc r0 acc) = grid r0.
Hypothesis bounds_setAcc : forall acc c, getCellBounds (setAcc r0 acc) c = getCellBounds r0 c.
Hypothesis bounds_vb : forall i o b,
  getCellBounds r0 (xy i o) = Ok b ->
  inRange il ol (cellI i o) /\ b = vb il ol mkB (cellI i o).

Lemma flush_related (st : list rect * option rect) :
  Forall (inRange il ol) (fst st) -> optRange il ol (snd st) ->
  merge (setAcc r0 (map (vb il ol mkB) (fst st))) (option_map (vb il ol mkB) (snd st))
  = setAcc r0 (map (vb il ol mkB) (flushI (fst st) (snd st)))
  /\ Forall (inRange il ol) (flushI (fst st) (snd st)).
Proof.
  destruct st as [rs [c|]]; cbn [fst snd option_map flushI optRange]; intros Hrs Hc;
    rewrite merge_setAcc.
  - destruct (mergeInto_vb rs c Hrs Hc) as [E F]. rewrite E. auto.
  - auto.
Qed.

Lemma cellStep_related (r : RouteBoxer) (cur : option Bound) (st : list rect * option rect)
  (i o : Z) (r' : RouteBoxer) (cur' : option Bound) :
  related il ol mkB r0 setAcc r cur st ->
  cellStep merge r cur (fst (xy i o)) (snd (xy i o)) = Ok (r', cur') ->
  related il ol mkB r0 setAcc r' cur' (stepI (fun i o => marked r0 (xy i o)) st i o).
Proof.
  intros (Er & Ec & Hrs & Hc). subst r cur. unfold cellStep, stepI, marked, related.
  rewrite grid_setAcc.
  destruct (at_ (grid r0) (fst (xy i o))) as [col| |] eqn:E1; cbn [bind]; try discriminate.
  destruct (at_ col (snd (xy i o))) as [c| |] eqn:E2; cbn [bind]; try discriminate.
  rewrite (at_Ok _ _ _ E1), (at_Ok _ _ _ E2).
  destruct (c =? 1)%Z.
  - rewrite bounds_setAcc.
    replace (fst (xy i o), snd (xy i o)) with (xy i o) by (destruct (xy i o); reflexivity).
    destruct (getCellBounds r0 (xy i o)) as [b| |] eqn:E3; cbn [bind]; try discriminate.
    destruct (bounds_vb i o b E3) as [Rc ->].
    destruct st as [rs [c0|]]; cbn [fst snd option_map optRange] in *; intros [= <- <-].
    + split; [reflexivity|]. cbn [fst snd option_map optRange].
      rewrite (Extend_vb c0 (cellI i o) Hc Rc).
      split; [reflexivity|]. split; [assumption|]. now apply inRange_extendI.
    + split; [reflexivity|]. cbn [fst snd option_map optRange]. auto.
  - intros [= <- <-].
    destruct (flush_related st Hrs Hc) as [E F].
    split; [exact E|]. cbn [fst snd option_map optRange]. auto.
Qed.
End View.

(** ** From a tiling by index rectangles to a tiling by bounds *)

Lemma getCellBounds_box (r : RouteBoxer) (x y : Z) (b : Bound) :
  gapped (latGrid r) -> gapped (lngGrid r) ->
  getCellBounds r (x, y) = Ok b ->
  inLine (lngGrid r) x /\ inLine (lngGrid r) (x + 1)
  /\ inLine (latGrid r) y /\ inLine (latGrid r) (y + 1)
  /\ b = box (line (lngGrid r) x) (line (latGrid r) y)
             (line (lngGrid r) (x + 1)) (line (latGrid r) (y + 1)).
Proof.
  intros Gy Gx. unfold getCellBounds. cbn [fst snd].
  destruct (at_ (latGrid r) y) as [la0| |] eqn:E1; cbn [bind]; try discriminate.
  destruct (at_ (lngGrid r) x) as [lo0| |] eqn:E2; cbn [bind]; try discriminate.
  destruct (at_ (latGrid r) (y + 1)) as [la1| |] eqn:E3; cbn [bind]; try discriminate.
  destruct (at_ (lngGrid r) (x + 1)) as [lo1| |] eqn:E4; cbn [bind]; try discriminate.
  apply at_Ok in E1, E2, E3, E4. intros [= <-].
  pose proof (idx_Some_range _ _ _ E1). pose proof (idx_Some_range _ _ _ E2).
  pose proof (idx_Some_range _ _ _ E3). pose proof (idx_Some_range _ _ _ E4).
  pose proof (Gy _ _ _ E1 E3). pose proof (Gx _ _ _ E2 E4).
  rewrite (idx_line _ _ _ E1), (idx_line _ _ _ E2), (idx_line _ _ _ E3), (idx_line _ _ _ E4).
  repeat (split; [assumption|]).
  unfold NewBoundFromPoints, NewPointFromLatLng, Extend, box. cbn [SouthWest NorthEast Lng Lat].
  rewrite !Rmin_left, !Rmax_right by lra. reflexivity.
Qed.

Lemma getCellBounds_inLine (r : RouteBoxer) (x y : Z) :
  inLine (lngGrid r) x -> inLine (lngGrid r) (x + 1) ->
  inLine (latGrid r) y -> inLine (latGrid r) (y + 1) ->
  exists b, getCellBounds r (x, y) = Ok b.
Proof.
  intros Hx Hx1 Hy Hy1. unfold getCellBounds. cbn [fst snd].
  rewrite (at_Some _ _ _ (line_idx _ _ Hy)), (at_Some _ _ _ (line_idx _ _ Hx)),
          (at_Some _ _ _ (line_idx _ _ Hy1)), (at_Some _ _ _ (line_idx _ _ Hx1)).
  cbn [bind]. eauto.
Qed.

Lemma marked_range (r : RouteBoxer) (h : nat) (x y : Z) :
  rectangular (grid r) h -> marked r (x, y) = true ->
  (0 <= x < Z.of_nat (length (grid r)) /\ 0 <= y < Z.of_nat h)%Z.
Proof.
  intros Hr. unfold marked. cbn [fst snd].
  destruct (idx (grid r) x) as [col|] eqn:E1; [|discriminate].
  destruct (idx col y) as [v|] eqn:E2; [|discriminate]. intros _.
  pose proof (idx_Some_range _ _ _ E1) as R1. pose proof (idx_Some_range _ _ _ E2) as R2.
  rewrite <- (Hr col (idx_In _ _ _ E1)). unfold len in *. lia.
Qed.

Section Tiling.
Variables il ol : list R.
Variable mkB : R -> R -> R -> R -> Bound.
Hypothesis il_gapped : gapped il.
Hypothesis ol_gapped : gapped ol.
Hypothesis covers_mkB : forall a b c d a' b' c' d',
  covers (mkB a b c d) (mkB a' b' c' d') <-> (a <= a' /\ c' <= c /\ b <= b' /\ d' <= d).
Hypothesis overlap_mkB : forall a b c d a' b' c' d',
  overlap (mkB a b c d) (mkB a' b' c' d') <-> (a < c' /\ a' < c /\ b < d' /\ b' < d).
Variable r : RouteBoxer.
Variable xy : Z -> Z -> cell.
Hypothesis xy_onto : forall c, exists i o, c = xy i o.
Hypothesis bounds_vb : forall i o b,
  getCellBounds r (xy i o) = Ok b ->
  inRange il ol (cellI i o) /\ b = vb il ol mkB (cellI i o).
Hypothesis bounds_ok : forall i o,
  inRange il ol (cellI i o) -> exists b, getCellBounds r (xy i o) = Ok b.
Variable rs : list rect.
Hypothesis rs_range : Forall (inRange il ol) rs.
Hypothesis rs_wf : Forall wfR rs.
Hypothesis rs_apart : pairwise apart rs.
Hypothesis rs_cov : forall i o, cov rs i o <-> marked r (xy i o) = true.

Lemma tiling_of_rects : exactTiling r (map (vb il ol mkB) rs).
Proof.
  assert (Hin : forall k b, idx (map (vb il ol mkB) rs) k = Some b ->
                  exists q, idx rs k = Some q /\ b = vb il ol mkB q /\ inRange il ol q /\ wfR q).
  { intros k b. rewrite idx_map. destruct (idx rs k) as [q|] eqn:E; [|discriminate].
    intros [= <-]. exists q. pose proof (idx_In _ _ _ E) as I.
    rewrite Forall_forall in rs_range, rs_wf. auto. }
  split; [|split].
  - intros i j b1 b2 H1 H2 Hne Hov.
    destruct (Hin _ _ H1) as (q1 & E1 & -> & R1 & W1).
    destruct (Hin _ _ H2) as (q2 & E2 & -> & R2 & W2).
    destruct (overlap_vb il ol mkB il_gapped ol_gapped overlap_mkB q1 q2 R1 R2 W1 W2 Hov)
      as (a & b & Ha & Hb).
    exact (pairwise_idx apart rs apart_sym rs_apart i j q1 q2 E1 E2 Hne a b (conj Ha Hb)).
  - intros c Hm. destruct (xy_onto c) as (i & o & ->).
    destruct (proj2 (rs_cov i o) Hm) as (q & Iq & Hq).
    rewrite Forall_forall in rs_range, rs_wf.
    pose proof (rs_range q Iq) as Rq.
    assert (Rc : inRange il ol (cellI i o)).
    { destruct Rq as (A1 & A2 & A3 & A4). unfold inRange, inLine, inR, cellI in *.
      cbn [i1 i2 o1 o2]. lia. }
    destruct (bounds_ok i o Rc) as [cb Hcb].
    destruct (bounds_vb i o cb Hcb) as [_ ->].
    destruct (In_idx _ _ Iq) as [k Hk].
    exists (vb il ol mkB (cellI i o)), k, (vb il ol mkB q).
    split; [exact Hcb|]. split; [rewrite idx_map, Hk; reflexivity|].
    split; [apply (covers_vb il ol mkB il_gapped ol_gapped covers_mkB); auto|].
    intros j b' Hj Hc. destruct (Hin _ _ Hj) as (q' & E' & -> & R' & W').
    apply (covers_vb il ol mkB il_gapped ol_gapped covers_mkB) in Hc; auto.
    destruct (Z.eq_dec j k) as [|Hne]; [assumption|]. exfalso.
    exact (pairwise_idx apart rs apart_sym rs_apart j k q' q E' Hk Hne i o (conj Hc Hq)).
  - intros c cb b Hm Hcb Hb Hc. destruct (xy_onto c) as (i & o & ->).
    destruct (bounds_vb i o cb Hcb) as [Rc ->].
    apply in_map_iff in Hb. destruct Hb as (q & <- & Iq).
    rewrite Forall_forall in rs_range.
    apply (covers_vb il ol mkB il_gapped ol_gapped covers_mkB) in Hc; auto.
    assert (Hm' : marked r (xy i o) = true) by (apply rs_cov; exists q; auto).
    congruence.
Qed.
End Tiling.

(** ** The two passes *)

Lemma matchY_rowBox a b c d a' b' c' d' :
  matchY (rowBox a b c d) (rowBox a' b' c' d') = near d b' && near a a' && near c c'.
Proof. reflexivity. Qed.

Lemma matchX_colBox a b c d a' b' c' d' :
  matchX (colBox a b c d) (colBox a' b' c' d') = near d b' && near a a' && near c c'.
Proof. reflexivity. Qed.

Lemma Extend_rowBox a b c d a' b' c' d' :
  Extend (rowBox a b c d) (NorthEast (rowBox a' b' c' d'))
  = rowBox (Rmin a c') (Rmin b d') (Rmax c c') (Rmax d d').
Proof. reflexivity. Qed.

Lemma Extend_colBox a b c d a' b' c' d' :
  Extend (colBox a b c d) (NorthEast (colBox a' b' c' d'))
  = colBox (Rmin a c') (Rmin b d') (Rmax c c') (Rmax d d').
Proof. reflexivity. Qed.

Lemma covers_rowBox a b c d a' b' c' d' :
  covers (rowBox a b c d) (rowBox a' b' c' d') <-> (a <= a' /\ c' <= c /\ b <= b' /\ d' <= d).
Proof. unfold covers, rowBox, box. cbn [SouthWest NorthEast Lng Lat]. tauto. Qed.

Lemma covers_colBox a b c d a' b' c' d' :
  covers (colBox a b c d) (colBox a' b' c' d') <-> (a <= a' /\ c' <= c /\ b <= b' /\ d' <= d).
Proof. unfold covers, colBox, box. cbn [SouthWest NorthEast Lng Lat]. tauto. Qed.

Lemma overlap_rowBox a b c d a' b' c' d' :
  overlap (rowBox a b c d) (rowBox a' b' c' d') <-> (a < c' /\ a' < c /\ b < d' /\ b' < d).
Proof. unfold overlap, rowBox, box. cbn [SouthWest NorthEast Lng Lat]. tauto. Qed.

Lemma overlap_colBox a b c d a' b' c' d' :
  overlap (colBox a b c d) (colBox a' b' c' d') <-> (a < c' /\ a' < c /\ b < d' /\ b' < d).
Proof. unfold overlap, colBox, box. cbn [SouthWest NorthEast Lng Lat]. tauto. Qed.

Section Passes.
Variable r0 : RouteBoxer.
Hypothesis lat_gapped : gapped (latGrid r0).
Hypothesis lng_gapped : gapped (lngGrid r0).

Lemma row_bounds_vb (i o : Z) (b : Bound) :
  getCellBounds r0 (rowXY i o) = Ok b ->
  inRange (lngGrid r0) (latGrid r0) (cellI i o)
  /\ b = vb (lngGrid r0) (latGrid r0) rowBox (cellI i o).
Proof.
  intros H. destruct (getCellBounds_box r0 i o b lat_gapped lng_gapped H)
    as (A & B & C & D & ->).
  split; [unfold inRange, cellI; cbn [i1 i2 o1 o2]; auto | reflexivity].
Qed.

Lemma col_bounds_vb (i o : Z) (b : Bound) :
  getCellBounds r0 (colXY i o) = Ok b ->
  inRange (latGrid r0) (lngGrid r0) (cellI i o)
  /\ b = vb (latGrid r0) (lngGrid r0) colBox (cellI i o).
Proof.
  intros H. destruct (getCellBounds_box r0 o i b lat_gapped lng_gapped H)
    as (A & B & C & D & ->).
  split; [unfold inRange, cellI; cbn [i1 i2 o1 o2]; auto | reflexivity].
Qed.

Lemma row_bounds_ok (i o : Z) :
  inRange (lngGrid r0) (latGrid r0) (cellI i o) -> exists b, getCellBounds r0 (rowXY i o) = Ok b.
Proof.
  intros (A & B & C & D). cbn [cellI i1 i2 o1 o2] in *. now apply getCellBounds_inLine.
Qed.

Lemma col_bounds_ok (i o : Z) :
  inRange (latGrid r0) (lngGrid r0) (cellI i o) -> exists b, getCellBounds r0 (colXY i o) = Ok b.
Proof.
  intros (A & B & C & D). cbn [cellI i1 i2 o1 o2] in *. now apply getCellBounds_inLine.
Qed.

Lemma mergeBoxesY_set (acc : list Bound) (cur : option Bound) :
  mergeBoxesY (set_boxesY r0 acc) cur
  = set_boxesY r0 (match cur with None => acc | Some b => mergeInto matchY acc b end).
Proof. destruct cur; reflexivity. Qed.

Lemma mergeBoxesX_set (acc : list Bound) (cur : option Bound) :
  mergeBoxesX (set_boxesX r0 acc) cur
  = set_boxesX r0 (match cur with None => acc | Some b => mergeInto matchX acc b end).
Proof. destruct cur; reflexivity. Qed.

Lemma row_step (r : RouteBoxer) (cur : option Bound) (st : list rect * option rect)
  (x y : Z) (r' : RouteBoxer) (cur' : option Bound) :
  rowRel r0 r cur st -> cellStep mergeBoxesY r cur x y = Ok (r', cur') ->
  rowRel r0 r' cur' (stepI (rowMk r0) st x y).
Proof.
  intros HR HS.
  exact (cellStep_related (lngGrid r0) (latGrid r0) rowBox matchY lng_gapped lat_gapped
           matchY_rowBox Extend_rowBox r0 set_boxesY mergeBoxesY rowXY mergeBoxesY_set
           (fun _ => eq_refl) (fun _ _ => eq_refl) row_bounds_vb r cur st x y r' cur' HR HS).
Qed.

Lemma col_step (r : RouteBoxer) (cur : option Bound) (st : list rect * option rect)
  (x y : Z) (r' : RouteBoxer) (cur' : option Bound) :
  colRel r0 r cur st -> cellStep mergeBoxesX r cur x y = Ok (r', cur') ->
  colRel r0 r' cur' (stepI (colMk r0) st y x).
Proof.
  intros HR HS.
  exact (cellStep_related (latGrid r0) (lngGrid r0) colBox matchX lat_gapped lng_gapped
           matchX_colBox Extend_colBox r0 set_boxesX mergeBoxesX colXY mergeBoxesX_set
           (fun _ => eq_refl) (fun _ _ => eq_refl) col_bounds_vb r cur st y x r' cur' HR HS).
Qed.

Lemma rowInner_related (n : nat) :
  forall r cur st x y r' cur',
    rowRel r0 r cur st -> rowInner n r cur x y = Ok (r', cur') ->
    rowRel r0 r' cur' (innerI (rowMk r0) n st x y).
Proof.
  induction n as [|n IH]; intros r cur st x y r' cur' HR HL; cbn [rowInner innerI] in *.
  - injection HL as <- <-. exact HR.
  - destruct (cellStep mergeBoxesY r cur x y) as [[r1 cur1]| |] eqn:E; cbn [bind] in HL;
      try discriminate.
    cbn [fst snd] in HL. eapply IH; [|exact HL]. eapply row_step; eauto.
Qed.

Lemma colInner_related (n : nat) :
  forall r cur st x y r' cur',
    colRel r0 r cur st -> colInner n r cur x y = Ok (r', cur') ->
    colRel r0 r' cur' (innerI (colMk r0) n st y x).
Proof.
  induction n as [|n IH]; intros r cur st x y r' cur' HR HL; cbn [colInner innerI] in *.
  - injection HL as <- <-. exact HR.
  - destruct (cellStep mergeBoxesX r cur x y) as [[r1 cur1]| |] eqn:E; cbn [bind] in HL;
      try discriminate.
    cbn [fst snd] in HL. eapply IH; [|exact HL]. eapply col_step; eauto.
Qed.

Lemma rowOuter_related (n : nat) :
  forall r rs y r',
    r = set_boxesY r0 (map (vb (lngGrid r0) (latGrid r0) rowBox) rs) ->
    Forall (inRange (lngGrid r0) (latGrid r0)) rs ->
    rowOuter n r y = Ok r' ->
    r' = set_boxesY r0 (map (vb (lngGrid r0) (latGrid r0) rowBox)
                          (outerI (rowMk r0) n (length (grid r0)) rs y))
    /\ Forall (inRange (lngGrid r0) (latGrid r0))
              (outerI (rowMk r0) n (length (grid r0)) rs y).
Proof.
  induction n as [|n IH]; intros r rs y r' Er Hrs HL; cbn [rowOuter outerI] in *.
  - injection HL as <-. auto.
  - destruct (rowInner (length (grid r)) r None 0 y) as [[r1 cur1]| |] eqn:E; cbn [bind] in HL;
      try discriminate.
    cbn [fst snd] in HL.
    assert (HR : rowRel r0 r None (rs, None)).
    { split; [exact Er|]. split; [reflexivity|]. split; [exact Hrs | exact I]. }
    pose proof (rowInner_related _ _ _ _ _ _ _ _ HR E) as (E1 & E2 & F1 & F2).
    replace (length (grid r)) with (length (grid r0)) in * by (subst r; reflexivity).
    set (st := innerI (rowMk r0) (length (grid r0)) (rs, None) 0 y) in *.
    destruct (flush_related (lngGrid r0) (latGrid r0) rowBox matchY lng_gapped lat_gapped
                matchY_rowBox Extend_rowBox r0 set_boxesY mergeBoxesY mergeBoxesY_set st F1 F2)
      as [EF FF].
    subst r1 cur1. rewrite EF in HL.
    exact (IH _ _ _ _ eq_refl FF HL).
Qed.

Lemma colOuter_related (n h : nat) :
  forall r rs x r',
    r = set_boxesX r0 (map (vb (latGrid r0) (lngGrid r0) colBox) rs) ->
    Forall (inRange (latGrid r0) (lngGrid r0)) rs ->
    colOuter n h r x = Ok r' ->
    r' = set_boxesX r0 (map (vb (latGrid r0) (lngGrid r0) colBox) (outerI (colMk r0) n h rs x))
    /\ Forall (inRange (latGrid r0) (lngGrid r0)) (outerI (colMk r0) n h rs x).
Proof.
  induction n as [|n IH]; intros r rs x r' Er Hrs HL; cbn [colOuter outerI] in *.
  - injection HL as <-. auto.
  - destruct (colInner h r None x 0) as [[r1 cur1]| |] eqn:E; cbn [bind] in HL;
      try discriminate.
    cbn [fst snd] in HL.
    assert (HR : colRel r0 r None (rs, None)).
    { split; [exact Er|]. split; [reflexivity|]. split; [exact Hrs | exact I]. }
    pose proof (colInner_related _ _ _ _ _ _ _ _ HR E) as (E1 & E2 & F1 & F2).
    set (st := innerI (colMk r0) h (rs, None) 0 x) in *.
    destruct (flush_related (latGrid r0) (lngGrid r0) colBox matchX lat_gapped lng_gapped
                matchX_colBox Extend_colBox r0 set_boxesX mergeBoxesX mergeBoxesX_set st F1 F2)
      as [EF FF].
    subst r1 cur1. rewrite EF in HL.
    exact (IH _ _ _ _ eq_refl FF HL).
Qed.
End Passes.

Lemma set_boxesY_same (r : RouteBoxer) : boxesY r = [] -> r = set_boxesY r [].
Proof. destruct r. cbn. intros ->. reflexivity. Qed.

Lemma set_boxesX_same (r : RouteBoxer) : boxesX r = [] -> r = set_boxesX r [].
Proof. destruct r. cbn. intros ->. reflexivity. Qed.

(** Started with empty accumulators on gapped lines and a rectangular
    coverage grid, both passes tile the marked cells. *)
Lemma mergeIntersectingCells_tiles (r r' : RouteBoxer) (h : nat) :
  boxesX r = [] -> boxesY r = [] ->
  gapped (latGrid r) -> gapped (lngGrid r) ->
  rectangular (grid r) h -> (exists g0, idx (grid r) 0 = Some g0 /\ length g0 = h) ->
  mergeIntersectingCells r = Ok r' ->
  exactTiling r' (boxesX r') /\ exactTiling r' (boxesY r').
Proof.
  intros BX BY Gy Gx Hrect (g0 & Hg0 & Hh) HM.
  unfold mergeIntersectingCells in HM. rewrite (at_Some _ _ _ Hg0) in HM. cbn [bind] in HM.
  rewrite Hh in HM.
  destruct (rowOuter h r 0) as [r1| |] eqn:ER; cbn [bind] in HM; try discriminate.
  destruct (rowOuter_related r Gy Gx h r [] 0%Z r1 (set_boxesY_same r BY) (Forall_nil _) ER)
    as [E1 F1].
  set (rsY := outerI (rowMk r) h (length (grid r)) [] 0) in *.
  assert (Gy1 : gapped (latGrid r1)) by (subst r1; exact Gy).
  assert (Gx1 : gapped (lngGrid r1)) by (subst r1; exact Gx).
  assert (BX1 : boxesX r1 = []) by (subst r1; exact BX).
  destruct (colOuter_related r1 Gy1 Gx1 (length (grid r1)) h r1 [] 0%Z r'
              (set_boxesX_same r1 BX1) (Forall_nil _) HM) as [E2 F2].
  set (rsX := outerI (colMk r1) (length (grid r1)) h [] 0) in *.
  destruct (outerI_tiles (rowMk r) (length (grid r)) h) as (WY & PY & CY). fold rsY in WY, PY, CY.
  destruct (outerI_tiles (colMk r1) h (length (grid r1))) as (WX & PX & CX).
  fold rsX in WX, PX, CX.
  assert (EG : grid r' = grid r) by (subst r' r1; reflexivity).
  assert (EM : forall c, marked r' c = marked r c) by (intros c; unfold marked; now rewrite EG).
  assert (EB : forall c, getCellBounds r' c = getCellBounds r c) by (subst r' r1; reflexivity).
  assert (EY : boxesY r' = map (vb (lngGrid r) (latGrid r) rowBox) rsY)
    by (subst r' r1; reflexivity).
  assert (EX : boxesX r' = map (vb (latGrid r) (lngGrid r) colBox) rsX)
    by (rewrite E2; subst r1; reflexivity).
  rewrite EX, EY. split.
  - apply (tiling_of_rects (latGrid r) (lngGrid r) colBox Gy Gx covers_colBox overlap_colBox
             r' colXY).
    + intros [x y]. exists y, x. reflexivity.
    + intros i o b. rewrite EB. apply col_bounds_vb; assumption.
    + intros i o. rewrite EB. apply col_bounds_ok.
    + subst r1. exact F2.
    + exact WX.
    + exact PX.
    + intros i o. rewrite CX, EM. unfold colMk, colXY. subst r1.
      change (marked (set_boxesY r (map (vb (lngGrid r) (latGrid r) rowBox) rsY)) (o, i))
        with (marked r (o, i)).
      change (length (grid (set_boxesY r (map (vb (lngGrid r) (latGrid r) rowBox) rsY))))
        with (length (grid r)).
      split; [tauto|]. intros Hm.
      pose proof (marked_range r h o i Hrect Hm). tauto.
  - apply (tiling_of_rects (lngGrid r) (latGrid r) rowBox Gx Gy covers_rowBox overlap_rowBox
             r' rowXY).
    + intros [x y]. exists x, y. reflexivity.
    + intros i o b. rewrite EB. apply row_bounds_vb; assumption.
    + intros i o. rewrite EB. apply row_bounds_ok.
    + exact F1.
    + exact WY.
    + exact PY.
    + intros i o. rewrite CY, EM. unfold rowMk, rowXY.
      split; [tauto|]. intros Hm.
      pose proof (marked_range r h i o Hrect Hm). tauto.
Qed.

(** ** What each stage leaves unchanged *)

Lemma gridOnly_refl (r : RouteBoxer) : gridOnly r r.
Proof. split; [destruct r; reflexivity | reflexivity]. Qed.

Lemma gridOnly_trans (r1 r2 r3 : RouteBoxer) : gridOnly r1 r2 -> gridOnly r2 r3 -> gridOnly r1 r3.
Proof.
  intros [E1 S1] [E2 S2]. split.
  - rewrite E2. rewrite E1 at 1. reflexivity.
  - unfold sameShape in *. congruence.
Qed.

Lemma setCell_shape (g g' : list (list Z)) (x y : Z) :
  setCell g x y = Ok g' -> sameShape g g'.
Proof.
  unfold setCell, sameShape.
  destruct (at_ g x) as [col| |] eqn:E1; cbn [bind]; try discriminate.
  destruct (at_ col y) as [v| |] eqn:E2; cbn [bind]; try discriminate.
  intros [= <-]. apply at_Ok in E1. unfold idx, upd in *.
  destruct (x <? 0)%Z; [discriminate|].
  apply (map_upd_nat _ _ _ _ col E1).
  destruct (y <? 0)%Z; [reflexivity | apply length_upd_nat].
Qed.

Lemma markCell_gridOnly (r r' : RouteBoxer) (c : cell) :
  markCell r c = Ok r' -> gridOnly r r'.
Proof.
  rewrite markCell_markGrid. unfold markGrid.
  repeat (match goal with
          | |- context [setCell ?g ?x ?y] =>
              let E := fresh "E" in
              destruct (setCell g x y) eqn:E; cbn [bind]; try discriminate;
              apply setCell_shape in E
          end).
  intros [= <-]. split; [reflexivity|]. cbn [grid set_grid]. unfold sameShape in *. congruence.
Qed.

Lemma fillUp_gridOnly (n : nat) : forall r x y r', fillUp n r x y = Ok r' -> gridOnly r r'.
Proof.
  induction n as [|n IH]; intros r x y r'; cbn [fillUp].
  - intros [= <-]. apply gridOnly_refl.
  - destruct (markCell r (x, y)) as [r1| |] eqn:E; cbn [bind]; try discriminate.
    intros H. eapply gridOnly_trans; [eapply markCell_gridOnly; eauto | eapply IH; eauto].
Qed.

Lemma fillDown_gridOnly (n : nat) : forall r x y r', fillDown n r x y = Ok r' -> gridOnly r r'.
Proof.
  induction n as [|n IH]; intros r x y r'; cbn [fillDown].
  - intros [= <-]. apply gridOnly_refl.
  - destruct (markCell r (x, y)) as [r1| |] eqn:E; cbn [bind]; try discriminate.
    intros H. eapply gridOnly_trans; [eapply markCell_gridOnly; eauto | eapply IH; eauto].
Qed.

Lemma fillInGridSquares_gridOnly (r r' : RouteBoxer) (sx ex y : Z) :
  fillInGridSquares r sx ex y = Ok r' -> gridOnly r r'.
Proof.
  unfold fillInGridSquares. destruct (sx <? ex)%Z;
    [apply fillUp_gridOnly | apply fillDown_gridOnly].
Qed.

Lemma intersectsNorth_gridOnly (n : nat) :
  forall r start brng hint hintXY i r' c' i',
    intersectsNorth n r start brng hint hintXY i = Ok (r', c', i') -> gridOnly r r'.
Proof.
  induction n as [|n IH]; intros r start brng hint hintXY i r' c' i'; cbn [intersectsNorth].
  - intros [= <- _ _]. apply gridOnly_refl.
  - destruct (at_ (latGrid r) i) as [gl| |]; cbn [bind]; try discriminate.
    destruct (getGridCoordsFromHint r _ hint hintXY) as [e| |]; cbn [bind]; try discriminate.
    destruct (fillInGridSquares r _ _ _) as [r1| |] eqn:E; cbn [bind]; try discriminate.
    intros H. eapply gridOnly_trans; [eapply fillInGridSquares_gridOnly; eauto | eapply IH; eauto].
Qed.

Lemma intersectsSouth_gridOnly (n : nat) :
  forall r start brng hint hintXY i r' c' i',
    intersectsSouth n r start brng hint hintXY i = Ok (r', c', i') -> gridOnly r r'.
Proof.
  induction n as [|n IH]; intros r start brng hint hintXY i r' c' i'; cbn [intersectsSouth].
  - intros [= <- _ _]. apply gridOnly_refl.
  - destruct (at_ (latGrid r) i) as [gl| |]; cbn [bind]; try discriminate.
    destruct (getGridCoordsFromHint r _ hint hintXY) as [e| |]; cbn [bind]; try discriminate.
    destruct (fillInGridSquares r _ _ _) as [r1| |] eqn:E; cbn [bind]; try discriminate.
    intros H. eapply gridOnly_trans; [eapply fillInGridSquares_gridOnly; eauto | eapply IH; eauto].
Qed.

Lemma getGridIntersects_gridOnly (r r' : RouteBoxer) (s e : Point) (sXY eXY : cell) :
  getGridIntersects r s e sXY eXY = Ok r' -> gridOnly r r'.
Proof.
  unfold getGridIntersects. destruct (Rlt_dec (Lat s) (Lat e)).
  - destruct (intersectsNorth _ _ _ _ _ _ _) as [[[r1 c1] k1]| |] eqn:E; cbn [bind];
      try discriminate.
    intros H. eapply gridOnly_trans;
      [eapply intersectsNorth_gridOnly; eauto | eapply fillInGridSquares_gridOnly; eauto].
  - destruct (intersectsSouth _ _ _ _ _ _ _) as [[[r1 c1] k1]| |] eqn:E; cbn [bind];
      try discriminate.
    intros H. eapply gridOnly_trans;
      [eapply intersectsSouth_gridOnly; eauto | eapply fillInGridSquares_gridOnly; eauto].
Qed.

Lemma traceVertices_gridOnly (vs : list Point) :
  forall r prev hintXY r', traceVertices r prev hintXY vs = Ok r' -> gridOnly r r'.
Proof.
  induction vs as [|v rest IH]; intros r prev hintXY r'; cbn [traceVertices].
  - intros [= <-]. apply gridOnly_refl.
  - destruct (getGridCoordsFromHint r v prev hintXY) as [gxy| |]; cbn [bind]; try discriminate.
    match goal with |- context [bind ?m _] => destruct m as [r1| |] eqn:E end;
      cbn [bind]; try discriminate.
    intros H. eapply gridOnly_trans; [|eapply IH; eauto].
    destruct ((fst gxy =? fst hintXY)%Z && (snd gxy =? snd hintXY)%Z).
    + injection E as <-. apply gridOnly_refl.
    + destruct (((fst hintXY - fst gxy =? 1)%Z && (snd hintXY =? snd gxy)%Z)
                || ((fst hintXY =? fst gxy)%Z && (snd hintXY - snd gxy =? 1)%Z)).
      * eapply markCell_gridOnly; eauto.
      * eapply getGridIntersects_gridOnly; eauto.
Qed.

Lemma FindIntersectingCells_gridOnly (r r' : RouteBoxer) :
  FindIntersectingCells r = Ok r' -> gridOnly r r'.
Proof.
  unfold FindIntersectingCells. destruct (vertices r) as [|v0 rest]; [discriminate|].
  destruct (getCellCoords r v0) as [h| |]; cbn [bind]; try discriminate.
  destruct (markCell r h) as [r1| |] eqn:E; cbn [bind]; try discriminate.
  intros H. eapply gridOnly_trans; [eapply markCell_gridOnly; eauto |
                                    eapply traceVertices_gridOnly; eauto].
Qed.

Lemma covers_refl (b : Bound) : covers b b.
Proof. unfold covers. lra. Qed.

Lemma covers_trans (a b c : Bound) : covers a b -> covers b c -> covers a c.
Proof. unfold covers. lra. Qed.

Lemma covers_Extend (b : Bound) (p : Point) : covers (Extend b p) b.
Proof.
  unfold covers, Extend. cbn [SouthWest NorthEast Lng Lat].
  repeat split; first [apply Rmin_l | apply Rmax_l].
Qed.

Lemma extendsAcc_refl (acc : list Bound) : extendsAcc acc acc.
Proof. split; [lia|]. intros i b H. exists b. split; [assumption | apply covers_refl]. Qed.

Lemma extendsAcc_trans (a b c : list Bound) : extendsAcc a b -> extendsAcc b c -> extendsAcc a c.
Proof.
  intros [L1 H1] [L2 H2]. split; [lia|]. intros i x Hx.
  destruct (H1 i x Hx) as (y & Hy & C1). destruct (H2 i y Hy) as (z & Hz & C2).
  exists z. split; [assumption | eapply covers_trans; eauto].
Qed.

Lemma mergeInto_extends (test : Bound -> Bound -> bool) (acc : list Bound) (b0 : Bound) :
  extendsAcc acc (mergeInto test acc b0).
Proof.
  induction acc as [|h t IH]; cbn [mergeInto].
  - split; [cbn; lia|]. intros i b H. apply idx_Some_range in H. unfold len in H. cbn in H. lia.
  - destruct (test h b0).
    + split; [cbn; lia|]. intros i b H.
      pose proof (idx_Some_range _ _ _ H) as R.
      destruct (Z.eq_dec i 0) as [->|Hne].
      * rewrite idx_cons_0 in H. injection H as <-.
        exists (Extend h (NorthEast b0)). split; [reflexivity | apply covers_Extend].
      * rewrite idx_cons_pos in H by lia. exists b.
        split; [rewrite idx_cons_pos by lia; assumption | apply covers_refl].
    + destruct IH as [L IH]. split; [cbn; lia|]. intros i b H.
      pose proof (idx_Some_range _ _ _ H) as R.
      destruct (Z.eq_dec i 0) as [->|Hne].
      * rewrite idx_cons_0 in H. injection H as <-.
        exists h. split; [reflexivity | apply covers_refl].
      * rewrite idx_cons_pos in H by lia. destruct (IH _ _ H) as (b' & Hb' & C).
        exists b'. split; [rewrite idx_cons_pos by lia; assumption | assumption].
Qed.

Lemma onlyBoxesY_refl (r : RouteBoxer) : onlyBoxesY r r.
Proof. split; [destruct r; reflexivity | apply extendsAcc_refl]. Qed.

Lemma onlyBoxesX_refl (r : RouteBoxer) : onlyBoxesX r r.
Proof. split; [destruct r; reflexivity | apply extendsAcc_refl]. Qed.

Lemma onlyBoxesY_trans (r1 r2 r3 : RouteBoxer) :
  onlyBoxesY r1 r2 -> onlyBoxesY r2 r3 -> onlyBoxesY r1 r3.
Proof.
  intros [E1 S1] [E2 S2]. split; [|eapply extendsAcc_trans; eauto].
  rewrite E2. rewrite E1 at 1. reflexivity.
Qed.

Lemma onlyBoxesX_trans (r1 r2 r3 : RouteBoxer) :
  onlyBoxesX r1 r2 -> onlyBoxesX r2 r3 -> onlyBoxesX r1 r3.
Proof.
  intros [E1 S1] [E2 S2]. split; [|eapply extendsAcc_trans; eauto].
  rewrite E2. rewrite E1 at 1. reflexivity.
Qed.

Lemma mergeBoxesY_only (r : RouteBoxer) (cur : option Bound) : onlyBoxesY r (mergeBoxesY r cur).
Proof.
  destruct cur as [b|]; cbn [mergeBoxesY]; [|apply onlyBoxesY_refl].
  split; [reflexivity | apply mergeInto_extends].
Qed.

Lemma mergeBoxesX_only (r : RouteBoxer) (cur : option Bound) : onlyBoxesX r (mergeBoxesX r cur).
Proof.
  destruct cur as [b|]; cbn [mergeBoxesX]; [|apply onlyBoxesX_refl].
  split; [reflexivity | apply mergeInto_extends].
Qed.

Lemma cellStep_frame (merge : RouteBoxer -> option Bound -> RouteBoxer)
  (P : RouteBoxer -> RouteBoxer -> Prop) (r : RouteBoxer) (cur : option Bound) (x y : Z)
  (r' : RouteBoxer) (cur' : option Bound) :
  P r r -> (forall c, P r (merge r c)) ->
  cellStep merge r cur x y = Ok (r', cur') -> P r r'.
Proof.
  intros Hrefl Hmerge. unfold cellStep.
  destruct (at_ (grid r) x) as [col| |]; cbn [bind]; try discriminate.
  destruct (at_ col y) as [c| |]; cbn [bind]; try discriminate.
  destruct (c =? 1)%Z.
  - destruct (getCellBounds r (x, y)) as [b| |]; cbn [bind]; try discriminate.
    destruct cur; intros [= <- _]; exact Hrefl.
  - intros [= <- _]. apply Hmerge.
Qed.

Lemma rowInner_frame (n : nat) :
  forall r cur x y r' cur', rowInner n r cur x y = Ok (r', cur') -> onlyBoxesY r r'.
Proof.
  induction n as [|n IH]; intros r cur x y r' cur'; cbn [rowInner].
  - intros [= <- _]. apply onlyBoxesY_refl.
  - destruct (cellStep mergeBoxesY r cur x y) as [[r1 c1]| |] eqn:E; cbn [bind]; try discriminate.
    cbn [fst snd]. intros H. eapply onlyBoxesY_trans; [|eapply IH; eauto].
    eapply (cellStep_frame mergeBoxesY onlyBoxesY); eauto using onlyBoxesY_refl, mergeBoxesY_only.
Qed.

Lemma colInner_frame (n : nat) :
  forall r cur x y r' cur', colInner n r cur x y = Ok (r', cur') -> onlyBoxesX r r'.
Proof.
  induction n as [|n IH]; intros r cur x y r' cur'; cbn [colInner].
  - intros [= <- _]. apply onlyBoxesX_refl.
  - destruct (cellStep mergeBoxesX r cur x y) as [[r1 c1]| |] eqn:E; cbn [bind]; try discriminate.
    cbn [fst snd]. intros H. eapply onlyBoxesX_trans; [|eapply IH; eauto].
    eapply (cellStep_frame mergeBoxesX onlyBoxesX); eauto using onlyBoxesX_refl, mergeBoxesX_only.
Qed.

Lemma rowOuter_frame (n : nat) :
  forall r y r', rowOuter n r y = Ok r' -> onlyBoxesY r r'.
Proof.
  induction n as [|n IH]; intros r y r'; cbn [rowOuter].
  - intros [= <-]. apply onlyBoxesY_refl.
  - destruct (rowInner (length (grid r)) r None 0 y) as [[r1 c1]| |] eqn:E; cbn [bind];
      try discriminate.
    cbn [fst snd]. intros H.
    eapply onlyBoxesY_trans; [eapply rowInner_frame; eauto|].
    eapply onlyBoxesY_trans; [apply mergeBoxesY_only | eapply IH; eauto].
Qed.

Lemma colOuter_frame (n h : nat) :
  forall r x r', colOuter n h r x = Ok r' -> onlyBoxesX r r'.
Proof.
  induction n as [|n IH]; intros r x r'; cbn [colOuter].
  - intros [= <-]. apply onlyBoxesX_refl.
  - destruct (colInner h r None x 0) as [[r1 c1]| |] eqn:E; cbn [bind]; try discriminate.
    cbn [fst snd]. intros H.
    eapply onlyBoxesX_trans; [eapply colInner_frame; eauto|].
    eapply onlyBoxesX_trans; [apply mergeBoxesX_only | eapply IH; eauto].
Qed.

(** The two passes of [mergeIntersectingCells]: the first scans the rows and
    writes only [boxesY], the second scans the columns and writes only
    [boxesX]. *)
Lemma mergeIntersectingCells_passes (r r' : RouteBoxer) :
  mergeIntersectingCells r = Ok r' ->
  exists g0 r1,
    idx (grid r) 0 = Some g0
    /\ rowOuter (length g0) r 0 = Ok r1 /\ onlyBoxesY r r1
    /\ colOuter (length (grid r1)) (length g0) r1 0 = Ok r' /\ onlyBoxesX r1 r'.
Proof.
  unfold mergeIntersectingCells.
  destruct (at_ (grid r) 0) as [g0| |] eqn:E0; cbn [bind]; try discriminate.
  destruct (rowOuter (length g0) r 0) as [r1| |] eqn:E1; cbn [bind]; try discriminate.
  intros H. exists g0, r1. apply at_Ok in E0.
  repeat split; auto; try (eapply rowOuter_frame; eauto); try (eapply colOuter_frame; eauto).
Qed.

Lemma growAppend_frame (fuel : nat) (ln : Z -> R) (edge : R) :
  forall i g g', growAppend fuel ln edge i g = Ok g' -> exists post, g' = g ++ post.
Proof.
  induction fuel as [|fuel IH]; intros i g g'; cbn [growAppend]; [discriminate|].
  destruct (at_ g (i - 2)) as [v| |]; cbn [bind]; try discriminate.
  destruct (Rlt_dec v edge).
  - intros H. destruct (IH _ _ _ H) as [post ->]. exists ([ln i] ++ post).
    now rewrite app_assoc.
  - intros [= <-]. exists []. now rewrite app_nil_r.
Qed.

Lemma growPrepend_frame (fuel : nat) (ln : Z -> R) (edge : R) :
  forall i g g', growPrepend fuel ln edge i g = Ok g' -> exists pre, g' = pre ++ g.
Proof.
  induction fuel as [|fuel IH]; intros i g g'; cbn [growPrepend]; [discriminate|].
  destruct (at_ g 1) as [v| |]; cbn [bind]; try discriminate.
  destruct (Rlt_dec edge v).
  - intros H. destruct (IH _ _ _ H) as [pre ->]. exists (pre ++ [ln i]).
    now rewrite <- app_assoc.
  - intros [= <-]. now exists [].
Qed.

Lemma buildGrid_frame (fuel : nat) (r r' : RouteBoxer) :
  buildGrid fuel r = Ok r' ->
  distanceRange r' = distanceRange r /\ vertices r' = vertices r
  /\ boxesX r' = boxesX r /\ boxesY r' = boxesY r
  /\ linesGrown (latGrid r) (latGrid r') /\ linesGrown (lngGrid r) (lngGrid r')
  /\ grid r' = repeat (repeat 0%Z (length (latGrid r'))) (length (lngGrid r')).
Proof.
  unfold buildGrid. cbv zeta.
  match goal with |- bind ?m _ = _ -> _ => destruct m as [lat2| |] eqn:E1 end;
    cbn [bind]; try discriminate.
  match goal with |- bind ?m _ = _ -> _ => destruct m as [lat3| |] eqn:E2 end;
    cbn [bind]; try discriminate.
  match goal with |- bind ?m _ = _ -> _ => destruct m as [lng2| |] eqn:E3 end;
    cbn [bind]; try discriminate.
  match goal with |- bind ?m _ = _ -> _ => destruct m as [lng3| |] eqn:E4 end;
    cbn [bind]; try discriminate.
  intros [= <-]. cbn [distanceRange vertices boxesX boxesY latGrid lngGrid grid
                      set_grid set_lngGrid set_latGrid].
  destruct (growAppend_frame _ _ _ _ _ _ E1) as [p1 ->].
  destruct (growPrepend_frame _ _ _ _ _ _ E2) as [q1 ->].
  destruct (growAppend_frame _ _ _ _ _ _ E3) as [p2 ->].
  destruct (growPrepend_frame _ _ _ _ _ _ E4) as [q2 ->].
  repeat split; auto.
  - exists q1. eexists. split; [rewrite <- !app_assoc; reflexivity|].
    rewrite !length_app. cbn. lia.
  - exists q2. eexists. split; [rewrite <- !app_assoc; reflexivity|].
    rewrite !length_app. cbn. lia.
Qed.

(** ** Boxes *)

Lemma Boxes_stages (fuel : nat) (r : RouteBoxer) (bs : list Bound) (r' : RouteBoxer) :
  Boxes fuel r = Ok (bs, r') ->
  exists r1 r2,
    buildGrid fuel r = Ok r1 /\ FindIntersectingCells r1 = Ok r2
    /\ mergeIntersectingCells r2 = Ok r'
    /\ bs = if (len (boxesX r') <=? len (boxesY r'))%Z then boxesX r' else boxesY r'.
Proof.
  unfold Boxes.
  destruct (buildGrid fuel r) as [r1| |] eqn:E1; cbn [bind]; try discriminate.
  destruct (FindIntersectingCells r1) as [r2| |] eqn:E2; cbn [bind]; try discriminate.
  destruct (mergeIntersectingCells r2) as [r3| |] eqn:E3; cbn [bind]; try discriminate.
  intros H. exists r1, r2.
  destruct (len (boxesX r3) <=? len (boxesY r3))%Z eqn:L; injection H as <- <-;
    rewrite L; auto.
Qed.

Lemma sameShape_rectangular (g : list (list Z)) (w h : nat) :
  sameShape (repeat (repeat 0%Z h) w) g -> rectangular g h.
Proof.
  unfold sameShape, rectangular. intros H col Hc.
  assert (I : In (length col) (map (@length Z) g)) by (apply in_map; assumption).
  rewrite H, map_repeat in I. apply repeat_spec in I. now rewrite I, repeat_length.
Qed.

(** C1: when the grid lines of the final state are at least
    0.001 degree apart on both axes, the rectangles returned by [Boxes] for
    a new RouteBoxer are pairwise non-overlapping, every marked cell lies in
    exactly one of them and no unmarked cell lies in any. *)
Theorem Boxes_tiles_marked_cells (fuel : nat) (d : R) (vs : list Point)
  (bs : list Bound) (r' : RouteBoxer) :
  Boxes fuel (NewRouteBoxer d vs) = Ok (bs, r') ->
  gapped (latGrid r') -> gapped (lngGrid r') ->
  exactTiling r' bs.
Proof.
  intros HB Gy Gx.
  destruct (Boxes_stages _ _ _ _ HB) as (r1 & r2 & E1 & E2 & E3 & ->).
  destruct (buildGrid_frame _ _ _ E1) as (_ & _ & BX & BY & _ & _ & EG).
  destruct (FindIntersectingCells_gridOnly _ _ E2) as [F1 F2].
  destruct (mergeIntersectingCells_passes _ _ E3) as (g0 & r3 & I0 & _ & [P1 _] & _ & [P2 _]).
  assert (L1 : latGrid r' = latGrid r2) by (rewrite P2, P1; reflexivity).
  assert (L2 : lngGrid r' = lngGrid r2) by (rewrite P2, P1; reflexivity).
  rewrite L1 in Gy. rewrite L2 in Gx.
  assert (HR : rectangular (grid r2) (length (latGrid r1))).
  { eapply sameShape_rectangular. rewrite <- EG. exact F2. }
  destruct (mergeIntersectingCells_tiles r2 r' (length (latGrid r1))) as [TX TY]; auto.
  - rewrite F1. exact BX.
  - rewrite F1. exact BY.
  - exists g0. split; [exact I0 | apply HR; eapply idx_In; eauto].
  - destruct (len (boxesX r') <=? len (boxesY r'))%Z; assumption.
Qed.

Lemma Boxes_tiles_marked_cells_witness :
  exactTiling stateWide (colBoxesL 10 0 dxWide dyWide).
Proof.
  apply (Boxes_tiles_marked_cells 3 50000 routeWide).
  - exact (Boxes_routeWide 0).
  - exact (proj1 stateWide_gapped).
  - exact (proj2 stateWide_gapped).
Defined.

(** C1, counterexample: with distance 50 the cells are about 0.00045
    degree wide, below the merge tolerance.  For the L-shaped route
    [routeNarrow] the returned set is the single rectangle of the whole
    grid, which contains the unmarked cell (3, 0). *)
Lemma Boxes_narrow_cells_cover_unmarked :
  exists bs r', Boxes 3 (NewRouteBoxer 50 routeNarrow) = Ok (bs, r') /\ ~ exactTiling r' bs.
Proof.
  exists [allBoxL 10 0 dxNarrow dyNarrow], stateNarrow.
  split; [exact (Boxes_routeNarrow 0)|].
  intros (_ & _ & H).
  pose proof dyNarrow_bounds as B. pose proof dxNarrow_eq as E.
  apply (H (3, 0)%Z
           (box (10 + 1 * dxNarrow) (0 - 2 * dyNarrow) (10 + 2 * dxNarrow) (0 - 1 * dyNarrow))
           (allBoxL 10 0 dxNarrow dyNarrow)).
  - reflexivity.
  - unfold getCellBounds, stateNarrow, gridStateL. cbn [latGrid lngGrid fst snd].
    repeat match goal with
           | |- context [at_ ?l ?i] =>
               let v := eval cbv [at_ idx Z.ltb Z.compare Z.to_nat Pos.to_nat Pos.iter_op
                                    Z.add Pos.add Pos.succ Nat.add nth_error]
                        in (at_ l i) in change (at_ l i) with v
           end.
    cbn [bind]. unfold NewBoundFromPoints, NewPointFromLatLng, Extend, box.
    cbn [SouthWest NorthEast Lng Lat]. repeat rstep. reflexivity.
  - now left.
  - unfold covers, allBoxL, box. cbn [SouthWest NorthEast Lng Lat]. lra.
Qed.







(** * Further properties of the code *)

(** * Further properties of rhumb.go *)

Lemma deg2rad_rad2deg (x : R) : deg2rad (rad2deg x) = x.
Proof. unfold rad2deg, deg2rad. pose proof PI_gt_3. field. lra. Qed.

(** X1: converting degrees to radians and back, or radians to degrees and
    back, returns the value one started from. *)
Theorem degrees_radians_round_trip (x : R) :
  rad2deg (deg2rad x) = x /\ deg2rad (rad2deg x) = x.
Proof. split; [apply rad2deg_deg2rad | apply deg2rad_rad2deg]. Qed.

Lemma deg2rad_lt_PI2 (x : R) : Rabs x < 90 -> Rabs (deg2rad x) < PI / 2.
Proof.
  intros H. pose proof PI_gt_3. unfold deg2rad.
  unfold Rabs in *. destruct (Rcase_abs x); destruct (Rcase_abs (x * PI / 180)); nra.
Qed.

Lemma deg2rad_le_PI2 (x : R) : Rabs x <= 90 -> Rabs (deg2rad x) <= PI / 2.
Proof.
  intros H. pose proof PI_gt_3. unfold deg2rad.
  unfold Rabs in *. destruct (Rcase_abs x); destruct (Rcase_abs (x * PI / 180)); nra.
Qed.

Lemma merc_pos (y : R) : Rabs y < PI / 2 -> 0 < tan (y / 2 + PI / 4).
Proof.
  intros H. apply Rabs_def2 in H. apply tan_gt_0; lra.
Qed.

Lemma dPhi_pos (a b : R) :
  Rabs a < PI / 2 -> Rabs b < PI / 2 -> a < b ->
  0 < ln (tan (b / 2 + PI / 4) / tan (a / 2 + PI / 4)).
Proof.
  intros Ha Hb Hab. pose proof (merc_pos a Ha) as Pa. pose proof (merc_pos b Hb) as Pb.
  apply Rabs_def2 in Ha, Hb.
  assert (T : tan (a / 2 + PI / 4) < tan (b / 2 + PI / 4)) by (apply tan_increasing; lra).
  rewrite <- ln_1. apply ln_increasing; [lra|].
  apply Rmult_lt_reg_r with (tan (a / 2 + PI / 4)); [assumption|].
  unfold Rdiv. rewrite Rmult_assoc, Rinv_l by lra. lra.
Qed.

Lemma dPhi_neg (a b : R) :
  Rabs a < PI / 2 -> Rabs b < PI / 2 -> b < a ->
  ln (tan (b / 2 + PI / 4) / tan (a / 2 + PI / 4)) < 0.
Proof.
  intros Ha Hb Hab. pose proof (merc_pos a Ha) as Pa. pose proof (merc_pos b Hb) as Pb.
  apply Rabs_def2 in Ha, Hb.
  assert (T : tan (b / 2 + PI / 4) < tan (a / 2 + PI / 4)) by (apply tan_increasing; lra).
  rewrite <- ln_1. apply ln_increasing.
  - apply Rdiv_lt_0_compat; assumption.
  - apply Rmult_lt_reg_r with (tan (a / 2 + PI / 4)); [assumption|].
    unfold Rdiv. rewrite Rmult_assoc, Rinv_l by lra. lra.
Qed.

Lemma dPhi_zero (a : R) :
  Rabs a < PI / 2 -> ln (tan (a / 2 + PI / 4) / tan (a / 2 + PI / 4)) = 0.
Proof. intros _. apply ln_self_ratio. Qed.

(** X2: whatever the bearing and the distance, the longitude returned by
    [RhumbDestinationPoint] lies within 90 degrees of the meridian 0, for a
    start strictly between the poles and a step that does not reach a
    pole (so that every quotient of the computation is defined). *)
Theorem RhumbDestinationPoint_lng_within_quarter_turn (c : Point) (brng x : R) :
  Rabs (deg2rad (Lat c)) + Rabs (x / EarthRadius * cos (deg2rad brng)) < PI / 2 ->
  -90 <= Lng (RhumbDestinationPoint c brng x) <= 90.
Proof.
  intros _.
  unfold RhumbDestinationPoint, NewPointFromLatLng. cbn [Lng].
  pose proof PI_gt_3.
  match goal with |- context [Remainder ?a ?b] =>
    pose proof (Remainder_range a b ltac:(lra)) as Hr; set (m := Remainder a b) in * end.
  apply Rabs_le_bounds in Hr.
  unfold rad2deg. split.
  - apply Rmult_le_reg_r with PI; [lra|]. field_simplify; lra.
  - apply Rmult_le_reg_r with PI; [lra|]. field_simplify; lra.
Qed.

Lemma RhumbDestinationPoint_lng_within_quarter_turn_witness :
  -90 <= Lng (RhumbDestinationPoint (mkPoint 100 0) 0 0) <= 90.
Proof.
  apply (RhumbDestinationPoint_lng_within_quarter_turn (mkPoint 100 0) 0 0).
  cbn [Lat]. pose proof PI_gt_3.
  rewrite deg2rad_0, Rabs_R0.
  replace (0 / EarthRadius * cos 0) with 0 by (unfold Rdiv; ring).
  rewrite Rabs_R0. lra.
Defined.



(** X4: the latitude returned by [RhumbDestinationPoint].  A latitude step
    below 1e-10 radian is dropped; otherwise the step is added, and a
    result beyond a pole is reflected back over that pole. *)
Theorem RhumbDestinationPoint_latitude (c : Point) (brng x : R) :
  Rabs (Lat c) <= 90 ->
  let dl := x / EarthRadius * cos (deg2rad brng) in
  (Rabs dl < 1 / 10 ^ 10 -> Lat (RhumbDestinationPoint c brng x) = Lat c)
  /\ (1 / 10 ^ 10 <= Rabs dl -> Rabs (deg2rad (Lat c) + dl) <= PI / 2 ->
      Lat (RhumbDestinationPoint c brng x) = Lat c + rad2deg dl)
  /\ (1 / 10 ^ 10 <= Rabs dl -> PI / 2 < deg2rad (Lat c) + dl ->
      Lat (RhumbDestinationPoint c brng x) = 180 - (Lat c + rad2deg dl))
  /\ (1 / 10 ^ 10 <= Rabs dl -> deg2rad (Lat c) + dl < - (PI / 2) ->
      Lat (RhumbDestinationPoint c brng x) = -180 - (Lat c + rad2deg dl)).
Proof.
  intros Hlat dl. pose proof PI_gt_3. pose proof tiny_pos.
  pose proof (deg2rad_le_PI2 _ Hlat) as Ha.
  assert (E180 : rad2deg PI = 180) by (unfold rad2deg; field; lra).
  unfold RhumbDestinationPoint, NewPointFromLatLng. cbn [Lat]. fold dl.
  apply Rabs_le_bounds in Ha.
  destruct (Rlt_dec (Rabs dl) (1 / 10 ^ 10)) as [S|S].
  - rewrite Rplus_0_r.
    rewrite (Rlt_dec_F (PI / 2)) by (apply Rle_not_lt, Rabs_le; lra).
    rewrite rad2deg_deg2rad.
    split; [reflexivity|]. repeat split; intros; lra.
  - split; [intros; lra|].
    destruct (Rlt_dec (PI / 2) (Rabs (deg2rad (Lat c) + dl))) as [P|P].
    + destruct (Rlt_dec 0 (deg2rad (Lat c) + dl)) as [Q|Q].
      * rewrite Rabs_right in P by lra.
        split; [intros _ A; apply Rabs_le_bounds in A; lra|].
        split; [|intros; lra]. intros _ _.
        unfold Rminus. rewrite rad2deg_plus, rad2deg_opp, rad2deg_plus, rad2deg_deg2rad, E180.
        ring.
      * assert (deg2rad (Lat c) + dl < 0).
        { destruct (Req_dec_T (deg2rad (Lat c) + dl) 0) as [Z|Z]; [|lra].
          rewrite Z, Rabs_R0 in P. lra. }
        rewrite Rabs_left in P by lra.
        split; [intros _ A; apply Rabs_le_bounds in A; lra|].
        split; [intros; lra|]. intros _ _.
        unfold Rminus.
        rewrite rad2deg_plus, !rad2deg_opp, rad2deg_plus, rad2deg_deg2rad, E180.
        ring.
    + apply Rnot_lt_le in P. apply Rabs_le_bounds in P.
      split; [intros _ _; now rewrite rad2deg_plus, rad2deg_deg2rad|].
      split; intros; lra.
Qed.

Lemma RhumbDestinationPoint_latitude_witness :
  let dl := 637813.7 / EarthRadius * cos (deg2rad 0) in
  (Rabs dl < 1 / 10 ^ 10 ->
   Lat (RhumbDestinationPoint (mkPoint 0 85) 0 637813.7) = Lat (mkPoint 0 85))
  /\ (1 / 10 ^ 10 <= Rabs dl -> Rabs (deg2rad (Lat (mkPoint 0 85)) + dl) <= PI / 2 ->
      Lat (RhumbDestinationPoint (mkPoint 0 85) 0 637813.7)
      = Lat (mkPoint 0 85) + rad2deg dl)
  /\ (1 / 10 ^ 10 <= Rabs dl -> PI / 2 < deg2rad (Lat (mkPoint 0 85)) + dl ->
      Lat (RhumbDestinationPoint (mkPoint 0 85) 0 637813.7)
      = 180 - (Lat (mkPoint 0 85) + rad2deg dl))
  /\ (1 / 10 ^ 10 <= Rabs dl -> deg2rad (Lat (mkPoint 0 85)) + dl < - (PI / 2) ->
      Lat (RhumbDestinationPoint (mkPoint 0 85) 0 637813.7)
      = -180 - (Lat (mkPoint 0 85) + rad2deg dl)).
Proof.
  apply (RhumbDestinationPoint_latitude (mkPoint 0 85) 0 637813.7).
  cbn [Lat]. rewrite Rabs_right; lra.
Defined.

(** X5: from a start between the poles and for a distance of at most half
    the circumference, the returned latitude is between the poles. *)
Theorem RhumbDestinationPoint_lat_in_range (c : Point) (brng x : R) :
  Rabs (Lat c) <= 90 -> Rabs (x / EarthRadius) <= PI ->
  -90 <= Lat (RhumbDestinationPoint c brng x) <= 90.
Proof.
  intros Hlat Hx. pose proof PI_gt_3. pose proof tiny_pos.
  pose proof (deg2rad_le_PI2 _ Hlat) as Ha.
  apply Rabs_le_bounds in Ha.
  assert (Hdl : Rabs (x / EarthRadius * cos (deg2rad brng)) <= PI).
  { rewrite Rabs_mult. pose proof (COS_bound (deg2rad brng)) as C.
    assert (Rabs (cos (deg2rad brng)) <= 1) by (apply Rabs_le; lra).
    pose proof (Rabs_pos (x / EarthRadius)). pose proof (Rabs_pos (cos (deg2rad brng))). nra. }
  apply Rabs_le_bounds in Hdl.
  assert (B : forall t, - (PI / 2) <= t <= PI / 2 -> -90 <= rad2deg t <= 90).
  { intros t Ht. unfold rad2deg.
    split; (apply Rmult_le_reg_r with PI; [lra|]); field_simplify; lra. }
  unfold RhumbDestinationPoint, NewPointFromLatLng. cbn [Lat].
  set (dl := x / EarthRadius * cos (deg2rad brng)) in *.
  apply B.
  destruct (Rlt_dec (Rabs dl) (1 / 10 ^ 10)).
  - rewrite Rplus_0_r. rewrite Rlt_dec_F; [lra|]. apply Rle_not_lt, Rabs_le. lra.
  - destruct (Rlt_dec (PI / 2) (Rabs (deg2rad (Lat c) + dl))) as [P|P].
    + destruct (Rlt_dec 0 (deg2rad (Lat c) + dl)) as [Q|Q].
      * rewrite Rabs_right in P by lra. lra.
      * assert (deg2rad (Lat c) + dl < 0).
        { destruct (Req_dec_T (deg2rad (Lat c) + dl) 0) as [Z|Z]; [|lra].
          rewrite Z, Rabs_R0 in P. lra. }
        rewrite Rabs_left in P by lra. lra.
    + apply Rnot_lt_le in P. apply Rabs_le_bounds in P. lra.
Qed.

Lemma RhumbDestinationPoint_lat_in_range_witness :
  -90 <= Lat (RhumbDestinationPoint (mkPoint 0 80) 0 2000000) <= 90.
Proof.
  apply (RhumbDestinationPoint_lat_in_range (mkPoint 0 80) 0 2000000); cbn [Lat].
  - rewrite Rabs_right; lra.
  - pose proof PI_gt_3. unfold EarthRadius. rewrite Rabs_right; lra.
Defined.

Lemma rad2deg_PI2 : rad2deg (PI / 2) = 90.
Proof. unfold rad2deg. pose proof PI_gt_3. field. lra. Qed.

Lemma rad2deg_PI : rad2deg PI = 180.
Proof. unfold rad2deg. pose proof PI_gt_3. field. lra. Qed.

Lemma rad2deg_0 : rad2deg 0 = 0.
Proof. unfold rad2deg. pose proof PI_gt_3. field. lra. Qed.

(** [math.Remainder 540 360]: the quotient 1.5 is half-way between 1 and 2
    and the even neighbour is taken. *)
Lemma Remainder_540 : Remainder (180 + 360) 360 = -180.
Proof.
  unfold Remainder.
  assert (Q : (180 + 360) / 360 = 3 / 2) by field.
  rewrite Q.
  assert (I : Int_part (3 / 2) = 1%Z).
  { symmetry. apply Int_part_spec. simpl. lra. }
  unfold nearestInt. rewrite I. simpl IZR.
  rewrite Rlt_dec_F by lra. rewrite Rlt_dec_F by lra.
  simpl. lra.
Qed.

(** X6: the bearing returned by [RhumBearingTo] lies between -180 and 180
    degrees (not between 0 and 360), for two points strictly between the
    poles. *)
Theorem RhumBearingTo_range (p q : Point) :
  Rabs (Lat p) < 90 -> Rabs (Lat q) < 90 ->
  -180 <= RhumBearingTo p q <= 180.
Proof.
  intros _ _. unfold RhumBearingTo.
  match goal with |- context [Remainder ?a ?b] =>
    pose proof (Remainder_range a b ltac:(lra)) as Hr; set (m := Remainder a b) in * end.
  apply Rabs_le_bounds in Hr. lra.
Qed.

Lemma RhumBearingTo_range_witness : -180 <= RhumBearingTo (mkPoint 0 0) (mkPoint 1 1) <= 180.
Proof.
  apply (RhumBearingTo_range (mkPoint 0 0) (mkPoint 1 1)); cbn [Lat];
    [rewrite Rabs_R0 | rewrite Rabs_right]; lra.
Defined.

Lemma deg2rad_increasing (u v : R) : u < v -> deg2rad u < deg2rad v.
Proof. intros. pose proof PI_gt_3. unfold deg2rad. nra. Qed.

Lemma bearing_north (p q : Point) :
  Rabs (Lat p) < 90 -> Rabs (Lat q) < 90 -> Lng q = Lng p -> Lat p < Lat q ->
  RhumBearingTo p q = 0.
Proof.
  intros Hp Hq E L. pose proof PI_gt_3.
  pose proof (deg2rad_lt_PI2 _ Hp) as Ap. pose proof (deg2rad_lt_PI2 _ Hq) as Aq.
  unfold RhumBearingTo.
  rewrite E. replace (Lng p - Lng p) with 0 by ring. rewrite deg2rad_0.
  rewrite Rabs_R0. rewrite (Rlt_dec_F PI 0) by lra.
  pose proof (dPhi_pos _ _ Ap Aq (deg2rad_increasing _ _ L)) as D.
  unfold Atan2. rewrite Rlt_dec_T by assumption.
  replace (0 / _) with 0 by (unfold Rdiv; ring). rewrite atan_0, rad2deg_0.
  rewrite (Remainder_eq _ _ 1); [simpl; lra | lra | simpl; rewrite Rabs_right; lra].
Qed.

Lemma bearing_south (p q : Point) :
  Rabs (Lat p) < 90 -> Rabs (Lat q) < 90 -> Lng q = Lng p -> Lat q < Lat p ->
  RhumBearingTo p q = -180.
Proof.
  intros Hp Hq E L. pose proof PI_gt_3.
  pose proof (deg2rad_lt_PI2 _ Hp) as Ap. pose proof (deg2rad_lt_PI2 _ Hq) as Aq.
  unfold RhumBearingTo.
  rewrite E. replace (Lng p - Lng p) with 0 by ring. rewrite deg2rad_0.
  rewrite Rabs_R0. rewrite (Rlt_dec_F PI 0) by lra.
  pose proof (dPhi_neg _ _ Ap Aq (deg2rad_increasing _ _ L)) as D.
  unfold Atan2. rewrite Rlt_dec_F by lra. rewrite Rlt_dec_T by assumption.
  destruct (Rle_dec 0 0) as [_|N]; [|lra].
  replace (0 / _) with 0 by (unfold Rdiv; ring).
  rewrite atan_0, Rplus_0_l, rad2deg_PI. apply Remainder_540.
Qed.

Lemma bearing_east (p q : Point) :
  Lat q = Lat p -> 0 < Lng q - Lng p <= 180 -> RhumBearingTo p q = 90.
Proof.
  intros E L. pose proof PI_gt_3. unfold RhumBearingTo.
  rewrite E, ln_self_ratio.
  assert (0 < deg2rad (Lng q - Lng p) <= PI) by (unfold deg2rad; split; nra).
  rewrite Rlt_dec_F by (rewrite Rabs_right; lra).
  unfold Atan2. rewrite (Rlt_dec_F 0 0) by lra. rewrite (Rlt_dec_F 0 0) by lra.
  rewrite Rlt_dec_T by lra. rewrite rad2deg_PI2.
  rewrite (Remainder_eq _ _ 1); [simpl; lra | lra | simpl; rewrite Rabs_right; lra].
Qed.

Lemma bearing_west (p q : Point) :
  Lat q = Lat p -> -180 <= Lng q - Lng p < 0 -> RhumBearingTo p q = -90.
Proof.
  intros E L. pose proof PI_gt_3. unfold RhumBearingTo.
  rewrite E, ln_self_ratio.
  assert (- PI <= deg2rad (Lng q - Lng p) < 0) by (unfold deg2rad; split; nra).
  rewrite Rlt_dec_F by (rewrite Rabs_left; lra).
  unfold Atan2. rewrite (Rlt_dec_F 0 0) by lra. rewrite (Rlt_dec_F 0 0) by lra.
  rewrite Rlt_dec_F by lra. rewrite Rlt_dec_T by lra.
  rewrite rad2deg_opp, rad2deg_PI2.
  rewrite (Remainder_eq _ _ 1); [simpl; lra | lra | simpl; rewrite Rabs_left; lra].
Qed.

(** X7: the bearings of the four cardinal directions, for two points
    strictly between the poles: 0 to a point due north, 90 to a point due
    east (at most 180 degrees of longitude away), -90 (not 270) to a
    point due west and -180 (not 180) to a point due south. *)
Theorem RhumBearingTo_cardinal (p q : Point) :
  Rabs (Lat p) < 90 -> Rabs (Lat q) < 90 ->
  (Lng q = Lng p -> Lat p < Lat q -> RhumBearingTo p q = 0)
  /\ (Lng q = Lng p -> Lat q < Lat p -> RhumBearingTo p q = -180)
  /\ (Lat q = Lat p -> 0 < Lng q - Lng p <= 180 -> RhumBearingTo p q = 90)
  /\ (Lat q = Lat p -> -180 <= Lng q - Lng p < 0 -> RhumBearingTo p q = -90).
Proof.
  intros Hp Hq.
  split; [|split; [|split]]; intros.
  - now apply bearing_north.
  - now apply bearing_south.
  - now apply bearing_east.
  - now apply bearing_west.
Qed.

Lemma RhumBearingTo_cardinal_witness :
  RhumBearingTo (mkPoint 10 45) (mkPoint 10 46) = 0
  /\ RhumBearingTo (mkPoint 10 45) (mkPoint 10 44) = -180
  /\ RhumBearingTo (mkPoint 10 45) (mkPoint 11 45) = 90
  /\ RhumBearingTo (mkPoint 10 45) (mkPoint 9 45) = -90.
Proof.
  assert (A : forall x, 0 <= x < 90 -> Rabs x < 90) by (intros; rewrite Rabs_right; lra).
  split; [|split; [|split]].
  - apply (RhumBearingTo_cardinal (mkPoint 10 45) (mkPoint 10 46)); cbn [Lat Lng];
      try apply A; try reflexivity; lra.
  - apply (RhumBearingTo_cardinal (mkPoint 10 45) (mkPoint 10 44)); cbn [Lat Lng];
      try apply A; try reflexivity; lra.
  - apply (RhumBearingTo_cardinal (mkPoint 10 45) (mkPoint 11 45)); cbn [Lat Lng];
      try apply A; try reflexivity; lra.
  - apply (RhumBearingTo_cardinal (mkPoint 10 45) (mkPoint 9 45)); cbn [Lat Lng];
      try apply A; try reflexivity; lra.
Defined.








(** * Further properties of the route boxer *)

(** ** Writing into the coverage grid *)

Lemma nth_error_upd_nat {A : Type} (l : list A) (n m : nat) (a : A) :
  nth_error (upd_nat l n a) m
  = if (m =? n)%nat then option_map (fun _ => a) (nth_error l n) else nth_error l m.
Proof.
  revert n m. induction l as [|h t IH]; intros n m.
  - cbn. destruct n, m; cbn; try reflexivity. destruct (m =? n)%nat; reflexivity.
  - destruct n, m; cbn; try reflexivity. apply IH.
Qed.

Lemma idx_upd {A : Type} (l : list A) (i j : Z) (a : A) :
  idx (upd l i a) j = if (j =? i)%Z then option_map (fun _ => a) (idx l i) else idx l j.
Proof.
  unfold idx, upd.
  destruct (i <? 0)%Z eqn:Ei.
  - destruct (Z.eqb_spec j i) as [->|N]; [now rewrite Ei | reflexivity].
  - destruct (j <? 0)%Z eqn:Ej.
    + destruct (Z.eqb_spec j i) as [->|N]; [congruence | reflexivity].
    + rewrite nth_error_upd_nat. apply Z.ltb_ge in Ei, Ej.
      destruct (Z.eqb_spec j i) as [->|N].
      * now rewrite Nat.eqb_refl.
      * destruct (Nat.eqb_spec (Z.to_nat j) (Z.to_nat i)); [lia | reflexivity].
Qed.

Lemma forallb_pointwise {A : Type} (f g : A -> bool) (l : list A) :
  (forall a, f a = g a) -> forallb f l = forallb g l.
Proof. intros H. induction l as [|a t IH]; cbn; [reflexivity | now rewrite H, IH]. Qed.

Lemma setCell_Ok (g : list (list Z)) (x y : Z) :
  hasCell g (x, y) = true ->
  exists g', setCell g x y = Ok g'
    /\ forall x' y', cellVal g' x' y'
                     = if ((x' =? x) && (y' =? y))%Z then Some 1%Z else cellVal g x' y'.
Proof.
  unfold hasCell, cellVal, setCell, at_. cbn [fst snd].
  destruct (idx g x) as [col|] eqn:E1; [|discriminate]. cbn [bind].
  destruct (idx col y) as [v|] eqn:E2; [|discriminate]. intros _. cbn [bind].
  eexists. split; [reflexivity|]. intros x' y'.
  rewrite idx_upd, E1. cbn [option_map].
  destruct (Z.eqb_spec x' x) as [->|N]; cbn [andb]; [|reflexivity].
  rewrite idx_upd, E2. cbn [option_map].
  destruct (y' =? y)%Z; [reflexivity|]. now rewrite E1.
Qed.

Lemma setCell_Panic (g : list (list Z)) (x y : Z) :
  hasCell g (x, y) = false -> setCell g x y = Panic.
Proof.
  unfold hasCell, cellVal, setCell, at_. cbn [fst snd].
  destruct (idx g x) as [col|]; [|reflexivity]. cbn [bind].
  destruct (idx col y); [discriminate | reflexivity].
Qed.

Lemma setCells_Ok (cs : list cell) :
  forall g, forallb (hasCell g) cs = true ->
  exists g', setCells g cs = Ok g'
    /\ forall x' y', cellVal g' x' y'
                     = if existsb (fun c => (x' =? fst c) && (y' =? snd c))%Z cs
                       then Some 1%Z else cellVal g x' y'.
Proof.
  induction cs as [|[x y] rest IH]; intros g H; cbn [setCells forallb existsb fst snd] in *.
  - exists g. split; reflexivity.
  - apply andb_prop in H. destruct H as [H1 H2].
    destruct (setCell_Ok g x y H1) as (g1 & E1 & V1). rewrite E1. cbn [bind].
    assert (H3 : forallb (hasCell g1) rest = true).
    { rewrite forallb_forall in *. intros c Hc. specialize (H2 c Hc).
      unfold hasCell in *. rewrite V1.
      destruct ((fst c =? x) && (snd c =? y))%Z; [reflexivity | assumption]. }
    destruct (IH g1 H3) as (g2 & E2 & V2). exists g2. split; [assumption|].
    intros x' y'. rewrite V2, V1.
    match goal with |- context [existsb ?f rest] => destruct (existsb f rest) end;
      destruct ((x' =? x) && (y' =? y))%Z; reflexivity.
Qed.

Lemma setCells_Panic (cs : list cell) :
  forall g, forallb (hasCell g) cs = false -> setCells g cs = Panic.
Proof.
  induction cs as [|[x y] rest IH]; intros g H; cbn [setCells forallb fst snd] in *.
  - discriminate.
  - destruct (hasCell g (x, y)) eqn:H1; cbn [andb] in H.
    + destruct (setCell_Ok g x y H1) as (g1 & E1 & V1). rewrite E1. cbn [bind].
      apply IH. rewrite <- H. apply forallb_pointwise. intros c.
      unfold hasCell. rewrite V1.
      destruct (Z.eqb_spec (fst c) x) as [Ex|]; cbn [andb]; [|reflexivity].
      destruct (Z.eqb_spec (snd c) y) as [Ey|]; [|reflexivity].
      destruct c as [cx cy]; cbn [fst snd] in *; subst.
      unfold hasCell in H1. cbn [fst snd] in H1. destruct (cellVal g x y); congruence.
    + now rewrite (setCell_Panic g x y H1).
Qed.

Lemma markGrid_setCells (g : list (list Z)) (c : cell) : markGrid g c = setCells g (nine c).
Proof.
  unfold markGrid, nine. cbn [setCells fst snd].
  repeat (match goal with |- context [setCell ?g ?x ?y] =>
            destruct (setCell g x y); cbn [bind]; try reflexivity end).
Qed.

Lemma nine_neighbour (c : cell) (x' y' : Z) :
  existsb (fun c0 => (x' =? fst c0) && (y' =? snd c0))%Z (nine c) = neighbour c (x', y').
Proof.
  apply eq_true_iff_eq. rewrite existsb_exists. unfold neighbour. cbn [fst snd].
  rewrite andb_true_iff, !Z.leb_le. destruct c as [x y]. unfold nine. cbn [fst snd].
  split.
  - intros ((a & b) & Hin & H). apply andb_prop in H. destruct H as [H1 H2].
    apply Z.eqb_eq in H1, H2. cbn [fst snd] in *. subst.
    cbn [In] in Hin.
    repeat (destruct Hin as [[= <- <-]|Hin]; [lia|]). contradiction.
  - intros [H1 H2].
    exists (x', y'). cbn [fst snd]. rewrite !Z.eqb_refl. split; [|reflexivity].
    assert (Hx : (x' = x - 1 \/ x' = x \/ x' = x + 1)%Z) by lia.
    assert (Hy : (y' = y - 1 \/ y' = y \/ y' = y + 1)%Z) by lia.
    cbn [In].
    destruct Hx as [->|[->| ->]]; destruct Hy as [->|[->| ->]]; tauto.
Qed.

Lemma marked_cellVal (r : RouteBoxer) (c : cell) :
  marked r c = match cellVal (grid r) (fst c) (snd c) with
               | Some v => (v =? 1)%Z
               | None => false
               end.
Proof. unfold marked, cellVal. destruct (idx (grid r) (fst c)); reflexivity. Qed.

Lemma markCell_Ok (r : RouteBoxer) (c : cell) :
  interior (grid r) c = true ->
  exists r', markCell r c = Ok r' /\ gridOnly r r'
    /\ forall c', marked r' c' = marked r c' || neighbour c c'.
Proof.
  intros H. rewrite markCell_markGrid, markGrid_setCells.
  destruct (setCells_Ok (nine c) (grid r) H) as (g' & E & V).
  rewrite E. cbn [bind]. eexists. split; [reflexivity|]. split.
  - apply (markCell_gridOnly r _ c). now rewrite markCell_markGrid, markGrid_setCells, E.
  - intros [x' y']. rewrite !marked_cellVal. cbn [grid set_grid fst snd].
    unfold set_grid. cbn [grid]. rewrite V, nine_neighbour.
    destruct (neighbour c (x', y')); [now rewrite orb_true_r | now rewrite orb_false_r].
Qed.

Lemma markCell_Panic (r : RouteBoxer) (c : cell) :
  interior (grid r) c = false -> markCell r c = Panic.
Proof.
  intros H. rewrite markCell_markGrid, markGrid_setCells.
  now rewrite (setCells_Panic (nine c) (grid r) H).
Qed.

(** X9: [markCell] succeeds exactly when the cell and its eight neighbours
    are inside the coverage grid, and faults with an index out of range
    otherwise.  When it succeeds it changes nothing but the grid, keeps
    the grid's dimensions, and the marked cells afterwards are those marked
    before together with the cell and its eight neighbours. *)
Theorem markCell_marks_neighbourhood (r : RouteBoxer) (c : cell) :
  (interior (grid r) c = true ->
   exists r', markCell r c = Ok r' /\ gridOnly r r'
     /\ forall c', marked r' c' = marked r c' || neighbour c c')
  /\ (interior (grid r) c = false -> markCell r c = Panic).
Proof. split; [apply markCell_Ok | apply markCell_Panic]. Qed.

(** ** Filling a row *)

Ltac zbool :=
  apply eq_true_iff_eq;
  rewrite ?orb_true_iff, ?andb_true_iff, ?orb_true_iff, ?andb_true_iff,
          ?Z.leb_le, ?Z.ltb_lt, ?Z.eqb_eq; lia.

Lemma markCell_inv (r r' : RouteBoxer) (c : cell) :
  markCell r c = Ok r' ->
  interior (grid r) c = true /\ gridOnly r r'
  /\ forall c', marked r' c' = marked r c' || neighbour c c'.
Proof.
  intros H. destruct (interior (grid r) c) eqn:I.
  - destruct (markCell_Ok r c I) as (r1 & E & G & M). rewrite E in H. injection H as <-. auto.
  - rewrite (markCell_Panic r c I) in H. discriminate.
Qed.

Lemma fillUp_marks (n : nat) :
  forall r x y r', fillUp n r x y = Ok r' ->
    gridOnly r r'
    /\ forall c', marked r' c'
                  = marked r c'
                    || ((0 <? Z.of_nat n) && (x - 1 <=? fst c') && (fst c' <=? x + Z.of_nat n)
                        && (Z.abs (snd c' - y) <=? 1))%Z.
Proof.
  induction n as [|n IH]; intros r x y r'; cbn [fillUp].
  - intros [= <-]. split; [apply gridOnly_refl|]. intros c'. cbn. now rewrite orb_false_r.
  - destruct (markCell r (x, y)) as [r1| |] eqn:E; cbn [bind]; try discriminate.
    intros H. destruct (markCell_inv _ _ _ E) as (_ & G1 & M1).
    destruct (IH _ _ _ _ H) as (G2 & M2).
    split; [eapply gridOnly_trans; eauto|].
    intros c'. rewrite M2, M1. unfold neighbour. cbn [fst snd].
    destruct (marked r c'); cbn [orb]; [reflexivity|]. zbool.
Qed.

Lemma fillDown_marks (n : nat) :
  forall r x y r', fillDown n r x y = Ok r' ->
    gridOnly r r'
    /\ forall c', marked r' c'
                  = marked r c'
                    || ((0 <? Z.of_nat n) && (x - Z.of_nat n <=? fst c') && (fst c' <=? x + 1)
                        && (Z.abs (snd c' - y) <=? 1))%Z.
Proof.
  induction n as [|n IH]; intros r x y r'; cbn [fillDown].
  - intros [= <-]. split; [apply gridOnly_refl|]. intros c'. cbn. now rewrite orb_false_r.
  - destruct (markCell r (x, y)) as [r1| |] eqn:E; cbn [bind]; try discriminate.
    intros H. destruct (markCell_inv _ _ _ E) as (_ & G1 & M1).
    destruct (IH _ _ _ _ H) as (G2 & M2).
    split; [eapply gridOnly_trans; eauto|].
    intros c'. rewrite M2, M1. unfold neighbour. cbn [fst snd].
    destruct (marked r c'); cbn [orb]; [reflexivity|]. zbool.
Qed.

Lemma fillInGridSquares_marks (r r' : RouteBoxer) (sx ex y : Z) :
  fillInGridSquares r sx ex y = Ok r' ->
  gridOnly r r' /\ forall c', marked r' c' = marked r c' || inBand sx ex y c'.
Proof.
  unfold fillInGridSquares. destruct (Z.ltb_spec sx ex) as [L|L]; intros H.
  - destruct (fillUp_marks _ _ _ _ _ H) as (G & M). split; [assumption|].
    intros c'. rewrite M. unfold inBand. destruct (marked r c'); cbn [orb]; [reflexivity|].
    zbool.
  - destruct (fillDown_marks _ _ _ _ _ H) as (G & M). split; [assumption|].
    intros c'. rewrite M. unfold inBand. destruct (marked r c'); cbn [orb]; [reflexivity|].
    zbool.
Qed.

(** X10: when [fillInGridSquares] returns, it has changed nothing but the
    grid, and the marked cells are those marked before together with the
    cells of row [y] between the columns [startx] and [endx] (in either
    order, both included) and all their neighbours. *)
Theorem fillInGridSquares_marks_band (r r' : RouteBoxer) (sx ex y : Z) :
  fillInGridSquares r sx ex y = Ok r' ->
  gridOnly r r' /\ forall c', marked r' c' = marked r c' || inBand sx ex y c'.
Proof. apply fillInGridSquares_marks. Qed.

Lemma fillInGridSquares_marks_band_witness :
  gridOnly (gridState zeros5) (gridState rows123)
  /\ forall c', marked (gridState rows123) c'
                = marked (gridState zeros5) c' || inBand 1 3 2 c'.
Proof.
  apply (fillInGridSquares_marks_band (gridState zeros5) (gridState rows123) 1 3 2).
  reflexivity.
Defined.

(** ** Locating a point *)

Lemma at_cases {A : Type} (l : list A) (i : Z) :
  (exists a, idx l i = Some a /\ at_ l i = Ok a) \/ (idx l i = None /\ at_ l i = Panic).
Proof. unfold at_. destruct (idx l i); eauto. Qed.

Lemma idx_None_range {A : Type} (l : list A) (i : Z) :
  idx l i = None -> (i < 0 \/ len l <= i)%Z.
Proof.
  intros H. destruct (Z_lt_dec i 0); [auto|]. destruct (Z_le_dec (len l) i); [auto|].
  destruct (idx_in_range l i ltac:(lia)) as [a Ha]. congruence.
Qed.

(** [scanFirst]: the result is the first index from [x] whose line is not
    below [v]. *)
Lemma scanFirst_first (fuel : nat) (g : list R) (v : R) :
  forall x k, scanFirst fuel g v x = Ok k ->
    (x <= k)%Z /\ (exists a, idx g k = Some a /\ v <= a)
    /\ forall j, (x <= j < k)%Z -> exists a, idx g j = Some a /\ a < v.
Proof.
  induction fuel as [|fuel IH]; intros x k; cbn [scanFirst]; [discriminate|].
  destruct (at_cases g x) as [(a & Ha & E)|[_ E]]; rewrite E; cbn [bind]; [|discriminate].
  destruct (Rlt_dec a v) as [L|L].
  - intros H. destruct (IH _ _ H) as (K1 & K2 & K3).
    split; [lia|]. split; [assumption|]. intros j Hj.
    destruct (Z.eq_dec j x) as [->|N]; [eauto | apply K3; lia].
  - intros [= <-]. split; [lia|]. split; [exists a; split; [assumption | lra]|].
    intros j Hj. lia.
Qed.

Lemma scanFirst_fuel (fuel : nat) (g : list R) (v : R) :
  forall x, (x < 0 \/ len g < Z.of_nat fuel + x)%Z -> (0 < fuel)%nat ->
            scanFirst fuel g v x <> OutOfFuel.
Proof.
  induction fuel as [|fuel IH]; intros x Hx Hf; [lia|]. cbn [scanFirst].
  destruct (at_cases g x) as [(a & Ha & E)|[_ E]]; rewrite E; cbn [bind]; [|discriminate].
  apply idx_Some_range in Ha.
  destruct (Rlt_dec a v); [|discriminate]. apply IH; lia.
Qed.

Lemma scanFirst_below (fuel : nat) (g : list R) (v : R) :
  (forall a, In a g -> a < v) ->
  forall x k, scanFirst fuel g v x <> Ok k.
Proof.
  intros H x k E. destruct (scanFirst_first _ _ _ _ _ E) as (_ & (a & Ha & La) & _).
  apply idx_In in Ha. specialize (H a Ha). lra.
Qed.

(** [scanUp]: the result is the first index from [x] whose next line is not
    below [v]. *)
Lemma scanUp_first (fuel : nat) (g : list R) (v : R) :
  forall x k, scanUp fuel g v x = Ok k ->
    (x <= k)%Z /\ (exists a, idx g (k + 1) = Some a /\ v <= a)
    /\ forall j, (x <= j < k)%Z -> exists a, idx g (j + 1) = Some a /\ a < v.
Proof.
  induction fuel as [|fuel IH]; intros x k; cbn [scanUp]; [discriminate|].
  destruct (at_cases g (x + 1)) as [(a & Ha & E)|[_ E]]; rewrite E; cbn [bind]; [|discriminate].
  destruct (Rlt_dec a v) as [L|L].
  - intros H. destruct (IH _ _ H) as (K1 & K2 & K3).
    split; [lia|]. split; [assumption|]. intros j Hj.
    destruct (Z.eq_dec j x) as [->|N]; [eauto | apply K3; lia].
  - intros [= <-]. split; [lia|]. split; [exists a; split; [assumption | lra]|].
    intros j Hj. lia.
Qed.

Lemma scanUp_fuel (fuel : nat) (g : list R) (v : R) :
  forall x, (x + 1 < 0 \/ len g < Z.of_nat fuel + x + 1)%Z -> (0 < fuel)%nat ->
            scanUp fuel g v x <> OutOfFuel.
Proof.
  induction fuel as [|fuel IH]; intros x Hx Hf; [lia|]. cbn [scanUp].
  destruct (at_cases g (x + 1)) as [(a & Ha & E)|[_ E]]; rewrite E; cbn [bind]; [|discriminate].
  apply idx_Some_range in Ha.
  destruct (Rlt_dec a v); [|discriminate]. apply IH; lia.
Qed.

(** [scanDown]: the result is the first index downwards from [x] whose line
    is not above [v]. *)
Lemma scanDown_first (fuel : nat) (g : list R) (v : R) :
  forall x k, scanDown fuel g v x = Ok k ->
    (k <= x)%Z /\ (exists a, idx g k = Some a /\ a <= v)
    /\ forall j, (k < j <= x)%Z -> exists a, idx g j = Some a /\ v < a.
Proof.
  induction fuel as [|fuel IH]; intros x k; cbn [scanDown]; [discriminate|].
  destruct (at_cases g x) as [(a & Ha & E)|[_ E]]; rewrite E; cbn [bind]; [|discriminate].
  destruct (Rlt_dec v a) as [L|L].
  - intros H. destruct (IH _ _ H) as (K1 & K2 & K3).
    split; [lia|]. split; [assumption|]. intros j Hj.
    destruct (Z.eq_dec j x) as [->|N]; [eauto | apply K3; lia].
  - intros [= <-]. split; [lia|]. split; [exists a; split; [assumption | lra]|].
    intros j Hj. lia.
Qed.

Lemma scanDown_fuel (fuel : nat) (g : list R) (v : R) :
  forall x, (len g <= x \/ x + 1 < Z.of_nat fuel)%Z -> (0 < fuel)%nat ->
            scanDown fuel g v x <> OutOfFuel.
Proof.
  induction fuel as [|fuel IH]; intros x Hx Hf; [lia|]. cbn [scanDown].
  destruct (at_cases g x) as [(a & Ha & E)|[_ E]]; rewrite E; cbn [bind]; [|discriminate].
  apply idx_Some_range in Ha.
  destruct (Rlt_dec v a); [|discriminate].
  destruct (Z.eq_dec x 0) as [->|N].
  - destruct fuel; [lia|]. cbn [scanDown]. discriminate.
  - apply IH; lia.
Qed.

Lemma scanFirst_progress (fuel : nat) (g : list R) (v : R) :
  forall x k0 a, (0 <= x <= k0)%Z -> idx g k0 = Some a -> v <= a ->
    (k0 - x < Z.of_nat fuel)%Z ->
    exists k, scanFirst fuel g v x = Ok k /\ (k <= k0)%Z.
Proof.
  induction fuel as [|fuel IH]; intros x k0 a Hx Hk Hv Hf; [lia|]. cbn [scanFirst].
  pose proof (idx_Some_range _ _ _ Hk) as Rk.
  destruct (idx_in_range g x ltac:(lia)) as [b Hb].
  rewrite (at_Some _ _ _ Hb). cbn [bind].
  destruct (Rlt_dec b v) as [L|L].
  - assert (x <> k0) by (intros ->; rewrite Hk in Hb; injection Hb as ->; lra).
    destruct (IH (x + 1)%Z k0 a ltac:(lia) Hk Hv ltac:(lia)) as (k & E & Hle).
    exists k. split; assumption.
  - exists x. split; [reflexivity | lia].
Qed.

Lemma getCellCoords_inv (r : RouteBoxer) (p : Point) (x y : Z) :
  getCellCoords r p = Ok (x, y) ->
  scanFirst (S (length (lngGrid r))) (lngGrid r) (Lng p) 0 = Ok (x + 1)%Z
  /\ scanFirst (S (length (latGrid r))) (latGrid r) (Lat p) 0 = Ok (y + 1)%Z.
Proof.
  unfold getCellCoords.
  destruct (scanFirst _ (lngGrid r) _ _) as [kx| |]; cbn [bind]; try discriminate.
  destruct (scanFirst _ (latGrid r) _ _) as [ky| |]; cbn [bind]; try discriminate.
  intros [= <- <-]. split; f_equal; lia.
Qed.

(** X11: [getCellCoords] scans each axis from line 0 to the first line that
    is not below the point and returns the index before it.  So the
    returned indices are at least -1, the point is above the lines 0 to
    [x] (0 to [y]) and not above the line [x+1] ([y+1]); when every line
    of an axis is below the point the scan runs off the slice and faults,
    and otherwise a cell is returned. *)
Theorem getCellCoords_locates (r : RouteBoxer) (p : Point) :
  (forall x y, getCellCoords r p = Ok (x, y) ->
     (-1 <= x)%Z /\ (-1 <= y)%Z
     /\ (exists e, idx (lngGrid r) (x + 1) = Some e /\ Lng p <= e)
     /\ (exists n, idx (latGrid r) (y + 1) = Some n /\ Lat p <= n)
     /\ (forall j, (0 <= j <= x)%Z -> exists a, idx (lngGrid r) j = Some a /\ a < Lng p)
     /\ (forall j, (0 <= j <= y)%Z -> exists a, idx (latGrid r) j = Some a /\ a < Lat p))
  /\ ((forall a, In a (lngGrid r) -> a < Lng p) -> getCellCoords r p = Panic)
  /\ ((forall a, In a (latGrid r) -> a < Lat p) -> getCellCoords r p = Panic)
  /\ ((exists a, In a (lngGrid r) /\ Lng p <= a) -> (exists a, In a (latGrid r) /\ Lat p <= a) ->
      exists c, getCellCoords r p = Ok c).
Proof.
  assert (Fx : scanFirst (S (length (lngGrid r))) (lngGrid r) (Lng p) 0 <> OutOfFuel)
    by (apply scanFirst_fuel; unfold len; lia).
  assert (Fy : scanFirst (S (length (latGrid r))) (latGrid r) (Lat p) 0 <> OutOfFuel)
    by (apply scanFirst_fuel; unfold len; lia).
  split; [|split; [|split]].
  - intros x y H. destruct (getCellCoords_inv _ _ _ _ H) as [Hx Hy].
    destruct (scanFirst_first _ _ _ _ _ Hx) as (X1 & X2 & X3).
    destruct (scanFirst_first _ _ _ _ _ Hy) as (Y1 & Y2 & Y3).
    repeat split; try lia; try assumption.
    + intros j Hj. apply X3. lia.
    + intros j Hj. apply Y3. lia.
  - intros H. unfold getCellCoords.
    destruct (scanFirst _ (lngGrid r) _ _) as [kx| |] eqn:E; cbn [bind].
    + exfalso. exact (scanFirst_below _ _ _ H _ _ E).
    + reflexivity.
    + contradiction.
  - intros H. unfold getCellCoords.
    destruct (scanFirst _ (lngGrid r) _ _) as [kx| |] eqn:E; cbn [bind].
    + destruct (scanFirst _ (latGrid r) _ _) as [ky| |] eqn:E2; cbn [bind].
      * exfalso. exact (scanFirst_below _ _ _ H _ _ E2).
      * reflexivity.
      * contradiction.
    + reflexivity.
    + contradiction.
  - intros (a & Ha & La) (b & Hb & Lb).
    apply In_idx in Ha, Hb. destruct Ha as (i & Hi). destruct Hb as (j & Hj).
    pose proof (idx_Some_range _ _ _ Hi) as Ri. pose proof (idx_Some_range _ _ _ Hj) as Rj.
    unfold len in *.
    destruct (scanFirst_progress (S (length (lngGrid r))) _ _ 0 i a ltac:(lia) Hi La ltac:(lia))
      as (kx & Ex & _).
    destruct (scanFirst_progress (S (length (latGrid r))) _ _ 0 j b ltac:(lia) Hj Lb ltac:(lia))
      as (ky & Ey & _).
    unfold getCellCoords. rewrite Ex, Ey. cbn [bind]. eauto.
Qed.

(** One axis of [getGridCoordsFromHint]: when the hint point lies between
    the lines [h] and [h+1], the point lies between the lines of the
    returned index and the next. *)
Lemma axis_from_hint (g : list R) (v hv : R) (h k : Z) (w e : R) :
  idx g h = Some w -> idx g (h + 1) = Some e -> w <= hv <= e ->
  (if Rlt_dec hv v then scanUp (S (length g)) g v h else scanDown (S (length g)) g v h) = Ok k ->
  exists a b, idx g k = Some a /\ idx g (k + 1) = Some b /\ a <= v <= b
              /\ (hv < v -> (h <= k)%Z) /\ (~ hv < v -> (k <= h)%Z).
Proof.
  intros Hw He Hhv. destruct (Rlt_dec hv v) as [L|L]; intros H.
  - destruct (scanUp_first _ _ _ _ _ H) as (K1 & (b & Hb & Lb) & K3).
    destruct (Z.eq_dec k h) as [->|N].
    + exists w, b. repeat split; auto; try lra; lia.
    + destruct (K3 (k - 1)%Z ltac:(lia)) as (a & Ha & La).
      replace (k - 1 + 1)%Z with k in Ha by lia.
      exists a, b. repeat split; auto; try lra; lia.
  - destruct (scanDown_first _ _ _ _ _ H) as (K1 & (a & Ha & La) & K3).
    destruct (Z.eq_dec k h) as [->|N].
    + exists a, e. repeat split; auto; try lra; lia.
    + destruct (K3 (k + 1)%Z ltac:(lia)) as (b & Hb & Lb).
      exists a, b. repeat split; auto; try lra; lia.
Qed.

Lemma getGridCoordsFromHint_inv (r : RouteBoxer) (p hp : Point) (h c : cell) :
  inCell r h hp -> getGridCoordsFromHint r p hp h = Ok c ->
  inCell r c p
  /\ (Lat hp < Lat p -> (snd h <= snd c)%Z) /\ (~ Lat hp < Lat p -> (snd c <= snd h)%Z).
Proof.
  intros (w & e & s & n & Hw & He & Hs & Hn & Bx & By). unfold getGridCoordsFromHint.
  match goal with |- bind ?m _ = _ -> _ => destruct m as [x| |] eqn:Ex end;
    cbn [bind]; try discriminate.
  match goal with |- bind ?m _ = _ -> _ => destruct m as [y| |] eqn:Ey end;
    cbn [bind]; try discriminate.
  intros [= <-]. cbn [fst snd].
  destruct (axis_from_hint _ _ _ _ _ _ _ Hw He Bx Ex) as (a & b & A1 & A2 & A3 & _).
  destruct (axis_from_hint _ _ _ _ _ _ _ Hs Hn By Ey) as (a' & b' & B1 & B2 & B3 & B4 & B5).
  split; [|split; assumption].
  exists a, b, a', b'. cbn [fst snd]. repeat split; auto; lra.
Qed.

(** X12: when the hint point lies in the hint cell (edges included) and
    [getGridCoordsFromHint] returns a cell, the point lies in that cell
    (edges included), whatever the order of the grid lines. *)
Theorem getGridCoordsFromHint_contains (r : RouteBoxer) (p hp : Point) (h c : cell) :
  inCell r h hp -> getGridCoordsFromHint r p hp h = Ok c -> inCell r c p.
Proof. intros H1 H2. exact (proj1 (getGridCoordsFromHint_inv r p hp h c H1 H2)). Qed.

(** ** Tracing the route *)

Lemma marksKept_refl (r : RouteBoxer) : marksKept r r.
Proof. intros c H. exact H. Qed.

Lemma marksKept_trans (r1 r2 r3 : RouteBoxer) :
  marksKept r1 r2 -> marksKept r2 r3 -> marksKept r1 r3.
Proof. intros H1 H2 c H. auto. Qed.

Lemma gridOnly_lines (r r' : RouteBoxer) :
  gridOnly r r' -> latGrid r' = latGrid r /\ lngGrid r' = lngGrid r /\ vertices r' = vertices r.
Proof. intros [E _]. rewrite E. repeat split. Qed.

Lemma inCell_gridOnly (r r' : RouteBoxer) (c : cell) (p : Point) :
  gridOnly r r' -> inCell r c p -> inCell r' c p.
Proof.
  intros G. destruct (gridOnly_lines _ _ G) as (E1 & E2 & _).
  unfold inCell. now rewrite E1, E2.
Qed.

Lemma getGridCoordsFromHint_gridOnly (r r' : RouteBoxer) (p hp : Point) (h : cell) :
  gridOnly r r' -> getGridCoordsFromHint r' p hp h = getGridCoordsFromHint r p hp h.
Proof.
  intros G. destruct (gridOnly_lines _ _ G) as (E1 & E2 & _).
  unfold getGridCoordsFromHint. now rewrite E1, E2.
Qed.

Lemma markCell_marks (r r' : RouteBoxer) (c : cell) :
  markCell r c = Ok r' -> gridOnly r r' /\ marksKept r r' /\ marked r' c = true.
Proof.
  intros H. destruct (markCell_inv _ _ _ H) as (_ & G & M).
  split; [assumption|]. split.
  - intros c' Hc. rewrite M, Hc. reflexivity.
  - rewrite M. unfold neighbour. rewrite !Z.sub_diag. cbn. apply orb_true_r.
Qed.

Lemma fill_marks (r r' : RouteBoxer) (sx ex y : Z) :
  fillInGridSquares r sx ex y = Ok r' ->
  gridOnly r r' /\ marksKept r r' /\ marked r' (ex, y) = true.
Proof.
  intros H. destruct (fillInGridSquares_marks _ _ _ _ _ H) as (G & M).
  split; [assumption|]. split.
  - intros c' Hc. rewrite M, Hc. reflexivity.
  - rewrite M. unfold inBand. cbn [fst snd].
    replace ((Z.min sx ex - 1 <=? ex) && (ex <=? Z.max sx ex + 1)
             && (Z.abs (y - y) <=? 1))%Z with true; [apply orb_true_r|].
    symmetry. rewrite !andb_true_iff, !Z.leb_le. lia.
Qed.

Lemma intersectsNorth_inv (n : nat) :
  forall r start brng hint hintXY i r' c' i',
    intersectsNorth n r start brng hint hintXY i = Ok (r', c', i') ->
    gridOnly r r' /\ marksKept r r' /\ i' = (i + Z.of_nat n)%Z.
Proof.
  induction n as [|n IH]; intros r start brng hint hintXY i r' c' i'; cbn [intersectsNorth].
  - intros [= <- _ <-]. split; [apply gridOnly_refl|]. split; [apply marksKept_refl | lia].
  - destruct (at_ (latGrid r) i) as [gl| |]; cbn [bind]; try discriminate.
    destruct (getGridCoordsFromHint r _ hint hintXY) as [e| |]; cbn [bind]; try discriminate.
    destruct (fillInGridSquares r _ _ _) as [r1| |] eqn:E; cbn [bind]; try discriminate.
    intros H. destruct (fill_marks _ _ _ _ _ E) as (G1 & M1 & _).
    destruct (IH _ _ _ _ _ _ _ _ _ H) as (G2 & M2 & I2).
    split; [eapply gridOnly_trans; eauto|]. split; [eapply marksKept_trans; eauto | lia].
Qed.

Lemma intersectsSouth_inv (n : nat) :
  forall r start brng hint hintXY i r' c' i',
    intersectsSouth n r start brng hint hintXY i = Ok (r', c', i') ->
    gridOnly r r' /\ marksKept r r' /\ i' = (i - Z.of_nat n)%Z.
Proof.
  induction n as [|n IH]; intros r start brng hint hintXY i r' c' i'; cbn [intersectsSouth].
  - intros [= <- _ <-]. split; [apply gridOnly_refl|]. split; [apply marksKept_refl | lia].
  - destruct (at_ (latGrid r) i) as [gl| |]; cbn [bind]; try discriminate.
    destruct (getGridCoordsFromHint r _ hint hintXY) as [e| |]; cbn [bind]; try discriminate.
    destruct (fillInGridSquares r _ _ _) as [r1| |] eqn:E; cbn [bind]; try discriminate.
    intros H. destruct (fill_marks _ _ _ _ _ E) as (G1 & M1 & _).
    destruct (IH _ _ _ _ _ _ _ _ _ H) as (G2 & M2 & I2).
    split; [eapply gridOnly_trans; eauto|]. split; [eapply marksKept_trans; eauto | lia].
Qed.

(** The last [fillInGridSquares] of [getGridIntersects] runs in the row of
    the end cell and up to its column. *)
Lemma getGridIntersects_marks_end (r r' : RouteBoxer) (s e : Point) (sXY eXY : cell) :
  (Lat s < Lat e -> (snd sXY <= snd eXY)%Z) ->
  (~ Lat s < Lat e -> (snd eXY <= snd sXY)%Z) ->
  getGridIntersects r s e sXY eXY = Ok r' ->
  gridOnly r r' /\ marksKept r r' /\ marked r' eXY = true.
Proof.
  intros HN HS. unfold getGridIntersects. destruct (Rlt_dec (Lat s) (Lat e)) as [L|L].
  - destruct (intersectsNorth _ _ _ _ _ _ _) as [[[r1 c1] k1]| |] eqn:E; cbn [bind];
      try discriminate.
    intros H. destruct (intersectsNorth_inv _ _ _ _ _ _ _ _ _ _ E) as (G1 & M1 & I1).
    destruct (fill_marks _ _ _ _ _ H) as (G2 & M2 & K).
    split; [eapply gridOnly_trans; eauto|]. split; [eapply marksKept_trans; eauto|].
    specialize (HN L).
    replace (k1 - 1)%Z with (snd eXY) in K by lia.
    destruct eXY; exact K.
  - destruct (intersectsSouth _ _ _ _ _ _ _) as [[[r1 c1] k1]| |] eqn:E; cbn [bind];
      try discriminate.
    intros H. destruct (intersectsSouth_inv _ _ _ _ _ _ _ _ _ _ E) as (G1 & M1 & I1).
    destruct (fill_marks _ _ _ _ _ H) as (G2 & M2 & K).
    split; [eapply gridOnly_trans; eauto|]. split; [eapply marksKept_trans; eauto|].
    specialize (HS L).
    replace k1 with (snd eXY) in K by lia.
    destruct eXY; exact K.
Qed.

Lemma traceVertices_inv (vs : list Point) :
  forall r prev hintXY r',
    inCell r hintXY prev -> marked r hintXY = true ->
    traceVertices r prev hintXY vs = Ok r' ->
    gridOnly r r' /\ marksKept r r'
    /\ forall v, In v vs -> exists c, marked r' c = true /\ inCell r c v.
Proof.
  induction vs as [|v rest IH]; intros r prev hintXY r' HC HM; cbn [traceVertices].
  - intros [= <-]. split; [apply gridOnly_refl|]. split; [apply marksKept_refl|].
    intros v [].
  - destruct (getGridCoordsFromHint r v prev hintXY) as [gxy| |] eqn:EG; cbn [bind];
      try discriminate.
    destruct (getGridCoordsFromHint_inv _ _ _ _ _ HC EG) as (C1 & UP & DOWN).
    match goal with |- context [bind ?m _] => destruct m as [r1| |] eqn:E end;
      cbn [bind]; try discriminate.
    intros H.
    assert (S1 : gridOnly r r1 /\ marksKept r r1 /\ marked r1 gxy = true).
    { destruct ((fst gxy =? fst hintXY)%Z && (snd gxy =? snd hintXY)%Z) eqn:B.
      - injection E as <-. apply andb_prop in B. destruct B as [B1 B2].
        apply Z.eqb_eq in B1, B2.
        assert (gxy = hintXY) by (destruct gxy, hintXY; cbn in *; congruence). subst gxy.
        split; [apply gridOnly_refl|]. split; [apply marksKept_refl | assumption].
      - destruct (((fst hintXY - fst gxy =? 1)%Z && (snd hintXY =? snd gxy)%Z)
                  || ((fst hintXY =? fst gxy)%Z && (snd hintXY - snd gxy =? 1)%Z)).
        + now apply markCell_marks.
        + eapply getGridIntersects_marks_end; eauto. }
    destruct S1 as (G1 & M1 & K1).
    destruct (IH r1 v gxy r' (inCell_gridOnly _ _ _ _ G1 C1) K1 H) as (G2 & M2 & V2).
    split; [eapply gridOnly_trans; eauto|]. split; [eapply marksKept_trans; eauto|].
    intros u [<-|Hu].
    + exists gxy. split; [apply M2; assumption | assumption].
    + destruct (V2 u Hu) as (c & Hc & Ic). exists c. split; [assumption|].
      destruct (gridOnly_lines _ _ G1) as (E1 & E2 & _).
      unfold inCell in *. now rewrite E1, E2 in Ic.
Qed.

Lemma FindIntersectingCells_inv (r r' : RouteBoxer) :
  FindIntersectingCells r = Ok r' ->
  gridOnly r r' /\ marksKept r r'
  /\ forall v, In v (vertices r) -> exists c, marked r' c = true /\ inCell r c v.
Proof.
  unfold FindIntersectingCells. destruct (vertices r) as [|v0 rest]; [discriminate|].
  destruct (getCellCoords r v0) as [[x y]| |] eqn:EC; cbn [bind]; try discriminate.
  destruct (markCell r (x, y)) as [r1| |] eqn:EM; cbn [bind]; try discriminate.
  intros H.
  destruct (markCell_inv _ _ _ EM) as (I & _ & _).
  destruct (markCell_marks _ _ _ EM) as (G1 & M1 & K1).
  assert (Hx : (0 <= x /\ 0 <= y)%Z).
  { unfold interior, nine in I. cbn [forallb fst snd] in I.
    apply andb_prop in I. destruct I as [I _].
    unfold hasCell, cellVal in I. cbn [fst snd] in I.
    destruct (idx (grid r) (x - 1)) as [col|] eqn:E1; [|discriminate].
    destruct (idx col (y - 1)) as [v|] eqn:E2; [|discriminate].
    apply idx_Some_range in E1, E2. lia. }
  destruct (getCellCoords_inv _ _ _ _ EC) as [Sx Sy].
  destruct (scanFirst_first _ _ _ _ _ Sx) as (_ & (e & He & Le) & X3).
  destruct (scanFirst_first _ _ _ _ _ Sy) as (_ & (n & Hn & Ln) & Y3).
  destruct (X3 x ltac:(lia)) as (w & Hw & Lw).
  destruct (Y3 y ltac:(lia)) as (s & Hs & Ls).
  assert (C0 : inCell r (x, y) v0).
  { exists w, e, s, n. cbn [fst snd]. repeat split; auto; lra. }
  destruct (traceVertices_inv rest r1 v0 (x, y) r' (inCell_gridOnly _ _ _ _ G1 C0) K1 H)
    as (G2 & M2 & V2).
  split; [eapply gridOnly_trans; eauto|]. split; [eapply marksKept_trans; eauto|].
  intros u [<-|Hu].
  - exists (x, y). split; [apply M2; assumption | assumption].
  - destruct (V2 u Hu) as (c & Hc & Ic). exists c. split; [assumption|].
    destruct (gridOnly_lines _ _ G1) as (E1 & E2 & _).
    unfold inCell in *. now rewrite E1, E2 in Ic.
Qed.

(** X13: when [FindIntersectingCells] returns, it has changed nothing but
    the coverage grid, every cell that was marked is still marked, and
    every vertex of the route lies in a marked cell (edges included). *)
Theorem FindIntersectingCells_marks_every_vertex (r r' : RouteBoxer) :
  FindIntersectingCells r = Ok r' ->
  gridOnly r r' /\ marksKept r r'
  /\ forall v, In v (vertices r) -> exists c, marked r' c = true /\ inCell r c v.
Proof. apply FindIntersectingCells_inv. Qed.

(** ** The result of Boxes *)

Lemma Boxes_final_state (fuel : nat) (d : R) (vs : list Point) (bs : list Bound)
  (r' : RouteBoxer) :
  Boxes fuel (NewRouteBoxer d vs) = Ok (bs, r') ->
  gapped (latGrid r') -> gapped (lngGrid r') ->
  exists r1 r2,
    buildGrid fuel (NewRouteBoxer d vs) = Ok r1 /\ FindIntersectingCells r1 = Ok r2
    /\ vertices r1 = vs
    /\ latGrid r' = latGrid r1 /\ lngGrid r' = lngGrid r1 /\ grid r' = grid r2
    /\ exactTiling r' (boxesX r') /\ exactTiling r' (boxesY r')
    /\ (bs = boxesX r' \/ bs = boxesY r').
Proof.
  intros HB Gy Gx.
  destruct (Boxes_stages _ _ _ _ HB) as (r1 & r2 & E1 & E2 & E3 & ->).
  destruct (buildGrid_frame _ _ _ E1) as (_ & V & BX & BY & _ & _ & EG).
  destruct (FindIntersectingCells_gridOnly _ _ E2) as [F1 F2].
  destruct (mergeIntersectingCells_passes _ _ E3) as (g0 & r3 & I0 & _ & [P1 _] & _ & [P2 _]).
  assert (L1 : latGrid r' = latGrid r2) by (rewrite P2, P1; reflexivity).
  assert (L2 : lngGrid r' = lngGrid r2) by (rewrite P2, P1; reflexivity).
  assert (L3 : grid r' = grid r2) by (rewrite P2, P1; reflexivity).
  assert (L4 : latGrid r2 = latGrid r1 /\ lngGrid r2 = lngGrid r1) by (rewrite F1; split; reflexivity).
  destruct L4 as [L4 L5].
  exists r1, r2. repeat (split; [first [assumption | congruence]|]).
  rewrite L1 in Gy. rewrite L2 in Gx.
  assert (HR : rectangular (grid r2) (length (latGrid r1))).
  { eapply sameShape_rectangular. rewrite <- EG. exact F2. }
  destruct (mergeIntersectingCells_tiles r2 r' (length (latGrid r1))) as [TX TY]; auto.
  - rewrite F1. exact BX.
  - rewrite F1. exact BY.
  - exists g0. split; [exact I0 | apply HR; eapply idx_In; eauto].
  - split; [assumption|]. split; [assumption|].
    destruct (len (boxesX r') <=? len (boxesY r'))%Z; auto.
Qed.

Lemma covers_contains (b cb : Bound) (p : Point) : covers b cb -> contains cb p -> contains b p.
Proof. unfold covers, contains. lra. Qed.

(** X14: when [Boxes] returns for a new RouteBoxer and the grid lines of the
    final state are at least 0.001 degree apart, every vertex of the route
    lies in one of the returned rectangles (edges included). *)
Theorem Boxes_covers_every_vertex (fuel : nat) (d : R) (vs : list Point) (bs : list Bound)
  (r' : RouteBoxer) :
  Boxes fuel (NewRouteBoxer d vs) = Ok (bs, r') ->
  gapped (latGrid r') -> gapped (lngGrid r') ->
  Forall (fun v => exists b, In b bs /\ contains b v) vs.
Proof.
  intros HB Gy Gx.
  destruct (Boxes_final_state _ _ _ _ _ HB Gy Gx)
    as (r1 & r2 & E1 & E2 & V & L1 & L2 & L3 & TX & TY & Hbs).
  assert (T : exactTiling r' bs) by (destruct Hbs as [-> | ->]; assumption).
  destruct (FindIntersectingCells_inv _ _ E2) as (_ & _ & HV).
  rewrite V in HV. apply Forall_forall. intros v Hv.
  destruct (HV v Hv) as ([x y] & Hm & (w & e & s & n & Hw & He & Hs & Hn & Bx & By)).
  cbn [fst snd] in *.
  assert (Hm' : marked r' (x, y) = true) by (unfold marked in *; now rewrite L3).
  destruct T as (_ & T2 & _).
  destruct (T2 _ Hm') as (cb & i & b & Hcb & Hb & Hcov & _).
  destruct (getCellBounds_box _ _ _ _ Gy Gx Hcb) as (_ & _ & _ & _ & ->).
  exists b. split; [eapply idx_In; eauto|].
  apply (covers_contains _ _ _ Hcov).
  rewrite <- L1 in Hs, Hn. rewrite <- L2 in Hw, He.
  rewrite (idx_line _ _ _ Hw), (idx_line _ _ _ He), (idx_line _ _ _ Hs), (idx_line _ _ _ Hn).
  unfold contains, box. cbn [SouthWest NorthEast Lng Lat]. lra.
Qed.

Lemma Boxes_covers_every_vertex_witness :
  Forall (fun v => exists b, In b (colBoxesL 10 0 dxWide dyWide) /\ contains b v) routeWide.
Proof.
  apply (Boxes_covers_every_vertex 3 50000 routeWide (colBoxesL 10 0 dxWide dyWide) stateWide).
  - exact (Boxes_routeWide 0).
  - exact (proj1 stateWide_gapped).
  - exact (proj2 stateWide_gapped).
Defined.

Lemma tiling_covered_iff_marked (r : RouteBoxer) (bs : list Bound) (c : cell) (cb : Bound) :
  exactTiling r bs -> getCellBounds r c = Ok cb ->
  (exists b, In b bs /\ covers b cb) <-> marked r c = true.
Proof.
  intros (_ & T2 & T3) Hcb. split.
  - intros (b & Hb & Hc). destruct (marked r c) eqn:M; [reflexivity|].
    exfalso. exact (T3 c cb b M Hcb Hb Hc).
  - intros M. destruct (T2 c M) as (cb' & i & b & Hcb' & Hb & Hc & _).
    rewrite Hcb in Hcb'. injection Hcb' as <-.
    exists b. split; [eapply idx_In; eauto | assumption].
Qed.

(** X15: when [Boxes] returns for a new RouteBoxer and the grid lines of the
    final state are at least 0.001 degree apart, the two accumulators cover
    the same cells: a cell lies in a box of [boxesX] exactly when it lies
    in a box of [boxesY] (and exactly when it is marked).  The choice made
    by [Boxes] changes the number of rectangles, not the area. *)
Theorem Boxes_accumulators_cover_same_cells (fuel : nat) (d : R) (vs : list Point)
  (bs : list Bound) (r' : RouteBoxer) (c : cell) (cb : Bound) :
  Boxes fuel (NewRouteBoxer d vs) = Ok (bs, r') ->
  gapped (latGrid r') -> gapped (lngGrid r') ->
  getCellBounds r' c = Ok cb ->
  ((exists b, In b (boxesX r') /\ covers b cb) <-> marked r' c = true)
  /\ ((exists b, In b (boxesY r') /\ covers b cb) <-> marked r' c = true).
Proof.
  intros HB Gy Gx Hcb.
  destruct (Boxes_final_state _ _ _ _ _ HB Gy Gx)
    as (r1 & r2 & _ & _ & _ & _ & _ & _ & TX & TY & _).
  split; apply tiling_covered_iff_marked; assumption.
Qed.

Lemma stateWide_cell_3_0 :
  getCellBounds stateWide (3, 0)%Z
  = Ok (box (10 + 1 * dxWide) (0 - 2 * dyWide) (10 + 2 * dxWide) (0 - 1 * dyWide)).
Proof.
  pose proof dyWide_bounds as B. pose proof dxWide_eq as E.
  unfold getCellBounds, stateWide, gridStateL. cbn [latGrid lngGrid fst snd].
  repeat match goal with
         | |- context [at_ ?l ?i] =>
             let v := eval cbv [at_ idx Z.ltb Z.compare Z.to_nat Pos.to_nat Pos.iter_op
                                  Z.add Pos.add Pos.succ Nat.add nth_error]
                      in (at_ l i) in change (at_ l i) with v
         end.
  cbn [bind]. unfold NewBoundFromPoints, NewPointFromLatLng, Extend, box.
  cbn [SouthWest NorthEast Lng Lat]. repeat rstep. reflexivity.
Qed.

Lemma Boxes_accumulators_cover_same_cells_witness :
  ((exists b, In b (boxesX stateWide)
              /\ covers b (box (10 + 1 * dxWide) (0 - 2 * dyWide)
                              (10 + 2 * dxWide) (0 - 1 * dyWide)))
   <-> marked stateWide (3, 0)%Z = true)
  /\ ((exists b, In b (boxesY stateWide)
                 /\ covers b (box (10 + 1 * dxWide) (0 - 2 * dyWide)
                                 (10 + 2 * dxWide) (0 - 1 * dyWide)))
      <-> marked stateWide (3, 0)%Z = true).
Proof.
  apply (Boxes_accumulators_cover_same_cells 3 50000 routeWide
           (colBoxesL 10 0 dxWide dyWide) stateWide (3, 0)%Z).
  - exact (Boxes_routeWide 0).
  - exact (proj1 stateWide_gapped).
  - exact (proj2 stateWide_gapped).
  - exact stateWide_cell_3_0.
Defined.

(** ** buildGrid *)

Lemma len_app {A : Type} (l1 l2 : list A) : len (l1 ++ l2) = (len l1 + len l2)%Z.
Proof. unfold len. rewrite length_app. lia. Qed.

Lemma growAppend_no_panic (fuel : nat) (ln : Z -> R) (edge : R) :
  forall i g, (2 <= i <= len g)%Z -> growAppend fuel ln edge i g <> Panic.
Proof.
  induction fuel as [|fuel IH]; intros i g Hi; cbn [growAppend]; [discriminate|].
  destruct (idx_in_range g (i - 2) ltac:(lia)) as [v Hv].
  rewrite (at_Some _ _ _ Hv). cbn [bind].
  destruct (Rlt_dec v edge); [|discriminate].
  apply IH. rewrite len_app. unfold len at 2. cbn. lia.
Qed.

Lemma growPrepend_no_panic (fuel : nat) (ln : Z -> R) (edge : R) :
  forall i g, (2 <= len g)%Z -> growPrepend fuel ln edge i g <> Panic.
Proof.
  induction fuel as [|fuel IH]; intros i g Hg; cbn [growPrepend]; [discriminate|].
  destruct (idx_in_range g 1 ltac:(lia)) as [v Hv].
  rewrite (at_Some _ _ _ Hv). cbn [bind].
  destruct (Rlt_dec edge v); [|discriminate].
  apply IH. unfold len in *. cbn [length]. lia.
Qed.

Lemma grow_len (g g' pre post : list R) :
  g' = pre ++ g ++ post -> (len g <= len g')%Z.
Proof. intros ->. rewrite !len_app. unfold len. lia. Qed.

(** X16: [buildGrid] never faults, whatever the state it starts from: its
    loops read index [i-2] of a slice of at least [i] lines and index 1 of
    a slice of at least two lines.  It returns or it does not terminate. *)
Theorem buildGrid_never_faults (fuel : nat) (r : RouteBoxer) : buildGrid fuel r <> Panic.
Proof.
  unfold buildGrid. cbv zeta.
  match goal with |- bind ?m _ <> _ => destruct m as [lat2| |] eqn:E1 end; cbn [bind];
    try discriminate.
  2:{ exfalso. revert E1. apply growAppend_no_panic. rewrite !len_app. unfold len. cbn. lia. }
  destruct (growAppend_frame _ _ _ _ _ _ E1) as [p1 P1].
  match goal with |- bind ?m _ <> _ => destruct m as [lat3| |] eqn:E2 end; cbn [bind];
    try discriminate.
  2:{ exfalso. revert E2. apply growPrepend_no_panic. rewrite P1, !len_app.
      unfold len. cbn. lia. }
  match goal with |- bind ?m _ <> _ => destruct m as [lng2| |] eqn:E3 end; cbn [bind];
    try discriminate.
  2:{ exfalso. revert E3. apply growAppend_no_panic. rewrite !len_app. unfold len. cbn. lia. }
  destruct (growAppend_frame _ _ _ _ _ _ E3) as [p2 P2].
  match goal with |- bind ?m _ <> _ => destruct m as [lng3| |] eqn:E4 end; cbn [bind];
    try discriminate.
  exfalso. revert E4. apply growPrepend_no_panic. rewrite P2, !len_app.
  unfold len. cbn. lia.
Qed.

(** *** Lines in arithmetic progression *)

Lemma linesFrom_snoc (c s : R) (lo : Z) (n : nat) :
  linesFrom c s lo (S n) = linesFrom c s lo n ++ [c + IZR (lo + Z.of_nat n) * s].
Proof. unfold linesFrom. rewrite seq_S, map_app. reflexivity. Qed.

Lemma linesFrom_cons (c s : R) (lo : Z) (n : nat) :
  linesFrom c s lo (S n) = (c + IZR lo * s) :: linesFrom c s (lo + 1) n.
Proof.
  unfold linesFrom. cbn [seq map]. f_equal.
  - now rewrite Z.add_0_r.
  - rewrite <- seq_shift, map_map. apply map_ext. intros j.
    do 3 f_equal. lia.
Qed.

Lemma length_linesFrom (c s : R) (lo : Z) (n : nat) : length (linesFrom c s lo n) = n.
Proof. unfold linesFrom. now rewrite length_map, length_seq. Qed.

Lemma idx_linesFrom (c s : R) (lo : Z) (n : nat) (i : Z) :
  (0 <= i < Z.of_nat n)%Z -> idx (linesFrom c s lo n) i = Some (c + IZR (lo + i) * s).
Proof.
  intros Hi. unfold idx, linesFrom.
  destruct (Z.ltb_spec i 0); [lia|].
  rewrite nth_error_map, nth_error_seq.
  destruct (Nat.ltb_spec (Z.to_nat i) n); [|lia].
  cbn. do 4 f_equal. lia.
Qed.

Lemma linesFrom_increasing (c s : R) (lo : Z) (n : nat) :
  0 < s -> increasing (linesFrom c s lo n).
Proof.
  intros Hs i j a b Hij Ha Hb.
  pose proof (idx_Some_range _ _ _ Ha) as Ri. pose proof (idx_Some_range _ _ _ Hb) as Rj.
  unfold len in *. rewrite length_linesFrom in *.
  rewrite idx_linesFrom in Ha, Hb by lia. injection Ha as <-. injection Hb as <-.
  assert (IZR (lo + i) < IZR (lo + j)) by (apply IZR_lt; lia). nra.
Qed.

Section Progression.
Variables c s edge : R.
Variable ln : Z -> R.

(** The growth loop at the end of the slice: [n] lines are appended after
    the two initial ones. *)
Lemma growAppend_run (n : nat) :
  (forall k, (k < n)%nat -> c + INR k * s < edge) -> ~ c + INR n * s < edge ->
  (forall i, (2 <= i <= Z.of_nat n + 1)%Z -> ln i = c + IZR i * s) ->
  forall k j, (j + k = n)%nat -> forall fuel, (k < fuel)%nat ->
    growAppend fuel ln edge (2 + Z.of_nat j) (linesFrom c s 0 (j + 2))
    = Ok (linesFrom c s 0 (n + 2)).
Proof.
  intros Hlt Hstop Hln. induction k as [|k IH]; intros j Hj fuel Hf.
  - destruct fuel as [|fuel]; [lia|]. cbn [growAppend].
    replace (2 + Z.of_nat j - 2)%Z with (Z.of_nat j) by lia.
    rewrite (at_Some _ _ _ (idx_linesFrom c s 0 (j + 2) (Z.of_nat j) ltac:(lia))).
    cbn [bind]. rewrite Z.add_0_l, <- INR_IZR_INZ.
    rewrite Rlt_dec_F; [repeat f_equal; lia|].
    replace j with n by lia. exact Hstop.
  - destruct fuel as [|fuel]; [lia|]. cbn [growAppend].
    replace (2 + Z.of_nat j - 2)%Z with (Z.of_nat j) by lia.
    rewrite (at_Some _ _ _ (idx_linesFrom c s 0 (j + 2) (Z.of_nat j) ltac:(lia))).
    cbn [bind]. rewrite Z.add_0_l, <- INR_IZR_INZ.
    rewrite Rlt_dec_T by (apply Hlt; lia).
    rewrite Hln by lia.
    replace (2 + Z.of_nat j + 1)%Z with (2 + Z.of_nat (S j))%Z by lia.
    replace (linesFrom c s 0 (j + 2) ++ [c + IZR (2 + Z.of_nat j) * s])
      with (linesFrom c s 0 (S j + 2)).
    + apply IH; lia.
    + replace (S j + 2)%nat with (S (j + 2)) by lia. rewrite linesFrom_snoc.
      replace (0 + Z.of_nat (j + 2))%Z with (2 + Z.of_nat j)%Z by lia. reflexivity.
Qed.

(** The growth loop at the start of the slice: [m + 1] lines are
    prepended. *)
Lemma growPrepend_run (m N : nat) :
  (2 <= N)%nat ->
  edge < c + s ->
  (forall k, (k < m)%nat -> edge < c - INR k * s) -> ~ edge < c - INR m * s ->
  (forall i, (1 <= i <= Z.of_nat m + 1)%Z -> ln i = c - IZR i * s) ->
  forall k j, (j + k = m + 1)%nat -> forall fuel, (k < fuel)%nat ->
    growPrepend fuel ln edge (1 + Z.of_nat j) (linesFrom c s (- Z.of_nat j) (j + N))
    = Ok (linesFrom c s (- Z.of_nat (m + 1)) (m + 1 + N)).
Proof.
  intros HN H1 Hlt Hstop Hln. induction k as [|k IH]; intros j Hj fuel Hf.
  - destruct fuel as [|fuel]; [lia|]. cbn [growPrepend].
    rewrite (at_Some _ _ _ (idx_linesFrom c s _ (j + N) 1 ltac:(lia))).
    cbn [bind].
    assert (E : c + IZR (- Z.of_nat j + 1) * s = c - INR m * s).
    { rewrite INR_IZR_INZ. replace (- Z.of_nat j + 1)%Z with (- Z.of_nat m)%Z by lia.
      rewrite opp_IZR. ring. }
    rewrite E. rewrite Rlt_dec_F by exact Hstop.
    repeat f_equal; lia.
  - destruct fuel as [|fuel]; [lia|]. cbn [growPrepend].
    rewrite (at_Some _ _ _ (idx_linesFrom c s _ (j + N) 1 ltac:(lia))).
    cbn [bind].
    assert (E : edge < c + IZR (- Z.of_nat j + 1) * s).
    { destruct j as [|j].
      - cbn. lra.
      - replace (- Z.of_nat (S j) + 1)%Z with (- Z.of_nat j)%Z by lia.
        rewrite opp_IZR, <- INR_IZR_INZ.
        replace (c + - INR j * s) with (c - INR j * s) by ring. apply Hlt. lia. }
    rewrite Rlt_dec_T by exact E.
    rewrite Hln by lia.
    replace (1 + Z.of_nat j + 1)%Z with (1 + Z.of_nat (S j))%Z by lia.
    replace ((c - IZR (1 + Z.of_nat j) * s) :: linesFrom c s (- Z.of_nat j) (j + N))
      with (linesFrom c s (- Z.of_nat (S j)) (S j + N)).
    + apply IH; lia.
    + replace (S j + N)%nat with (S (j + N)) by lia. rewrite linesFrom_cons.
      f_equal.
      * replace (- Z.of_nat (S j))%Z with (- (1 + Z.of_nat j))%Z by lia.
        rewrite opp_IZR. ring.
      * f_equal. lia.
Qed.
End Progression.

(** The number of steps of size [s] needed to reach [t] from 0. *)
Lemma least_step (s t : R) :
  0 < s -> exists n : nat, t <= INR n * s /\ forall k, (k < n)%nat -> INR k * s < t.
Proof.
  intros Hs.
  assert (Hex : exists n : nat, t <= INR n * s).
  { destruct (archimed (t / s)) as [A _].
    exists (Z.to_nat (up (t / s))).
    destruct (Z_le_dec 0 (up (t / s))) as [P|P].
    - rewrite INR_IZR_INZ, Z2Nat.id by assumption.
      apply Rmult_le_reg_r with (/ s); [now apply Rinv_0_lt_compat|].
      rewrite Rmult_assoc, Rinv_r by lra. unfold Rdiv in A. lra.
    - replace (Z.to_nat (up (t / s))) with O by lia. cbn.
      assert (IZR (up (t / s)) < 0) by (apply IZR_lt; lia).
      assert (t / s < 0) by lra.
      assert (t = t / s * s) by (field; lra). nra. }
  destruct (dec_inh_nat_subset_has_unique_least_element (fun n => t <= INR n * s))
    as (n & (Hn & Hleast) & _).
  - intros k. destruct (Rle_dec t (INR k * s)); auto.
  - exact Hex.
  - exists n. split; [assumption|]. intros k Hk.
    destruct (Rlt_dec (INR k * s) t) as [L|L]; [assumption|].
    apply Rnot_lt_le in L. specialize (Hleast k L). lia.
Qed.

Lemma fold_min_le {A : Type} (f : A -> R) (l : list A) :
  forall a, fold_left (fun m v => Rmin m (f v)) l a <= a.
Proof.
  induction l as [|h t IH]; intros a; cbn [fold_left]; [lra|].
  eapply Rle_trans; [apply IH | apply Rmin_l].
Qed.

Lemma fold_max_ge {A : Type} (f : A -> R) (l : list A) :
  forall a, a <= fold_left (fun m v => Rmax m (f v)) l a.
Proof.
  induction l as [|h t IH]; intros a; cbn [fold_left]; [lra|].
  eapply Rle_trans; [apply Rmax_l | apply IH].
Qed.

(** The bounding box of a point set has its south-west corner south-west
    of its north-east corner. *)
Lemma PointSet_Bound_ordered (vs : list Point) :
  Lng (SouthWest (PointSet_Bound vs)) <= Lng (NorthEast (PointSet_Bound vs))
  /\ Lat (SouthWest (PointSet_Bound vs)) <= Lat (NorthEast (PointSet_Bound vs)).
Proof.
  unfold PointSet_Bound, NewBound.
  destruct vs as [|p rest]; cbn [SouthWest NorthEast Lng Lat];
    split; (eapply Rle_trans; [apply Rmin_l | apply Rmax_l]).
Qed.

(** *** The grid of a new RouteBoxer *)

Section GridLines.
Variables cx cy d : R.
Let c : Point := mkPoint cx cy.
Let a : R := d / EarthRadius.
Let q : R := cos (deg2rad cy).
Let dy : R := rad2deg a.
Let dx : R := rad2deg (a / q).

Hypothesis a_lo : 1 / 10 ^ 10 <= a.
Hypothesis cy_range : -90 < cy < 90.

Lemma gl_a_pos : 0 < a.
Proof. pose proof tiny_pos. lra. Qed.

Lemma gl_q_pos : 0 < q.
Proof.
  unfold q. assert (H : Rabs cy < 90) by (apply Rabs_def1; lra).
  apply deg2rad_lt_PI2 in H. apply Rabs_def2 in H. apply cos_gt_0; lra.
Qed.

Lemma gl_dy_pos : 0 < dy.
Proof.
  unfold dy, rad2deg. pose proof gl_a_pos. pose proof PI_gt_3.
  apply Rdiv_lt_0_compat; lra.
Qed.

Lemma gl_dx_pos : 0 < dx.
Proof.
  unfold dx, rad2deg. pose proof gl_a_pos. pose proof gl_q_pos. pose proof PI_gt_3.
  apply Rdiv_lt_0_compat; [|lra].
  apply Rmult_lt_0_compat; [lra|]. apply Rdiv_lt_0_compat; assumption.
Qed.

Lemma gl_scaled (k : R) : d * k / EarthRadius = k * a.
Proof. unfold a, EarthRadius. field. Qed.

Lemma gl_deg2rad_step (x k u : R) : deg2rad (x + k * rad2deg u) = deg2rad x + k * u.
Proof. unfold deg2rad, rad2deg. pose proof PI_gt_3. field. lra. Qed.

Lemma gl_north (k : R) :
  1 <= k -> cy + k * dy <= 90 -> Lat (RhumbDestinationPoint c 0 (d * k)) = cy + k * dy.
Proof.
  intros Hk Hr. pose proof gl_a_pos. pose proof gl_dy_pos.
  rewrite RDP_north; rewrite gl_scaled.
  - cbn [Lat c]. now rewrite rad2deg_scale.
  - nra.
  - cbn [Lat c]. rewrite <- gl_deg2rad_step. fold dy.
    apply deg2rad_le_PI2. apply Rabs_le. nra.
Qed.

Lemma gl_south (k : R) :
  1 <= k -> -90 <= cy - k * dy -> Lat (RhumbDestinationPoint c 180 (d * k)) = cy - k * dy.
Proof.
  intros Hk Hr. pose proof gl_a_pos. pose proof gl_dy_pos.
  rewrite RDP_south; rewrite gl_scaled.
  - cbn [Lat c]. now rewrite rad2deg_scale.
  - nra.
  - cbn [Lat c].
    replace (deg2rad cy - k * a) with (deg2rad cy + (- k) * a) by ring.
    rewrite <- gl_deg2rad_step. fold dy.
    apply deg2rad_le_PI2. apply Rabs_le. nra.
Qed.

Lemma gl_east (k : R) :
  1 <= k -> -90 < cx -> cx + k * dx < 90 ->
  Lng (RhumbDestinationPoint c 90 (d * k)) = cx + k * dx.
Proof.
  intros Hk Hl Hr. pose proof gl_a_pos. pose proof gl_dx_pos.
  assert (E : d * k / EarthRadius / cos (deg2rad (Lat c)) = k * (a / q)).
  { rewrite gl_scaled. cbn [Lat c]. fold q. unfold Rdiv. ring. }
  rewrite RDP_east; rewrite E.
  - cbn [Lng c]. now rewrite rad2deg_scale.
  - cbn [Lng c]. rewrite <- gl_deg2rad_step. fold dx.
    apply deg2rad_lt_PI2. apply Rabs_def1; nra.
Qed.

Lemma gl_west (k : R) :
  1 <= k -> cx < 90 -> -90 < cx - k * dx ->
  Lng (RhumbDestinationPoint c 270 (d * k)) = cx - k * dx.
Proof.
  intros Hk Hl Hr. pose proof gl_a_pos. pose proof gl_dx_pos.
  assert (E : d * k / EarthRadius / cos (deg2rad (Lat c)) = k * (a / q)).
  { rewrite gl_scaled. cbn [Lat c]. fold q. unfold Rdiv. ring. }
  rewrite RDP_west; rewrite E.
  - cbn [Lng c]. now rewrite rad2deg_scale.
  - cbn [Lng c].
    replace (deg2rad cx - k * (a / q)) with (deg2rad cx + (- k) * (a / q)) by ring.
    rewrite <- gl_deg2rad_step. fold dx.
    apply deg2rad_lt_PI2. apply Rabs_def1; nra.
Qed.

Lemma gl_first :
  cy + dy <= 90 -> -90 < cx -> cx + dx < 90 ->
  Lat (RhumbDestinationPoint c 0 d) = cy + 1 * dy
  /\ Lng (RhumbDestinationPoint c 90 d) = cx + 1 * dx.
Proof.
  intros. split.
  - replace (RhumbDestinationPoint c 0 d) with (RhumbDestinationPoint c 0 (d * 1))
      by (f_equal; ring).
    apply gl_north; lra.
  - replace (RhumbDestinationPoint c 90 d) with (RhumbDestinationPoint c 90 (d * 1))
      by (f_equal; ring).
    apply gl_east; lra.
Qed.

Lemma linesFrom_two (x s : R) : [x; x + 1 * s] = linesFrom x s 0 (0 + 2).
Proof. change ([x; x + 1 * s] = [x + 0 * s; x + 1 * s]). f_equal. ring. Qed.

Variable vs : list Point.
Variables S N W E : R.
Hypothesis bound_vs : PointSet_Bound vs = mkBound (mkPoint W S) (mkPoint E N).
Hypothesis center_vs : Center (PointSet_Bound vs) = c.
Hypothesis SN : S <= cy <= N.
Hypothesis WE : W <= cx <= E.

Variables m n mx nx : nat.
Hypothesis north_steps :
  N <= cy + INR n * dy /\ forall k, (k < n)%nat -> cy + INR k * dy < N.
Hypothesis south_steps :
  cy - INR m * dy <= S /\ forall k, (k < m)%nat -> S < cy - INR k * dy.
Hypothesis east_steps :
  E <= cx + INR nx * dx /\ forall k, (k < nx)%nat -> cx + INR k * dx < E.
Hypothesis west_steps :
  cx - INR mx * dx <= W /\ forall k, (k < mx)%nat -> W < cx - INR k * dx.
Hypothesis north_room : cy + (INR n + 1) * dy <= 90.
Hypothesis south_room : -90 <= cy - (INR m + 1) * dy.
Hypothesis east_room : cx + (INR nx + 1) * dx < 90.
Hypothesis west_room : -90 < cx - (INR mx + 1) * dx.

Lemma gl_buildGrid (fuel : nat) :
  (n < fuel)%nat -> (m + 1 < fuel)%nat -> (nx < fuel)%nat -> (mx + 1 < fuel)%nat ->
  buildGrid fuel (NewRouteBoxer d vs)
  = Ok (mkRouteBoxer d vs
          (linesFrom cy dy (- Z.of_nat (m + 1)) (m + 1 + (n + 2)))
          (linesFrom cx dx (- Z.of_nat (mx + 1)) (mx + 1 + (nx + 2)))
          (repeat (repeat 0%Z (m + 1 + (n + 2))) (mx + 1 + (nx + 2))) [] []).
Proof.
  intros F1 F2 F3 F4.
  pose proof gl_dy_pos as Py. pose proof gl_dx_pos as Px.
  pose proof (pos_INR n). pose proof (pos_INR m). pose proof (pos_INR nx). pose proof (pos_INR mx).
  destruct north_steps as [N1 N2]. destruct south_steps as [S1 S2].
  destruct east_steps as [E1 E2]. destruct west_steps as [W1 W2].
  destruct gl_first as [G1 G2]; [nra | nra | nra |].
  assert (IR : forall i k : Z, (1 <= i <= k)%Z -> 1 <= IZR i <= IZR k).
  { intros i k Hi. split; apply IZR_le; lia. }
  assert (RN : forall k : nat, IZR (Z.of_nat k + 1) = INR k + 1).
  { intros k. rewrite plus_IZR, <- INR_IZR_INZ. reflexivity. }
  unfold buildGrid, NewRouteBoxer. cbv zeta.
  cbn [vertices distanceRange latGrid lngGrid app].
  rewrite center_vs, bound_vs. cbn [NorthEast SouthWest]. rewrite G1, G2. cbn [Lat Lng c].
  rewrite !linesFrom_two.
  change 2%Z with (2 + Z.of_nat 0)%Z.
  rewrite (growAppend_run cy dy N _ n N2 ltac:(lra)) with (k := n); try lia.
  2:{ intros i Hi. cbv beta. destruct (IR i (Z.of_nat n + 1)%Z ltac:(lia)) as [I1 I2].
      rewrite RN in I2. apply gl_north; [lra | nra]. }
  cbn [bind].
  change 1%Z with (1 + Z.of_nat 0)%Z at 1.
  change (linesFrom cy dy 0 (n + 2)) with (linesFrom cy dy (- Z.of_nat 0) (0 + (n + 2))).
  rewrite (growPrepend_run cy dy S _ m (n + 2) ltac:(lia) ltac:(lra) S2 ltac:(lra))
    with (k := (m + 1)%nat); try lia.
  2:{ intros i Hi. cbv beta. destruct (IR i (Z.of_nat m + 1)%Z ltac:(lia)) as [I1 I2].
      rewrite RN in I2. apply gl_south; [lra | nra]. }
  cbn [bind].
  rewrite (growAppend_run cx dx E _ nx E2 ltac:(lra)) with (k := nx); try lia.
  2:{ intros i Hi. cbv beta. destruct (IR i (Z.of_nat nx + 1)%Z ltac:(lia)) as [I1 I2].
      rewrite RN in I2. apply gl_east; [lra | nra | nra]. }
  cbn [bind].
  change 1%Z with (1 + Z.of_nat 0)%Z at 1.
  change (linesFrom cx dx 0 (nx + 2)) with (linesFrom cx dx (- Z.of_nat 0) (0 + (nx + 2))).
  rewrite (growPrepend_run cx dx W _ mx (nx + 2) ltac:(lia) ltac:(lra) W2 ltac:(lra))
    with (k := (mx + 1)%nat); try lia.
  2:{ intros i Hi. cbv beta. destruct (IR i (Z.of_nat mx + 1)%Z ltac:(lia)) as [I1 I2].
      rewrite RN in I2. apply gl_west; [lra | nra | nra]. }
  cbn [bind]. unfold set_grid, set_lngGrid, set_latGrid.
  cbn [distanceRange vertices latGrid lngGrid grid boxesX boxesY].
  rewrite !length_linesFrom. reflexivity.
Qed.
End GridLines.

Lemma buildGrid_even_lines_steps (d : R) (vs : list Point) :
  let b := PointSet_Bound vs in
  let cx := Lng (Center b) in
  let cy := Lat (Center b) in
  let dy := rad2deg (d / EarthRadius) in
  let dx := rad2deg (d / EarthRadius / cos (deg2rad cy)) in
  1 / 10 ^ 10 <= d / EarthRadius ->
  -90 <= Lat (SouthWest b) - 2 * dy -> Lat (NorthEast b) + 2 * dy <= 90 ->
  -90 < Lng (SouthWest b) - 2 * dx -> Lng (NorthEast b) + 2 * dx < 90 ->
  exists m n mx nx : nat,
    0 < dy /\ 0 < dx
    /\ (Lat (NorthEast b) <= cy + INR n * dy
        /\ forall k, (k < n)%nat -> cy + INR k * dy < Lat (NorthEast b))
    /\ (cy - INR m * dy <= Lat (SouthWest b)
        /\ forall k, (k < m)%nat -> Lat (SouthWest b) < cy - INR k * dy)
    /\ (Lng (NorthEast b) <= cx + INR nx * dx
        /\ forall k, (k < nx)%nat -> cx + INR k * dx < Lng (NorthEast b))
    /\ (cx - INR mx * dx <= Lng (SouthWest b)
        /\ forall k, (k < mx)%nat -> Lng (SouthWest b) < cx - INR k * dx)
    /\ forall fuel, (m + n + mx + nx + 2 <= fuel)%nat ->
         buildGrid fuel (NewRouteBoxer d vs)
         = Ok (mkRouteBoxer d vs
                 (linesFrom cy dy (- Z.of_nat (m + 1)) (m + n + 3))
                 (linesFrom cx dx (- Z.of_nat (mx + 1)) (mx + nx + 3))
                 (repeat (repeat 0%Z (m + n + 3)) (mx + nx + 3)) [] []).
Proof.
  intros b cx cy dy dx Ha HS HN HW HE.
  destruct (PointSet_Bound_ordered vs) as [OX OY]. fold b in OX, OY.
  assert (Cy : Lat (SouthWest b) <= cy <= Lat (NorthEast b)).
  { unfold cy, Center. cbn [Lat]. lra. }
  assert (Cx : Lng (SouthWest b) <= cx <= Lng (NorthEast b)).
  { unfold cx, Center. cbn [Lng]. lra. }
  assert (Py : 0 < dy).
  { unfold dy, rad2deg. pose proof tiny_pos. pose proof PI_gt_3.
    apply Rdiv_lt_0_compat; lra. }
  assert (Ry : -90 < cy < 90) by lra.
  assert (Px : 0 < dx) by (apply (gl_dx_pos cy d Ha Ry)).
  destruct (least_step dy (Lat (NorthEast b) - cy) Py) as (n & N1 & N2).
  destruct (least_step dy (cy - Lat (SouthWest b)) Py) as (m & S1 & S2).
  destruct (least_step dx (Lng (NorthEast b) - cx) Px) as (nx & E1 & E2).
  destruct (least_step dx (cx - Lng (SouthWest b)) Px) as (mx & W1 & W2).
  assert (Room : forall (k : nat) (s t : R), 0 < s -> 0 <= t ->
                   (forall j, (j < k)%nat -> INR j * s < t) -> (INR k + 1) * s <= t + 2 * s).
  { intros k s t Hs Ht Hk. destruct k as [|k].
    - cbn. lra.
    - specialize (Hk k ltac:(lia)). rewrite S_INR. lra. }
  assert (RN := Room n dy (Lat (NorthEast b) - cy) Py ltac:(lra) N2).
  assert (RS := Room m dy (cy - Lat (SouthWest b)) Py ltac:(lra) S2).
  assert (RE := Room nx dx (Lng (NorthEast b) - cx) Px ltac:(lra) E2).
  assert (RW := Room mx dx (cx - Lng (SouthWest b)) Px ltac:(lra) W2).
  exists m, n, mx, nx.
  split; [assumption|]. split; [assumption|].
  split; [split; [lra | intros k Hk; specialize (N2 k Hk); lra]|].
  split; [split; [lra | intros k Hk; specialize (S2 k Hk); lra]|].
  split; [split; [lra | intros k Hk; specialize (E2 k Hk); lra]|].
  split; [split; [lra | intros k Hk; specialize (W2 k Hk); lra]|].
  intros fuel Hf.
  replace (m + n + 3)%nat with (m + 1 + (n + 2))%nat by lia.
  replace (mx + nx + 3)%nat with (mx + 1 + (nx + 2))%nat by lia.
  apply (gl_buildGrid cx cy d Ha Ry vs (Lat (SouthWest b)) (Lat (NorthEast b))
           (Lng (SouthWest b)) (Lng (NorthEast b))); fold dy; fold dx; try lia; try lra.
  - unfold b. destruct (PointSet_Bound vs) as [[w s] [e nn]]. reflexivity.
  - unfold cx, cy, b. destruct (Center (PointSet_Bound vs)); reflexivity.
  - split; [lra | intros k Hk; specialize (N2 k Hk); lra].
  - split; [lra | intros k Hk; specialize (S2 k Hk); lra].
  - split; [lra | intros k Hk; specialize (E2 k Hk); lra].
  - split; [lra | intros k Hk; specialize (W2 k Hk); lra].
Qed.

(** X17: the grid that [buildGrid] lays for a new RouteBoxer.  When the
    distance is at least 1e-10 Earth radii and the bounding box of the
    route, widened by two cells, stays between the poles and within 90
    degrees of the meridian 0, [buildGrid] returns as soon as the fuel
    covers the number of lines.  The lines of each axis are evenly spaced
    ([dy] apart in latitude, [dx] in longitude), pass through the centre
    of the bounding box, and go from one step beyond the first line that
    reaches the south (west) edge to one step beyond the first line that
    reaches the north (east) edge.  The coverage grid has one column per
    longitude line, one row per latitude line, and is all zero. *)
Theorem buildGrid_lays_even_lines (d : R) (vs : list Point) :
  let b := PointSet_Bound vs in
  let cx := Lng (Center b) in
  let cy := Lat (Center b) in
  let dy := rad2deg (d / EarthRadius) in
  let dx := rad2deg (d / EarthRadius / cos (deg2rad cy)) in
  1 / 10 ^ 10 <= d / EarthRadius ->
  -90 <= Lat (SouthWest b) - 2 * dy -> Lat (NorthEast b) + 2 * dy <= 90 ->
  -90 < Lng (SouthWest b) - 2 * dx -> Lng (NorthEast b) + 2 * dx < 90 ->
  exists m n mx nx : nat,
    0 < dy /\ 0 < dx
    /\ (Lat (NorthEast b) <= cy + INR n * dy
        /\ forall k, (k < n)%nat -> cy + INR k * dy < Lat (NorthEast b))
    /\ (cy - INR m * dy <= Lat (SouthWest b)
        /\ forall k, (k < m)%nat -> Lat (SouthWest b) < cy - INR k * dy)
    /\ (Lng (NorthEast b) <= cx + INR nx * dx
        /\ forall k, (k < nx)%nat -> cx + INR k * dx < Lng (NorthEast b))
    /\ (cx - INR mx * dx <= Lng (SouthWest b)
        /\ forall k, (k < mx)%nat -> Lng (SouthWest b) < cx - INR k * dx)
    /\ forall fuel, (m + n + mx + nx + 2 <= fuel)%nat ->
         buildGrid fuel (NewRouteBoxer d vs)
         = Ok (mkRouteBoxer d vs
                 (linesFrom cy dy (- Z.of_nat (m + 1)) (m + n + 3))
                 (linesFrom cx dx (- Z.of_nat (mx + 1)) (mx + nx + 3))
                 (repeat (repeat 0%Z (m + n + 3)) (mx + nx + 3)) [] []).
Proof. exact (buildGrid_even_lines_steps d vs). Qed.

Lemma buildGrid_lays_even_lines_witness :
  let b := PointSet_Bound [mkPoint 10 45] in
  let cx := Lng (Center b) in
  let cy := Lat (Center b) in
  let dy := rad2deg (50 / EarthRadius) in
  let dx := rad2deg (50 / EarthRadius / cos (deg2rad cy)) in
  exists m n mx nx : nat,
    0 < dy /\ 0 < dx
    /\ (Lat (NorthEast b) <= cy + INR n * dy
        /\ forall k, (k < n)%nat -> cy + INR k * dy < Lat (NorthEast b))
    /\ (cy - INR m * dy <= Lat (SouthWest b)
        /\ forall k, (k < m)%nat -> Lat (SouthWest b) < cy - INR k * dy)
    /\ (Lng (NorthEast b) <= cx + INR nx * dx
        /\ forall k, (k < nx)%nat -> cx + INR k * dx < Lng (NorthEast b))
    /\ (cx - INR mx * dx <= Lng (SouthWest b)
        /\ forall k, (k < mx)%nat -> Lng (SouthWest b) < cx - INR k * dx)
    /\ forall fuel, (m + n + mx + nx + 2 <= fuel)%nat ->
         buildGrid fuel (NewRouteBoxer 50 [mkPoint 10 45])
         = Ok (mkRouteBoxer 50 [mkPoint 10 45]
                 (linesFrom cy dy (- Z.of_nat (m + 1)) (m + n + 3))
                 (linesFrom cx dx (- Z.of_nat (mx + 1)) (mx + nx + 3))
                 (repeat (repeat 0%Z (m + n + 3)) (mx + nx + 3)) [] []).
Proof.
  assert (A : 0 <= 50 / EarthRadius <= 1 / 100000) by (unfold EarthRadius; lra).
  pose proof (rad2deg_bounds (50 / EarthRadius) (proj1 A)) as By.
  assert (Q : 1 / 2 <= cos (deg2rad (Lat (Center (PointSet_Bound [mkPoint 10 45]))))).
  { rewrite point_bound. unfold Center. cbn [NorthEast SouthWest Lat].
    replace ((45 + 45) / 2) with 45 by lra. apply cos_deg_45. }
  set (q := cos (deg2rad (Lat (Center (PointSet_Bound [mkPoint 10 45]))))) in *.
  assert (AQ : 0 <= 50 / EarthRadius / q <= 2 * (50 / EarthRadius)).
  { split.
    - apply Rmult_le_pos; [lra|]. apply Rlt_le, Rinv_0_lt_compat. lra.
    - apply Rmult_le_reg_r with q; [lra|].
      unfold Rdiv at 1. rewrite Rmult_assoc, Rinv_l by lra. nra. }
  pose proof (rad2deg_bounds _ (proj1 AQ)) as Bx.
  apply (buildGrid_lays_even_lines 50 [mkPoint 10 45]); fold q;
    rewrite ?point_bound; cbn [NorthEast SouthWest Lat Lng].
  - unfold EarthRadius. simpl. lra.
  - lra.
  - lra.
  - lra.
  - lra.
Defined.

(** ** Every loop after buildGrid ends *)

Lemma at_ends {A : Type} (l : list A) (i : Z) : at_ l i <> OutOfFuel.
Proof. unfold at_. destruct (idx l i); discriminate. Qed.

Lemma bind_ends {A B : Type} (m : outcome A) (k : A -> outcome B) :
  m <> OutOfFuel -> (forall a, k a <> OutOfFuel) -> bind m k <> OutOfFuel.
Proof. intros Hm Hk. destruct m; cbn [bind]; [apply Hk | discriminate | contradiction]. Qed.

Lemma Ok_ends {A : Type} (a : A) : Ok a <> OutOfFuel.
Proof. discriminate. Qed.

Ltac ends :=
  repeat match goal with
         | |- Ok _ <> OutOfFuel => apply Ok_ends
         | |- at_ _ _ <> OutOfFuel => apply at_ends
         | |- bind _ _ <> OutOfFuel => apply bind_ends; [|intros]
         end.

Lemma getCellCoords_ends (r : RouteBoxer) (p : Point) : getCellCoords r p <> OutOfFuel.
Proof.
  unfold getCellCoords. ends; apply scanFirst_fuel; unfold len; lia.
Qed.

Lemma getGridCoordsFromHint_ends (r : RouteBoxer) (p hp : Point) (h : cell) :
  getGridCoordsFromHint r p hp h <> OutOfFuel.
Proof.
  unfold getGridCoordsFromHint. ends.
  - destruct (Rlt_dec (Lng hp) (Lng p)).
    + apply scanUp_fuel; unfold len; lia.
    + apply scanDown_fuel; unfold len; lia.
  - destruct (Rlt_dec (Lat hp) (Lat p)).
    + apply scanUp_fuel; unfold len; lia.
    + apply scanDown_fuel; unfold len; lia.
Qed.

Lemma markCell_ends (r : RouteBoxer) (c : cell) : markCell r c <> OutOfFuel.
Proof. unfold markCell, setCell. cbv zeta. ends. Qed.

Lemma fillUp_ends (n : nat) : forall r x y, fillUp n r x y <> OutOfFuel.
Proof.
  induction n as [|n IH]; intros r x y; cbn [fillUp]; ends; [apply markCell_ends | apply IH].
Qed.

Lemma fillDown_ends (n : nat) : forall r x y, fillDown n r x y <> OutOfFuel.
Proof.
  induction n as [|n IH]; intros r x y; cbn [fillDown]; ends; [apply markCell_ends | apply IH].
Qed.

Lemma fillInGridSquares_ends (r : RouteBoxer) (sx ex y : Z) :
  fillInGridSquares r sx ex y <> OutOfFuel.
Proof.
  unfold fillInGridSquares. destruct (sx <? ex)%Z; [apply fillUp_ends | apply fillDown_ends].
Qed.

Lemma intersectsNorth_ends (n : nat) :
  forall r start brng hint hintXY i, intersectsNorth n r start brng hint hintXY i <> OutOfFuel.
Proof.
  induction n as [|n IH]; intros; cbn [intersectsNorth]; ends.
  - apply getGridCoordsFromHint_ends.
  - apply fillInGridSquares_ends.
  - apply IH.
Qed.

Lemma intersectsSouth_ends (n : nat) :
  forall r start brng hint hintXY i, intersectsSouth n r start brng hint hintXY i <> OutOfFuel.
Proof.
  induction n as [|n IH]; intros; cbn [intersectsSouth]; ends.
  - apply getGridCoordsFromHint_ends.
  - apply fillInGridSquares_ends.
  - apply IH.
Qed.

Lemma getGridIntersects_ends (r : RouteBoxer) (s e : Point) (sXY eXY : cell) :
  getGridIntersects r s e sXY eXY <> OutOfFuel.
Proof.
  unfold getGridIntersects. cbv zeta. destruct (Rlt_dec (Lat s) (Lat e)).
  - apply bind_ends; [apply intersectsNorth_ends|]. intros [[r1 c1] k1].
    apply fillInGridSquares_ends.
  - apply bind_ends; [apply intersectsSouth_ends|]. intros [[r1 c1] k1].
    apply fillInGridSquares_ends.
Qed.

Lemma traceVertices_ends (vs : list Point) :
  forall r prev hintXY, traceVertices r prev hintXY vs <> OutOfFuel.
Proof.
  induction vs as [|v rest IH]; intros; cbn [traceVertices]; [discriminate|].
  apply bind_ends; [apply getGridCoordsFromHint_ends|]. intros gxy.
  apply bind_ends; [|intros; apply IH].
  destruct ((fst gxy =? fst hintXY)%Z && (snd gxy =? snd hintXY)%Z); [discriminate|].
  destruct (((fst hintXY - fst gxy =? 1)%Z && (snd hintXY =? snd gxy)%Z)
            || ((fst hintXY =? fst gxy)%Z && (snd hintXY - snd gxy =? 1)%Z)).
  - apply markCell_ends.
  - apply getGridIntersects_ends.
Qed.

Lemma FindIntersectingCells_ends (r : RouteBoxer) : FindIntersectingCells r <> OutOfFuel.
Proof.
  unfold FindIntersectingCells. destruct (vertices r) as [|v0 rest]; [discriminate|].
  apply bind_ends; [apply getCellCoords_ends|]. intros h.
  apply bind_ends; [apply markCell_ends|]. intros r1. apply traceVertices_ends.
Qed.

Lemma getCellBounds_ends (r : RouteBoxer) (c : cell) : getCellBounds r c <> OutOfFuel.
Proof. unfold getCellBounds. ends. Qed.

Lemma cellStep_ends (merge : RouteBoxer -> option Bound -> RouteBoxer) (r : RouteBoxer)
  (cur : option Bound) (x y : Z) : cellStep merge r cur x y <> OutOfFuel.
Proof.
  unfold cellStep. ends. match goal with |- context [(?v =? 1)%Z] => destruct (v =? 1)%Z end; [|discriminate].
  apply bind_ends; [apply getCellBounds_ends|]. intros b. destruct cur; discriminate.
Qed.

Lemma rowInner_ends (n : nat) : forall r cur x y, rowInner n r cur x y <> OutOfFuel.
Proof.
  induction n as [|n IH]; intros; cbn [rowInner]; [discriminate|].
  apply bind_ends; [apply cellStep_ends | intros; apply IH].
Qed.

Lemma colInner_ends (n : nat) : forall r cur x y, colInner n r cur x y <> OutOfFuel.
Proof.
  induction n as [|n IH]; intros; cbn [colInner]; [discriminate|].
  apply bind_ends; [apply cellStep_ends | intros; apply IH].
Qed.

Lemma rowOuter_ends (n : nat) : forall r y, rowOuter n r y <> OutOfFuel.
Proof.
  induction n as [|n IH]; intros; cbn [rowOuter]; [discriminate|].
  apply bind_ends; [apply rowInner_ends | intros; apply IH].
Qed.

Lemma colOuter_ends (n h : nat) : forall r x, colOuter n h r x <> OutOfFuel.
Proof.
  induction n as [|n IH]; intros; cbn [colOuter]; [discriminate|].
  apply bind_ends; [apply colInner_ends | intros; apply IH].
Qed.

Lemma mergeIntersectingCells_ends (r : RouteBoxer) : mergeIntersectingCells r <> OutOfFuel.
Proof.
  unfold mergeIntersectingCells. ends; [apply rowOuter_ends | apply colOuter_ends].
Qed.

(** X18: the two loops of [buildGrid] that wait for a line to pass an edge
    are the only place where [Boxes] can run for ever.  The scans of the
    locators stop at the end of the slice at the latest (by an index fault),
    and every other loop is bounded by the data: once [buildGrid] has
    returned, [Boxes] returns a result or faults. *)
Theorem Boxes_runs_forever_only_in_buildGrid (fuel : nat) (r : RouteBoxer) :
  (Boxes fuel r = OutOfFuel <-> buildGrid fuel r = OutOfFuel)
  /\ FindIntersectingCells r <> OutOfFuel
  /\ mergeIntersectingCells r <> OutOfFuel.
Proof.
  split; [|split; [apply FindIntersectingCells_ends | apply mergeIntersectingCells_ends]].
  unfold Boxes. destruct (buildGrid fuel r) as [r1| |]; cbn [bind].
  - split; [|discriminate]. intros H. exfalso. revert H.
    apply bind_ends; [apply FindIntersectingCells_ends|]. intros r2.
    apply bind_ends; [apply mergeIntersectingCells_ends|]. intros r3.
    destruct (len (boxesX r3) <=? len (boxesY r3))%Z; discriminate.
  - split; discriminate.
  - split; reflexivity.
Qed.

(** ** Cell bounds *)

(** X19: the bounds of a cell.  A cell has bounds when the lines [x],
    [x+1] of the longitude grid and [y], [y+1] of the latitude grid exist,
    and they are the rectangle between those lines with its corners put in
    order; for any other cell, among them the cells of the last index of
    each axis, [getCellBounds] faults. *)
Theorem getCellBounds_between_lines (r : RouteBoxer) (x y : Z) :
  (forall w e s n,
     idx (lngGrid r) x = Some w -> idx (lngGrid r) (x + 1) = Some e ->
     idx (latGrid r) y = Some s -> idx (latGrid r) (y + 1) = Some n ->
     getCellBounds r (x, y) = Ok (box (Rmin w e) (Rmin s n) (Rmax w e) (Rmax s n)))
  /\ ((x < 0 \/ len (lngGrid r) <= x + 1 \/ y < 0 \/ len (latGrid r) <= y + 1)%Z ->
      getCellBounds r (x, y) = Panic).
Proof.
  split.
  - intros w e s n Hw He Hs Hn. unfold getCellBounds. cbn [fst snd].
    rewrite (at_Some _ _ _ Hs), (at_Some _ _ _ Hw), (at_Some _ _ _ Hn), (at_Some _ _ _ He).
    reflexivity.
  - intros H. unfold getCellBounds. cbn [fst snd].
    destruct (at_cases (latGrid r) y) as [(s & Hs & E1)|[_ E1]]; rewrite E1; cbn [bind];
      [|reflexivity].
    destruct (at_cases (lngGrid r) x) as [(w & Hw & E2)|[_ E2]]; rewrite E2; cbn [bind];
      [|reflexivity].
    destruct (at_cases (latGrid r) (y + 1)) as [(n & Hn & E3)|[_ E3]]; rewrite E3; cbn [bind];
      [|reflexivity].
    destruct (at_cases (lngGrid r) (x + 1)) as [(e & He & E4)|[_ E4]]; rewrite E4; cbn [bind];
      [|reflexivity].
    apply idx_Some_range in Hs, Hw, Hn, He. lia.
Qed.

(** ** Merging a run into an accumulator *)

Lemma mergeInto_append (test : Bound -> Bound -> bool) (acc : list Bound) (b : Bound) :
  (forall a, In a acc -> test a b = false) -> mergeInto test acc b = acc ++ [b].
Proof.
  induction acc as [|h t IH]; intros H; cbn [mergeInto app]; [reflexivity|].
  rewrite (H h (or_introl eq_refl)). f_equal. apply IH. intros a Ha. apply H. now right.
Qed.

Lemma mergeInto_extend (test : Bound -> Bound -> bool) (pre post : list Bound)
  (a b : Bound) :
  (forall a', In a' pre -> test a' b = false) -> test a b = true ->
  mergeInto test (pre ++ a :: post) b = pre ++ Extend a (NorthEast b) :: post.
Proof.
  induction pre as [|h t IH]; intros H Ha; cbn [mergeInto app].
  - now rewrite Ha.
  - rewrite (H h (or_introl eq_refl)). f_equal. apply IH; [|assumption].
    intros a' Ha'. apply H. now right.
Qed.

(** X20: [mergeBoxesX] and [mergeBoxesY] do nothing for a nil box.  For a
    box they extend the first accumulated box that passes the tolerance
    test, to the north-east corner of the new box, and leave every other
    accumulated box as it is (also later ones that would pass the test);
    when no accumulated box passes, the new box is appended. *)
Theorem mergeBoxes_first_match (r : RouteBoxer) (b : Bound) :
  mergeBoxesX r None = r /\ mergeBoxesY r None = r
  /\ ((forall a, In a (boxesX r) -> matchX a b = false) ->
      mergeBoxesX r (Some b) = set_boxesX r (boxesX r ++ [b]))
  /\ ((forall a, In a (boxesY r) -> matchY a b = false) ->
      mergeBoxesY r (Some b) = set_boxesY r (boxesY r ++ [b]))
  /\ (forall pre a post,
        boxesX r = pre ++ a :: post ->
        (forall a', In a' pre -> matchX a' b = false) -> matchX a b = true ->
        mergeBoxesX r (Some b) = set_boxesX r (pre ++ Extend a (NorthEast b) :: post))
  /\ (forall pre a post,
        boxesY r = pre ++ a :: post ->
        (forall a', In a' pre -> matchY a' b = false) -> matchY a b = true ->
        mergeBoxesY r (Some b) = set_boxesY r (pre ++ Extend a (NorthEast b) :: post)).
Proof.
  unfold mergeBoxesX, mergeBoxesY.
  split; [reflexivity|]. split; [reflexivity|].
  split; [intros H; now rewrite mergeInto_append|].
  split; [intros H; now rewrite mergeInto_append|].
  split; intros pre a post E H Ha; rewrite E; now rewrite mergeInto_extend.
Qed.

(** ** The result is never empty *)

Lemma mergeInto_nonempty (test : Bound -> Bound -> bool) (acc : list Bound) (b : Bound) :
  mergeInto test acc b <> [].
Proof. destruct acc as [|h t]; cbn [mergeInto]; [|destruct (test h b)]; discriminate. Qed.

Lemma mergeInto_keeps_nonempty (test : Bound -> Bound -> bool) (acc : list Bound) (b : Bound) :
  acc <> [] -> mergeInto test acc b <> [].
Proof. intros _. apply mergeInto_nonempty. Qed.

Section NonEmpty.
Variable merge : RouteBoxer -> option Bound -> RouteBoxer.
Variable acc : RouteBoxer -> list Bound.
Hypothesis merge_grid : forall r cur, grid (merge r cur) = grid r.
Hypothesis merge_some : forall r b, acc (merge r (Some b)) <> [].
Hypothesis merge_keeps : forall r cur, acc r <> [] -> acc (merge r cur) <> [].

Lemma marked_grid (r r' : RouteBoxer) (c : cell) : grid r' = grid r -> marked r' c = marked r c.
Proof. intros E. unfold marked. now rewrite E. Qed.

(** One cell: a marked cell opens or extends the current box, an unmarked
    one hands it over to the accumulator. *)
Lemma cellStep_cases (r : RouteBoxer) (cur : option Bound) (x y : Z)
  (r1 : RouteBoxer) (c1 : option Bound) :
  cellStep merge r cur x y = Ok (r1, c1) ->
  (marked r (x, y) = true /\ r1 = r /\ c1 <> None)
  \/ (marked r (x, y) = false /\ r1 = merge r cur /\ c1 = None).
Proof.
  unfold cellStep, marked, at_. cbn [fst snd].
  destruct (idx (grid r) x) as [col|]; cbn [bind]; [|discriminate].
  destruct (idx col y) as [v|]; cbn [bind]; [|discriminate].
  destruct (v =? 1)%Z.
  - destruct (getCellBounds r (x, y)) as [b| |]; cbn [bind]; try discriminate.
    destruct cur; intros [= <- <-]; left; repeat split; discriminate.
  - intros [= <- <-]. right. repeat split.
Qed.

Lemma cellStep_started (r : RouteBoxer) (cur : option Bound) (x y : Z)
  (r1 : RouteBoxer) (c1 : option Bound) :
  cellStep merge r cur x y = Ok (r1, c1) ->
  grid r1 = grid r
  /\ ((cur <> None \/ acc r <> []) \/ marked r (x, y) = true -> c1 <> None \/ acc r1 <> []).
Proof.
  intros H. destruct (cellStep_cases _ _ _ _ _ _ H) as [(M & -> & C)|(M & -> & ->)].
  - split; [reflexivity|]. intros _. now left.
  - split; [apply merge_grid|]. intros [[S|S]|S].
    + right. destruct cur as [b|]; [apply merge_some | contradiction].
    + right. now apply merge_keeps.
    + congruence.
Qed.
End NonEmpty.

Lemma mergeBoxesY_grid (r : RouteBoxer) (cur : option Bound) : grid (mergeBoxesY r cur) = grid r.
Proof. destruct cur; reflexivity. Qed.

Lemma mergeBoxesX_grid (r : RouteBoxer) (cur : option Bound) : grid (mergeBoxesX r cur) = grid r.
Proof. destruct cur; reflexivity. Qed.

Lemma mergeBoxesY_some (r : RouteBoxer) (b : Bound) : boxesY (mergeBoxesY r (Some b)) <> [].
Proof. cbn. apply mergeInto_nonempty. Qed.

Lemma mergeBoxesX_some (r : RouteBoxer) (b : Bound) : boxesX (mergeBoxesX r (Some b)) <> [].
Proof. cbn. apply mergeInto_nonempty. Qed.

Lemma mergeBoxesY_keeps (r : RouteBoxer) (cur : option Bound) :
  boxesY r <> [] -> boxesY (mergeBoxesY r cur) <> [].
Proof. destruct cur; cbn; [intros _; apply mergeInto_nonempty | auto]. Qed.

Lemma mergeBoxesX_keeps (r : RouteBoxer) (cur : option Bound) :
  boxesX r <> [] -> boxesX (mergeBoxesX r cur) <> [].
Proof. destruct cur; cbn; [intros _; apply mergeInto_nonempty | auto]. Qed.

Lemma rowInner_started (n : nat) :
  forall r cur x y r' cur',
    rowInner n r cur x y = Ok (r', cur') ->
    grid r' = grid r
    /\ ((cur <> None \/ boxesY r <> [])
         \/ (exists x', (x <= x' < x + Z.of_nat n)%Z /\ marked r (x', y) = true) ->
        cur' <> None \/ boxesY r' <> []).
Proof.
  induction n as [|n IH]; intros r cur x y r' cur'; cbn [rowInner].
  - intros [= <- <-]. split; [reflexivity|]. intros [S|(x' & Hx & _)]; [assumption | lia].
  - destruct (cellStep mergeBoxesY r cur x y) as [[r1 c1]| |] eqn:E; cbn [bind]; try discriminate.
    cbn [fst snd]. intros H.
    destruct (cellStep_started mergeBoxesY boxesY mergeBoxesY_grid mergeBoxesY_some
                mergeBoxesY_keeps _ _ _ _ _ _ E) as (G1 & S1).
    destruct (IH _ _ _ _ _ _ H) as (G2 & S2).
    split; [congruence|]. intros K. apply S2.
    destruct K as [K|(x' & Hx & M)].
    + left. apply S1. now left.
    + destruct (Z.eq_dec x' x) as [->|N].
      * left. apply S1. now right.
      * right. exists x'. split; [lia|]. now rewrite (marked_grid _ _ _ G1).
Qed.

Lemma colInner_started (n : nat) :
  forall r cur x y r' cur',
    colInner n r cur x y = Ok (r', cur') ->
    grid r' = grid r
    /\ ((cur <> None \/ boxesX r <> [])
         \/ (exists y', (y <= y' < y + Z.of_nat n)%Z /\ marked r (x, y') = true) ->
        cur' <> None \/ boxesX r' <> []).
Proof.
  induction n as [|n IH]; intros r cur x y r' cur'; cbn [colInner].
  - intros [= <- <-]. split; [reflexivity|]. intros [S|(y' & Hy & _)]; [assumption | lia].
  - destruct (cellStep mergeBoxesX r cur x y) as [[r1 c1]| |] eqn:E; cbn [bind]; try discriminate.
    cbn [fst snd]. intros H.
    destruct (cellStep_started mergeBoxesX boxesX mergeBoxesX_grid mergeBoxesX_some
                mergeBoxesX_keeps _ _ _ _ _ _ E) as (G1 & S1).
    destruct (IH _ _ _ _ _ _ H) as (G2 & S2).
    split; [congruence|]. intros K. apply S2.
    destruct K as [K|(y' & Hy & M)].
    + left. apply S1. now left.
    + destruct (Z.eq_dec y' y) as [->|N].
      * left. apply S1. now right.
      * right. exists y'. split; [lia|]. now rewrite (marked_grid _ _ _ G1).
Qed.

Lemma rowOuter_started (n : nat) :
  forall r y r',
    rowOuter n r y = Ok r' ->
    (boxesY r <> []
     \/ exists x' y', (0 <= x' < Z.of_nat (length (grid r)))%Z
                      /\ (y <= y' < y + Z.of_nat n)%Z /\ marked r (x', y') = true) ->
    boxesY r' <> [].
Proof.
  induction n as [|n IH]; intros r y r'; cbn [rowOuter].
  - intros [= <-]. intros [S|(x' & y' & _ & Hy & _)]; [assumption | lia].
  - destruct (rowInner (length (grid r)) r None 0 y) as [[r1 c1]| |] eqn:E; cbn [bind];
      try discriminate.
    cbn [fst snd]. intros H K.
    destruct (rowInner_started _ _ _ _ _ _ _ E) as (G1 & S1).
    assert (G2 : grid (mergeBoxesY r1 c1) = grid r) by (now rewrite mergeBoxesY_grid).
    assert (F : c1 <> None \/ boxesY r1 <> [] -> boxesY (mergeBoxesY r1 c1) <> []).
    { intros [C|C]; [|now apply mergeBoxesY_keeps].
      destruct c1 as [b|]; [apply mergeBoxesY_some | contradiction]. }
    apply (IH _ _ _ H).
    destruct K as [K|(x' & y' & Hx & Hy & M)].
    + left. apply F, S1. left. now right.
    + destruct (Z.eq_dec y' y) as [->|N].
      * left. apply F, S1. right. exists x'. split; [lia | assumption].
      * right. exists x', y'. rewrite G2. split; [assumption|]. split; [lia|].
        now rewrite (marked_grid _ _ _ G2).
Qed.

Lemma colOuter_started (n h : nat) :
  forall r x r',
    colOuter n h r x = Ok r' ->
    (boxesX r <> []
     \/ exists x' y', (x <= x' < x + Z.of_nat n)%Z
                      /\ (0 <= y' < Z.of_nat h)%Z /\ marked r (x', y') = true) ->
    boxesX r' <> [].
Proof.
  induction n as [|n IH]; intros r x r'; cbn [colOuter].
  - intros [= <-]. intros [S|(x' & y' & Hx & _ & _)]; [assumption | lia].
  - destruct (colInner h r None x 0) as [[r1 c1]| |] eqn:E; cbn [bind]; try discriminate.
    cbn [fst snd]. intros H K.
    destruct (colInner_started _ _ _ _ _ _ _ E) as (G1 & S1).
    assert (G2 : grid (mergeBoxesX r1 c1) = grid r) by (now rewrite mergeBoxesX_grid).
    assert (F : c1 <> None \/ boxesX r1 <> [] -> boxesX (mergeBoxesX r1 c1) <> []).
    { intros [C|C]; [|now apply mergeBoxesX_keeps].
      destruct c1 as [b|]; [apply mergeBoxesX_some | contradiction]. }
    apply (IH _ _ _ H).
    destruct K as [K|(x' & y' & Hx & Hy & M)].
    + left. apply F, S1. left. now right.
    + destruct (Z.eq_dec x' x) as [->|N].
      * left. apply F, S1. right. exists y'. split; [lia | assumption].
      * right. exists x', y'. split; [lia|]. split; [assumption|].
        now rewrite (marked_grid _ _ _ G2).
Qed.

Lemma mergeIntersectingCells_nonempty (r r' : RouteBoxer) (h : nat) (c : cell) :
  rectangular (grid r) h -> marked r c = true ->
  mergeIntersectingCells r = Ok r' ->
  boxesX r' <> [] /\ boxesY r' <> [].
Proof.
  intros HR M H. destruct c as [x y].
  destruct (marked_range _ _ _ _ HR M) as [Rx Ry].
  destruct (mergeIntersectingCells_passes _ _ H) as (g0 & r1 & I0 & R1 & [P1 [L1 _]] & R2 & [P2 _]).
  assert (Hh : length g0 = h) by (apply HR; eapply idx_In; eauto).
  assert (G1 : grid r1 = grid r) by (rewrite P1; reflexivity).
  assert (NY : boxesY r1 <> []).
  { apply (rowOuter_started _ _ _ _ R1). right. exists x, y. rewrite Hh.
    repeat split; try lia; assumption. }
  split.
  - apply (colOuter_started _ _ _ _ _ R2). right. exists x, y. rewrite G1, Hh.
    repeat split; try lia. now rewrite (marked_grid _ _ _ G1).
  - rewrite P2. cbn [boxesY set_boxesX]. unfold set_boxesX. cbn [boxesY]. exact NY.
Qed.

(** X21: whenever [Boxes] returns, from whatever state it started, the
    returned set holds at least one rectangle, and so do both
    accumulators: the cell of the first vertex is marked, and each pass
    turns a marked cell into a box. *)
Theorem Boxes_returns_at_least_one_box (fuel : nat) (r : RouteBoxer) (bs : list Bound)
  (r' : RouteBoxer) :
  Boxes fuel r = Ok (bs, r') ->
  (1 <= length bs)%nat /\ (1 <= length (boxesX r'))%nat /\ (1 <= length (boxesY r'))%nat.
Proof.
  intros HB.
  destruct (Boxes_stages _ _ _ _ HB) as (r1 & r2 & E1 & E2 & E3 & ->).
  destruct (buildGrid_frame _ _ _ E1) as (_ & _ & _ & _ & _ & _ & EG).
  destruct (FindIntersectingCells_inv _ _ E2) as ((_ & F2) & _ & HV).
  assert (HR : rectangular (grid r2) (length (latGrid r1))).
  { eapply sameShape_rectangular. rewrite <- EG. exact F2. }
  assert (Hc : exists c, marked r2 c = true).
  { unfold FindIntersectingCells in E2. destruct (vertices r1) as [|v0 rest]; [discriminate|].
    destruct (HV v0 (or_introl eq_refl)) as (c & Hc & _). eauto. }
  destruct Hc as (c & Hc).
  destruct (mergeIntersectingCells_nonempty _ _ _ _ HR Hc E3) as [NX NY].
  assert (LX : (1 <= length (boxesX r'))%nat) by (destruct (boxesX r'); [contradiction | cbn; lia]).
  assert (LY : (1 <= length (boxesY r'))%nat) by (destruct (boxesY r'); [contradiction | cbn; lia]).
  split; [|split; assumption].
  destruct (len (boxesX r') <=? len (boxesY r'))%Z; assumption.
Qed.

Lemma Boxes_returns_at_least_one_box_witness :
  (1 <= length (colBoxesL 10 0 dxWide dyWide))%nat
  /\ (1 <= length (boxesX stateWide))%nat /\ (1 <= length (boxesY stateWide))%nat.
Proof.
  exact (Boxes_returns_at_least_one_box 3 (NewRouteBoxer 50000 routeWide)
           (colBoxesL 10 0 dxWide dyWide) stateWide (Boxes_routeWide 0)).
Defined.

(** ** ToGeoJson *)

Lemma fold_polygons (bs : list Bound) :
  forall acc, fold_left (fun polygons b => polygons ++ [polygonOf b]) bs acc
              = acc ++ map polygonOf bs.
Proof.
  induction bs as [|b t IH]; intros acc; cbn [fold_left map].
  - now rewrite app_nil_r.
  - rewrite IH, <- app_assoc. reflexivity.
Qed.

Lemma Coordinates_ToGeoJson (bs : list Bound) : Coordinates (ToGeoJson bs) = map polygonOf bs.
Proof. unfold ToGeoJson. cbn [Coordinates]. apply fold_polygons. Qed.

(** X22: [ToGeoJson] produces a "MultiPolygon" with one polygon per box,
    in the order of the boxes; each polygon is a single closed ring of
    five points that visits the corners north-west, north-east,
    south-east, south-west and north-west, each as (longitude, latitude). *)
Theorem ToGeoJson_one_ring_per_box (bs : list Bound) :
  Type_ (ToGeoJson bs) = "MultiPolygon"%string
  /\ length (Coordinates (ToGeoJson bs)) = length bs
  /\ forall i b, idx bs i = Some b ->
       idx (Coordinates (ToGeoJson bs)) i
       = Some [ [ mkPoint (Lng (SouthWest b)) (Lat (NorthEast b));
                  mkPoint (Lng (NorthEast b)) (Lat (NorthEast b));
                  mkPoint (Lng (NorthEast b)) (Lat (SouthWest b));
                  mkPoint (Lng (SouthWest b)) (Lat (SouthWest b));
                  mkPoint (Lng (SouthWest b)) (Lat (NorthEast b)) ] ].
Proof.
  split; [reflexivity|]. rewrite Coordinates_ToGeoJson. split; [apply length_map|].
  intros i b H. rewrite idx_map, H. reflexivity.
Qed.

Lemma polygonOf_bound (b : Bound) : ordered b -> PointSet_Bound (concat (polygonOf b)) = b.
Proof.
  intros [Hx Hy]. destruct b as [[w s] [e n]]. cbn [SouthWest NorthEast Lng Lat] in *.
  unfold polygonOf, NorthWest, SouthEast. cbn [concat app SouthWest NorthEast Lng Lat].
  unfold PointSet_Bound, NewBound. cbn [fold_left Lng Lat].
  repeat rstep. reflexivity.
Qed.

(** X23: the boxes can be read back from the result: when every box has its
    south-west corner south-west of its north-east corner, the bounding
    boxes of the polygons of [ToGeoJson] are the boxes, in order. *)
Theorem ToGeoJson_round_trip (bs : list Bound) :
  Forall ordered bs -> polygonBounds (ToGeoJson bs) = bs.
Proof.
  intros H. unfold polygonBounds. rewrite Coordinates_ToGeoJson, map_map.
  induction H as [|b t Hb Ht IH]; cbn [map]; [reflexivity|].
  now rewrite polygonOf_bound, IH.
Qed.

Lemma ToGeoJson_round_trip_witness :
  polygonBounds (ToGeoJson [box 0 0 1 1; box 1 0 2 3]) = [box 0 0 1 1; box 1 0 2 3].
Proof.
  apply (ToGeoJson_round_trip [box 0 0 1 1; box 1 0 2 3]).
  repeat constructor; cbn; lra.
Defined.

Lemma fiveLines_from_hint :
  getGridCoordsFromHint (fiveLines [] []) (mkPoint (5 / 2) (3 / 2)) (mkPoint (1 / 2) (1 / 2))
    (0, 0)%Z = Ok (2, 1)%Z.
Proof.
  unfold getGridCoordsFromHint, fiveLines.
  cbn [lngGrid latGrid Lng Lat fst snd length scanUp scanDown].
  repeat first
    [ rstep
    | match goal with
      | |- context [at_ ?l ?i] =>
          let v := eval cbv [at_ idx Z.ltb Z.compare Z.to_nat Pos.to_nat Pos.iter_op
                               Z.add Pos.add Pos.succ Nat.add nth_error Pos.compare
                               Pos.compare_cont Z.pos_sub Z.opp Pos.pred_double Z.double
                               Z.succ_double Z.pred_double]
                   in (at_ l i) in change (at_ l i) with v
      end
    | progress cbn [bind]
    | zstep ].
  reflexivity.
Qed.

Lemma getGridCoordsFromHint_contains_witness :
  inCell (fiveLines [] []) (2, 1)%Z (mkPoint (5 / 2) (3 / 2)).
Proof.
  apply (getGridCoordsFromHint_contains (fiveLines [] []) (mkPoint (5 / 2) (3 / 2))
           (mkPoint (1 / 2) (1 / 2)) (0, 0)%Z (2, 1)%Z).
  - exists 0, 1, 0, 1. cbn [Lng Lat]. repeat split; try reflexivity; lra.
  - exact fiveLines_from_hint.
Defined.

Lemma fiveLines_route :
  FindIntersectingCells (fiveLines (routeL (3 / 2) (5 / 2) (3 / 2) (5 / 2)) zeros5)
  = Ok (fiveLines (routeL (3 / 2) (5 / 2) (3 / 2) (5 / 2)) marksL).
Proof.
  apply (FindIntersectingCells_L 0 1 2 3 4 0 1 2 3 4 (3 / 2) (5 / 2) (3 / 2) (5 / 2) 1); lra.
Qed.

Lemma FindIntersectingCells_marks_every_vertex_witness :
  gridOnly (fiveLines (routeL (3 / 2) (5 / 2) (3 / 2) (5 / 2)) zeros5)
           (fiveLines (routeL (3 / 2) (5 / 2) (3 / 2) (5 / 2)) marksL)
  /\ marksKept (fiveLines (routeL (3 / 2) (5 / 2) (3 / 2) (5 / 2)) zeros5)
               (fiveLines (routeL (3 / 2) (5 / 2) (3 / 2) (5 / 2)) marksL)
  /\ forall v, In v (vertices (fiveLines (routeL (3 / 2) (5 / 2) (3 / 2) (5 / 2)) zeros5)) ->
       exists c, marked (fiveLines (routeL (3 / 2) (5 / 2) (3 / 2) (5 / 2)) marksL) c = true
                 /\ inCell (fiveLines (routeL (3 / 2) (5 / 2) (3 / 2) (5 / 2)) zeros5) c v.
Proof.
  exact (FindIntersectingCells_marks_every_vertex _ _ fiveLines_route).
Defined.

(** ** Marking after buildGrid *)

Lemma idx_repeat {A : Type} (a : A) (n : nat) (i : Z) :
  idx (repeat a n) i = if ((0 <=? i) && (i <? Z.of_nat n))%Z then Some a else None.
Proof.
  destruct (Z.leb_spec 0 i) as [P|P]; cbn [andb].
  - destruct (Z.ltb_spec i (Z.of_nat n)) as [Q|Q].
    + destruct (idx_in_range (repeat a n) i) as [b Hb]; [unfold len; rewrite repeat_length; lia|].
      rewrite Hb. f_equal. apply idx_In in Hb. now apply repeat_spec in Hb.
    + destruct (idx (repeat a n) i) eqn:E; [|reflexivity].
      apply idx_Some_range in E. unfold len in E. rewrite repeat_length in E. lia.
  - destruct (idx (repeat a n) i) eqn:E; [|reflexivity].
    apply idx_Some_range in E. lia.
Qed.

Lemma hasCell_zero_grid (w h : nat) (x y : Z) :
  hasCell (repeat (repeat 0%Z h) w) (x, y)
  = ((0 <=? x) && (x <? Z.of_nat w) && ((0 <=? y) && (y <? Z.of_nat h)))%Z.
Proof.
  unfold hasCell, cellVal. cbn [fst snd]. rewrite idx_repeat.
  destruct ((0 <=? x) && (x <? Z.of_nat w))%Z; cbn [andb]; [|reflexivity].
  rewrite idx_repeat. destruct ((0 <=? y) && (y <? Z.of_nat h))%Z; reflexivity.
Qed.

Lemma interior_zero_grid (w h : nat) (x y : Z) :
  interior (repeat (repeat 0%Z h) w) (x, y) = true
  <-> (1 <= x /\ x + 1 < Z.of_nat w /\ 1 <= y /\ y + 1 < Z.of_nat h)%Z.
Proof.
  unfold interior, nine. cbn [forallb fst snd]. rewrite !hasCell_zero_grid.
  rewrite !andb_true_iff, !Z.leb_le, !Z.ltb_lt. lia.
Qed.

(** X24: the cells that can be marked in the grid that [buildGrid] returns
    are those with a neighbour on every side: [markCell] succeeds for the
    cell [(x, y)] when [1 <= x], [x + 1] is below the number of longitude
    lines, [1 <= y] and [y + 1] is below the number of latitude lines, and
    faults for every other cell. *)
Theorem markCell_after_buildGrid (fuel : nat) (r r1 : RouteBoxer) (x y : Z) :
  buildGrid fuel r = Ok r1 ->
  ((1 <= x /\ x + 1 < len (lngGrid r1) /\ 1 <= y /\ y + 1 < len (latGrid r1))%Z ->
   exists r2, markCell r1 (x, y) = Ok r2)
  /\ (~ (1 <= x /\ x + 1 < len (lngGrid r1) /\ 1 <= y /\ y + 1 < len (latGrid r1))%Z ->
      markCell r1 (x, y) = Panic).
Proof.
  intros H. destruct (buildGrid_frame _ _ _ H) as (_ & _ & _ & _ & _ & _ & EG).
  pose proof (interior_zero_grid (length (lngGrid r1)) (length (latGrid r1)) x y) as I.
  rewrite <- EG in I. unfold len. split; intros C.
  - destruct (markCell_Ok r1 (x, y) (proj2 I C)) as (r2 & E & _). eauto.
  - apply markCell_Panic. destruct (interior (grid r1) (x, y)); [|reflexivity].
    exfalso. apply C, I. reflexivity.
Qed.

Lemma markCell_after_buildGrid_witness :
  ((1 <= 1 /\ 1 + 1 < len (lngGrid statePoint)
    /\ 1 <= 1 /\ 1 + 1 < len (latGrid statePoint))%Z ->
   exists r2, markCell statePoint (1, 1)%Z = Ok r2)
  /\ (~ (1 <= 1 /\ 1 + 1 < len (lngGrid statePoint)
         /\ 1 <= 1 /\ 1 + 1 < len (latGrid statePoint))%Z ->
      markCell statePoint (1, 1)%Z = Panic).
Proof.
  exact (markCell_after_buildGrid 2 (NewRouteBoxer 50 [mkPoint 10 45]) statePoint 1 1
           (buildGrid_single_point 0)).
Defined.

(** ** The first vertex *)

Lemma fold_min_elem {A : Type} (f : A -> R) (l : list A) :
  forall a v, In v l -> fold_left (fun m v => Rmin m (f v)) l a <= f v.
Proof.
  induction l as [|h t IH]; intros a v Hv; [destruct Hv|].
  destruct Hv as [->|Hv]; cbn [fold_left].
  - eapply Rle_trans; [apply fold_min_le | apply Rmin_r].
  - now apply IH.
Qed.

Lemma fold_max_elem {A : Type} (f : A -> R) (l : list A) :
  forall a v, In v l -> f v <= fold_left (fun m v => Rmax m (f v)) l a.
Proof.
  induction l as [|h t IH]; intros a v Hv; [destruct Hv|].
  destruct Hv as [->|Hv]; cbn [fold_left].
  - eapply Rle_trans; [apply Rmax_r | apply fold_max_ge].
  - now apply IH.
Qed.

(** Every point of a set lies in the bounding box of the set. *)
Lemma PointSet_Bound_contains (vs : list Point) (v : Point) :
  In v vs -> contains (PointSet_Bound vs) v.
Proof.
  destruct vs as [|p rest]; [intros []|]. intros Hv.
  unfold PointSet_Bound, NewBound, contains. cbn [SouthWest NorthEast Lng Lat].
  assert (X1 : fold_left (fun m v => Rmin m (Lng v)) rest (Lng p) <= Lng v).
  { destruct Hv as [->|Hv]; [apply fold_min_le | now apply fold_min_elem]. }
  assert (X2 : Lng v <= fold_left (fun m v => Rmax m (Lng v)) rest (Lng p)).
  { destruct Hv as [->|Hv]; [apply fold_max_ge | now apply fold_max_elem]. }
  assert (Y1 : fold_left (fun m v => Rmin m (Lat v)) rest (Lat p) <= Lat v).
  { destruct Hv as [->|Hv]; [apply fold_min_le | now apply fold_min_elem]. }
  assert (Y2 : Lat v <= fold_left (fun m v => Rmax m (Lat v)) rest (Lat p)).
  { destruct Hv as [->|Hv]; [apply fold_max_ge | now apply fold_max_elem]. }
  repeat split.
  - eapply Rle_trans; [apply Rmin_l | exact X1].
  - eapply Rle_trans; [exact X2 | apply Rmax_r].
  - eapply Rle_trans; [apply Rmin_l | exact Y1].
  - eapply Rle_trans; [exact Y2 | apply Rmax_r].
Qed.

(** One axis: on evenly spaced lines, a value above line 1 and not above
    the line before the last is located between two lines, at an index
    with a neighbour on both sides. *)
Lemma scanFirst_even_lines (c s v : R) (m n : nat) :
  0 < s -> c - INR m * s < v -> v <= c + INR n * s ->
  exists k,
    scanFirst (S (m + n + 3)) (linesFrom c s (- Z.of_nat (m + 1)) (m + n + 3)) v 0 = Ok (k + 1)%Z
    /\ (1 <= k)%Z /\ (k + 1 < Z.of_nat (m + n + 3))%Z
    /\ exists a b, idx (linesFrom c s (- Z.of_nat (m + 1)) (m + n + 3)) k = Some a
                   /\ idx (linesFrom c s (- Z.of_nat (m + 1)) (m + n + 3)) (k + 1) = Some b
                   /\ a <= v <= b.
Proof.
  intros Hs Hlo Hhi.
  set (g := linesFrom c s (- Z.of_nat (m + 1)) (m + n + 3)).
  assert (G : forall i, (0 <= i < Z.of_nat (m + n + 3))%Z ->
                idx g i = Some (c + IZR (- Z.of_nat (m + 1) + i) * s))
    by (intros; now apply idx_linesFrom).
  assert (L1 : c + IZR (- Z.of_nat (m + 1) + 1) * s = c - INR m * s).
  { rewrite INR_IZR_INZ. replace (- Z.of_nat (m + 1) + 1)%Z with (- Z.of_nat m)%Z by lia.
    rewrite opp_IZR. ring. }
  assert (L2 : c + IZR (- Z.of_nat (m + 1) + Z.of_nat (m + n + 1)) * s = c + INR n * s).
  { rewrite INR_IZR_INZ. do 3 f_equal. lia. }
  assert (G1 := G (Z.of_nat (m + n + 1)) ltac:(lia)).
  assert (V1 : v <= c + IZR (- Z.of_nat (m + 1) + Z.of_nat (m + n + 1)) * s)
    by (rewrite L2; exact Hhi).
  destruct (scanFirst_progress (S (m + n + 3)) g v 0 (Z.of_nat (m + n + 1)) _
              ltac:(lia) G1 V1 ltac:(lia))
    as (k & E & Hk).
  destruct (scanFirst_first _ _ _ _ _ E) as (K0 & (b & Hb & Lb) & K3).
  assert (K2 : (2 <= k)%Z).
  { destruct (Z_le_dec 2 k) as [P|P]; [assumption|]. exfalso.
    rewrite G in Hb by lia. injection Hb as <-.
    assert (IZR (- Z.of_nat (m + 1) + k) <= IZR (- Z.of_nat (m + 1) + 1)) by (apply IZR_le; lia).
    nra. }
  exists (k - 1)%Z. replace (k - 1 + 1)%Z with k by lia.
  split; [exact E|]. split; [lia|]. split; [lia|].
  destruct (K3 (k - 1)%Z ltac:(lia)) as (a & Ha & La).
  exists a, b. repeat split; auto; lra.
Qed.

Lemma first_vertex_steps (d : R) (v0 : Point) (rest : list Point) :
  let b := PointSet_Bound (v0 :: rest) in
  let cx := Lng (Center b) in
  let cy := Lat (Center b) in
  let dy := rad2deg (d / EarthRadius) in
  let dx := rad2deg (d / EarthRadius / cos (deg2rad cy)) in
  1 / 10 ^ 10 <= d / EarthRadius ->
  -90 <= Lat (SouthWest b) - 2 * dy -> Lat (NorthEast b) + 2 * dy <= 90 ->
  -90 < Lng (SouthWest b) - 2 * dx -> Lng (NorthEast b) + 2 * dx < 90 ->
  (forall k : nat, Lat v0 <> cy - INR k * dy) ->
  (forall k : nat, Lng v0 <> cx - INR k * dx) ->
  exists fuel0 r1 c r2,
    (forall fuel, (fuel0 <= fuel)%nat -> buildGrid fuel (NewRouteBoxer d (v0 :: rest)) = Ok r1)
    /\ getCellCoords r1 v0 = Ok c /\ inCell r1 c v0
    /\ markCell r1 c = Ok r2 /\ marked r2 c = true.
Proof.
  intros b cx cy dy dx Ha HS HN HW HE Ny Nx.
  destruct (buildGrid_even_lines_steps d (v0 :: rest) Ha HS HN HW HE)
    as (m & n & mx & nx & Py & Px & (N1 & _) & (S1 & _) & (E1 & _) & (W1 & _) & HB).
  fold b cx cy dy dx in Py, Px, N1, S1, E1, W1, HB.
  destruct (PointSet_Bound_contains (v0 :: rest) v0 (or_introl eq_refl)) as [[Cw Ce] [Cs Cn]].
  fold b in Cw, Ce, Cs, Cn.
  assert (Ly : cy - INR m * dy < Lat v0).
  { destruct (Req_dec_T (Lat v0) (cy - INR m * dy)) as [Q|Q]; [exfalso; exact (Ny m Q) | lra]. }
  assert (Lx : cx - INR mx * dx < Lng v0).
  { destruct (Req_dec_T (Lng v0) (cx - INR mx * dx)) as [Q|Q]; [exfalso; exact (Nx mx Q) | lra]. }
  assert (Uy : Lat v0 <= cy + INR n * dy) by (eapply Rle_trans; eassumption).
  assert (Ux : Lng v0 <= cx + INR nx * dx) by (eapply Rle_trans; eassumption).
  destruct (scanFirst_even_lines cy dy (Lat v0) m n Py Ly Uy)
    as (y & Ey & Y1 & Y2 & s & nn & Hs & Hn & By).
  destruct (scanFirst_even_lines cx dx (Lng v0) mx nx Px Lx Ux)
    as (x & Ex & X1 & X2 & w & e & Hw & He & Bx).
  set (r1 := mkRouteBoxer d (v0 :: rest)
               (linesFrom cy dy (- Z.of_nat (m + 1)) (m + n + 3))
               (linesFrom cx dx (- Z.of_nat (mx + 1)) (mx + nx + 3))
               (repeat (repeat 0%Z (m + n + 3)) (mx + nx + 3)) [] []) in *.
  assert (I : interior (grid r1) (x, y) = true).
  { apply interior_zero_grid. lia. }
  destruct (markCell_Ok r1 (x, y) I) as (r2 & EM & _ & M).
  exists (m + n + mx + nx + 2)%nat, r1, (x, y), r2.
  split; [exact HB|]. split; [|split; [|split]].
  - unfold getCellCoords, r1. cbn [lngGrid latGrid]. rewrite !length_linesFrom.
    rewrite Ex, Ey. cbn [bind].
    replace (x + 1 - 1)%Z with x by lia. replace (y + 1 - 1)%Z with y by lia. reflexivity.
  - exists w, e, s, nn. cbn [fst snd]. repeat split; auto; lra.
  - exact EM.
  - rewrite M. unfold neighbour. rewrite !Z.sub_diag. cbn. apply orb_true_r.
Qed.

(** X25: the first marking succeeds off the grid lines.  When the distance
    is at least 1e-10 Earth radii, the bounding box of the route widened
    by two cells stays between the poles and within 90 degrees of the
    meridian 0, and the first vertex of the route does not lie on a
    grid line at or south of the centre, nor on one at or west of it,
    [buildGrid] returns, [getCellCoords] locates the vertex in a cell that
    contains it, and [markCell] marks that cell without a fault. *)
Theorem first_vertex_is_marked (d : R) (v0 : Point) (rest : list Point) :
  let b := PointSet_Bound (v0 :: rest) in
  let cx := Lng (Center b) in
  let cy := Lat (Center b) in
  let dy := rad2deg (d / EarthRadius) in
  let dx := rad2deg (d / EarthRadius / cos (deg2rad cy)) in
  1 / 10 ^ 10 <= d / EarthRadius ->
  -90 <= Lat (SouthWest b) - 2 * dy -> Lat (NorthEast b) + 2 * dy <= 90 ->
  -90 < Lng (SouthWest b) - 2 * dx -> Lng (NorthEast b) + 2 * dx < 90 ->
  (forall k : nat, Lat v0 <> cy - INR k * dy) ->
  (forall k : nat, Lng v0 <> cx - INR k * dx) ->
  exists fuel0 r1 c r2,
    (forall fuel, (fuel0 <= fuel)%nat -> buildGrid fuel (NewRouteBoxer d (v0 :: rest)) = Ok r1)
    /\ getCellCoords r1 v0 = Ok c /\ inCell r1 c v0
    /\ markCell r1 c = Ok r2 /\ marked r2 c = true.
Proof. exact (first_vertex_steps d v0 rest). Qed.

Lemma two_point_bound :
  PointSet_Bound [mkPoint 10 (449 / 10); mkPoint (102 / 10) (451 / 10)]
  = mkBound (mkPoint 10 (449 / 10)) (mkPoint (102 / 10) (451 / 10)).
Proof.
  unfold PointSet_Bound, NewBound. cbn [fold_left Lng Lat].
  rewrite (Rmin_left 10 (102 / 10)), (Rmax_right 10 (102 / 10)) by lra.
  rewrite (Rmin_left (449 / 10) (451 / 10)), (Rmax_right (449 / 10) (451 / 10)) by lra.
  rewrite (Rmin_left 10 (102 / 10)), (Rmax_right 10 (102 / 10)) by lra.
  rewrite (Rmin_left (449 / 10) (451 / 10)), (Rmax_right (449 / 10) (451 / 10)) by lra.
  reflexivity.
Qed.

Lemma first_vertex_is_marked_witness :
  exists fuel0 r1 c r2,
    (forall fuel, (fuel0 <= fuel)%nat ->
       buildGrid fuel (NewRouteBoxer 50000 [mkPoint 10 (449 / 10); mkPoint (102 / 10) (451 / 10)])
       = Ok r1)
    /\ getCellCoords r1 (mkPoint 10 (449 / 10)) = Ok c /\ inCell r1 c (mkPoint 10 (449 / 10))
    /\ markCell r1 c = Ok r2 /\ marked r2 c = true.
Proof.
  assert (A : 0 <= 50000 / EarthRadius <= 1 / 100) by (unfold EarthRadius; lra).
  assert (A' : 78 / 10000 <= 50000 / EarthRadius) by (unfold EarthRadius; lra).
  pose proof (rad2deg_bounds (50000 / EarthRadius) (proj1 A)) as By.
  assert (C : Lat (Center (PointSet_Bound
                [mkPoint 10 (449 / 10); mkPoint (102 / 10) (451 / 10)])) = 45).
  { rewrite two_point_bound. unfold Center. cbn [NorthEast SouthWest Lat]. lra. }
  assert (Q : 1 / 2 <= cos (deg2rad 45) <= 1).
  { split; [apply cos_deg_45 | apply COS_bound]. }
  set (q := cos (deg2rad 45)) in *.
  assert (AQ : 50000 / EarthRadius <= 50000 / EarthRadius / q <= 2 * (50000 / EarthRadius)).
  { assert (P : 0 < / q) by (apply Rinv_0_lt_compat; lra).
    assert (E : 50000 / EarthRadius / q * q = 50000 / EarthRadius) by (field; unfold EarthRadius; lra).
    split; nra. }
  pose proof (rad2deg_bounds (50000 / EarthRadius / q) ltac:(lra)) as Bx.
  apply (first_vertex_is_marked 50000 (mkPoint 10 (449 / 10)) [mkPoint (102 / 10) (451 / 10)]);
    rewrite ?C; fold q; rewrite ?two_point_bound; unfold Center;
    cbn [NorthEast SouthWest Lat Lng].
  - unfold EarthRadius. simpl. lra.
  - lra.
  - lra.
  - lra.
  - lra.
  - intros k. destruct k as [|k].
    + cbn [INR]. lra.
    + pose proof (pos_INR k). rewrite S_INR. nra.
  - intros k. destruct k as [|k].
    + cbn [INR]. lra.
    + pose proof (pos_INR k). rewrite S_INR. nra.
Defined.
